(** * stdforward: forwarding of os.Stdout / os.Stderr to a dynamic set of writers

    Shallow embedding of [internal/stdforward/stdforward.go].

    The package keeps two package-level [forwarder] values and mutates the
    process-global [os.Stdout] variable; both are fields of an explicit
    [world] that every operation threads through.  [*os.File] values are
    descriptors into a file table, [io.Writer] consumers are handles into a
    table of sinks, and the goroutine started by [addWriter] is an entry of a
    task list that a scheduler steps explicitly. *)

From Stdlib Require Import ZArith Lia.
From stdpp Require Import gmap strings list fin_maps.

Open Scope Z_scope.

(** ** Data model *)

Abbreviation fd := nat (only parsing).
Abbreviation wid := nat (only parsing).
Abbreviation bytes := (list Byte.byte) (only parsing).

Inductive error :=
  | ErrInvalid                       (* os.ErrInvalid: method called on a nil *os.File *)
  | ErrShortWrite                    (* io.ErrShortWrite *)
  | EBADF                            (* descriptor not open for writing *)
  | EMFILE                           (* too many open files *)
  | ErrSink                          (* whatever a failing consumer returns *)
  | Errorf_redirect (cause : error). (* fmt.Errorf("Can't redirect output: %v", err) *)

(** What an [*os.File] can point to: a regular destination (terminal, file)
    with the bytes it has accepted so far and, optionally, the number of bytes
    it will still accept; or one end of an [os.Pipe]. *)
Inductive file :=
  | Regular (content : bytes) (room : option nat)
  | PipeW (buf : bytes)
  | PipeR (peer : fd).

(** A registered [io.Writer].  [sink_calls] is the sequence of arguments its
    [Write] method has been invoked with; [sink_data] is what it accepted. *)
Record sink := Sink {
  sink_fails : bool;
  sink_calls : list bytes;
  sink_data : bytes
}.

(** [type forwarder struct { out *os.File; writers map[string]io.Writer;
    mu sync.RWMutex; once sync.Once }].  A nil pointer and a nil map are
    [None]; [once] is the done flag of the [sync.Once]. *)
Record forwarder := Forwarder {
  out : option fd;
  writers : option (gmap string wid);
  once : bool
}.

(** The zero value of the package-level [var stdoutForwarder, stderrForwarder]. *)
Definition zero_forwarder : forwarder := Forwarder None None false.

(** [&stdoutForwarder] or [&stderrForwarder]. *)
Inductive stream := Stdout | Stderr.

(** The goroutine [go func() { io.Copy(dest, rOut) }()], with the two
    variables its closure captures. *)
Record task := Task {
  t_dest : stream;
  t_src : fd;
  t_alive : bool
}.

Inductive warning :=
  | WarnRegular (e : error)   (* "Failed to write to regular output: %v" *)
  | WarnForward (e : error)   (* "Failed to forward logs: %v" *)
  | WarnCopy (e : error).     (* "Forwarding some messages failed: %v" *)

(** Ghost trace of what the body of [dest.once.Do] did, tagged with [dest]. *)
Inductive event :=
  | PipeAllocated (dest : stream) (r w : fd)
  | PipeFailed (dest : stream)
  | CopyLoopStarted (dest : stream) (r : fd)
  | StdoutAssigned (dest : stream) (w : fd).

Record world := World {
  os_Stdout : option fd;
  os_Stderr : option fd;
  stdoutForwarder : forwarder;
  stderrForwarder : forwarder;
  files : gmap fd file;
  fd_left : nat;
  sinks : gmap wid sink;
  goroutines : list task;
  warnings : list warning;
  trace : list event
}.

Global Instance stream_eq_dec : EqDecision stream.
Proof. solve_decision. Defined.

Global Instance event_eq_dec : EqDecision event.
Proof. solve_decision. Defined.

(** ** Field updates *)

Definition set_os_Stdout (v : option fd) (σ : world) : world :=
  World v (os_Stderr σ) (stdoutForwarder σ) (stderrForwarder σ) (files σ)
        (fd_left σ) (sinks σ) (goroutines σ) (warnings σ) (trace σ).

Definition set_files (v : gmap fd file) (σ : world) : world :=
  World (os_Stdout σ) (os_Stderr σ) (stdoutForwarder σ) (stderrForwarder σ) v
        (fd_left σ) (sinks σ) (goroutines σ) (warnings σ) (trace σ).

Definition set_fd_left (v : nat) (σ : world) : world :=
  World (os_Stdout σ) (os_Stderr σ) (stdoutForwarder σ) (stderrForwarder σ) (files σ)
        v (sinks σ) (goroutines σ) (warnings σ) (trace σ).

Definition set_sinks (v : gmap wid sink) (σ : world) : world :=
  World (os_Stdout σ) (os_Stderr σ) (stdoutForwarder σ) (stderrForwarder σ) (files σ)
        (fd_left σ) v (goroutines σ) (warnings σ) (trace σ).

Definition set_goroutines (v : list task) (σ : world) : world :=
  World (os_Stdout σ) (os_Stderr σ) (stdoutForwarder σ) (stderrForwarder σ) (files σ)
        (fd_left σ) (sinks σ) v (warnings σ) (trace σ).

Definition warn (v : warning) (σ : world) : world :=
  World (os_Stdout σ) (os_Stderr σ) (stdoutForwarder σ) (stderrForwarder σ) (files σ)
        (fd_left σ) (sinks σ) (goroutines σ) (warnings σ ++ [v]) (trace σ).

Definition emit (v : event) (σ : world) : world :=
  World (os_Stdout σ) (os_Stderr σ) (stdoutForwarder σ) (stderrForwarder σ) (files σ)
        (fd_left σ) (sinks σ) (goroutines σ) (warnings σ) (trace σ ++ [v]).

Definition fwd (s : stream) (σ : world) : forwarder :=
  match s with Stdout => stdoutForwarder σ | Stderr => stderrForwarder σ end.

Definition set_fwd (s : stream) (f : forwarder) (σ : world) : world :=
  match s with
  | Stdout =>
      World (os_Stdout σ) (os_Stderr σ) f (stderrForwarder σ) (files σ)
            (fd_left σ) (sinks σ) (goroutines σ) (warnings σ) (trace σ)
  | Stderr =>
      World (os_Stdout σ) (os_Stderr σ) (stdoutForwarder σ) f (files σ)
            (fd_left σ) (sinks σ) (goroutines σ) (warnings σ) (trace σ)
  end.

Definition other (s : stream) : stream :=
  match s with Stdout => Stderr | Stderr => Stdout end.

(** ** The operating system and the consumers *)

Definition len (p : bytes) : Z := Z.of_nat (length p).

(** the Write method of [os.File]: a nil receiver gives [ErrInvalid]; a regular file
    accepts what it has room for and reports a short write otherwise; the
    write end of a pipe queues the bytes; a read end cannot be written. *)
Definition file_Write (f : option fd) (p : bytes) (σ : world)
  : (Z * option error) * world :=
  match f with
  | None => ((0, Some ErrInvalid), σ)
  | Some d =>
      match files σ !! d with
      | None => ((0, Some EBADF), σ)
      | Some (Regular c None) =>
          ((len p, None), set_files (<[d := Regular (c ++ p) None]> (files σ)) σ)
      | Some (Regular c (Some k)) =>
          if decide (length p ≤ k)%nat then
            ((len p, None),
             set_files (<[d := Regular (c ++ p) (Some (k - length p)%nat)]> (files σ)) σ)
          else
            ((Z.of_nat k, Some ErrShortWrite),
             set_files (<[d := Regular (c ++ take k p) (Some 0%nat)]> (files σ)) σ)
      | Some (PipeW buf) =>
          ((len p, None), set_files (<[d := PipeW (buf ++ p)]> (files σ)) σ)
      | Some (PipeR _) => ((0, Some EBADF), σ)
      end
  end.

(** [os.Pipe()]: needs two free descriptors, else fails with [EMFILE]. *)
Definition os_Pipe (σ : world) : (fd * fd + error) * world :=
  if decide (2 ≤ fd_left σ)%nat then
    let r := fresh (dom (files σ)) in
    let w := fresh ({[r]} ∪ dom (files σ)) in
    (inl (r, w),
     set_fd_left (fd_left σ - 2)%nat
       (set_files (<[w := PipeW []]> (<[r := PipeR w]> (files σ))) σ))
  else (inr EMFILE, σ).

(** A handle that was never written to denotes a healthy, empty consumer. *)
Definition fresh_sink : sink := Sink false [] [].

Definition get_sink (σ : world) (w : wid) : sink := default fresh_sink (sinks σ !! w).

(** [w.Write(p)] on a registered consumer. *)
Definition sink_Write (w : wid) (p : bytes) (σ : world) : (Z * option error) * world :=
  let s := get_sink σ w in
  if sink_fails s then
    ((0, Some ErrSink),
     set_sinks (<[w := Sink true (sink_calls s ++ [p]) (sink_data s)]> (sinks σ)) σ)
  else
    ((len p, None),
     set_sinks (<[w := Sink false (sink_calls s ++ [p]) (sink_data s ++ p)]> (sinks σ)) σ).

(** ** The package *)

(** [for _, w := range f.writers].  Go leaves the iteration order of a map
    unspecified: [order] is the order this particular iteration takes, used
    when it is an ordering of the map's entries (a nil map has none). *)
Definition range_writers (f : forwarder) (order : list (string * wid))
  : list (string * wid) :=
  let entries := map_to_list (default ∅ (writers f)) in
  if decide (order ≡ₚ entries) then order else entries.

(** The loop body: [if _, err := w.Write(p); err != nil { log.Warningf(...) }]. *)
Definition forward_one (p : bytes) (σ : world) (kw : string * wid) : world :=
  match sink_Write kw.2 p σ with
  | ((_, Some e), σ') => warn (WarnForward e) σ'
  | ((_, None), σ') => σ'
  end.

(** [func (f *forwarder) Write(p []byte) (int, error)]. *)
Definition Write (s : stream) (p : bytes) (order : list (string * wid)) (σ : world)
  : (Z * option error) * world :=
  let f := fwd s σ in
  let '((n, err), σ1) := file_Write (out f) p σ in
  let σ2 := match err with
            | Some e => warn (WarnRegular e) σ1
            | None => σ1
            end in
  let σ3 := foldl (forward_one p) σ2 (range_writers f order) in
  ((n, None), σ3).

Inductive outcome :=
  | Returned (err : option error)
  | Panicked.

(** The function literal passed to [dest.once.Do]; its result is [onceErr]. *)
Definition once_body (dest : stream) (std : option fd) (σ : world)
  : option error * world :=
  let σ1 := set_fwd dest (Forwarder std (Some ∅) (once (fwd dest σ))) σ in
  match os_Pipe σ1 with
  | (inl (rOut, wOut), σ2) =>
      let σ3 := emit (PipeAllocated dest rOut wOut) σ2 in
      let σ4 := emit (CopyLoopStarted dest rOut)
                  (set_goroutines (goroutines σ3 ++ [Task dest rOut true]) σ3) in
      let σ5 := emit (StdoutAssigned dest wOut) (set_os_Stdout (Some wOut) σ4) in
      (None, σ5)
  | (inr err, σ2) =>
      (Some (Errorf_redirect err), emit (PipeFailed dest) σ2)
  end.

(** [sync.Once.Do]: runs the body unless done, and is done once it returns. *)
Definition once_Do (dest : stream) (std : option fd) (σ : world)
  : option error * world :=
  if once (fwd dest σ) then (None, σ)
  else
    let '(e, σ1) := once_body dest std σ in
    let f := fwd dest σ1 in
    (e, set_fwd dest (Forwarder (out f) (writers f) true) σ1).

(** [func addWriter(dest *forwarder, std *os.File, id string, w io.Writer) error].
    Assigning into a nil map panics. *)
Definition addWriter (dest : stream) (std : option fd) (id : string) (w : wid)
    (σ : world) : outcome * world :=
  let '(onceErr, σ1) := once_Do dest std σ in
  match onceErr with
  | Some e => (Returned (Some e), σ1)
  | None =>
      let f := fwd dest σ1 in
      match writers f with
      | None => (Panicked, σ1)
      | Some m =>
          (Returned None, set_fwd dest (Forwarder (out f) (Some (<[id := w]> m)) (once f)) σ1)
      end
  end.

Definition AddStdoutWriter (id : string) (w : wid) (σ : world) : outcome * world :=
  addWriter Stdout (os_Stdout σ) id w σ.

Definition AddStderrWriter (id : string) (w : wid) (σ : world) : outcome * world :=
  addWriter Stderr (os_Stderr σ) id w σ.

(** [delete(f.writers, id)]; deleting from a nil map does nothing. *)
Definition removeWriter (s : stream) (id : string) (σ : world) : world :=
  let f := fwd s σ in
  set_fwd s (Forwarder (out f) (delete id <$> writers f) (once f)) σ.

Definition RemoveStdoutWriter (id : string) (σ : world) : world :=
  removeWriter Stdout id σ.

Definition RemoveStderrWriter (id : string) (σ : world) : world :=
  removeWriter Stderr id σ.

(** ** The copy loop and the rest of the process *)

(** One [Read] on the read end of a pipe: blocks ([None]) while the pipe is
    empty, otherwise returns some non-empty prefix of what is queued; [k] is
    the number of bytes the operating system hands over this time. *)
Definition pipe_Read (r : fd) (k : nat) (σ : world) : option (bytes * world) :=
  match files σ !! r with
  | Some (PipeR w) =>
      match files σ !! w with
      | Some (PipeW buf) =>
          match k, buf with
          | O, _ | _, [] => None
          | _, _ => Some (take k buf, set_files (<[w := PipeW (drop k buf)]> (files σ)) σ)
          end
      | _ => None
      end
  | _ => None
  end.

Definition kill (i : nat) (σ : world) : world :=
  set_goroutines (alter (fun t => Task (t_dest t) (t_src t) false) i (goroutines σ)) σ.

(** One iteration of [io.Copy(dest, rOut)] in goroutine [i]: read a chunk,
    hand it to [dest.Write]; [io.Copy] stops on an error or when [Write]
    reports fewer bytes than it was given, and the goroutine then logs and
    ends. *)
Definition copy_step (i k : nat) (order : list (string * wid)) (σ : world) : world :=
  match goroutines σ !! i with
  | Some t =>
      if t_alive t then
        match pipe_Read (t_src t) k σ with
        | None => σ
        | Some (chunk, σ1) =>
            let '((n, err), σ2) := Write (t_dest t) chunk order σ1 in
            match err with
            | Some e => warn (WarnCopy e) (kill i σ2)
            | None =>
                if decide (n = len chunk) then σ2
                else warn (WarnCopy ErrShortWrite) (kill i σ2)
            end
        end
      else σ
  | None => σ
  end.

(** What can happen in the process: calls of the four exported functions,
    writes of application code to the current [os.Stdout] / [os.Stderr], and
    iterations of the copy loops.  [Write] is a method of an unexported type
    and is reached through a copy loop only. *)
Inductive op :=
  | CallAddStdoutWriter (id : string) (w : wid)
  | CallAddStderrWriter (id : string) (w : wid)
  | CallRemoveStdoutWriter (id : string)
  | CallRemoveStderrWriter (id : string)
  | PrintStdout (p : bytes)
  | PrintStderr (p : bytes)
  | CopyLoopStep (i k : nat) (order : list (string * wid)).

(** [None] when the operation panics. *)
Definition step (o : op) (σ : world) : option world :=
  match o with
  | CallAddStdoutWriter id w =>
      match AddStdoutWriter id w σ with
      | (Returned _, σ') => Some σ'
      | (Panicked, _) => None
      end
  | CallAddStderrWriter id w =>
      match AddStderrWriter id w σ with
      | (Returned _, σ') => Some σ'
      | (Panicked, _) => None
      end
  | CallRemoveStdoutWriter id => Some (RemoveStdoutWriter id σ)
  | CallRemoveStderrWriter id => Some (RemoveStderrWriter id σ)
  | PrintStdout p => Some (file_Write (os_Stdout σ) p σ).2
  | PrintStderr p => Some (file_Write (os_Stderr σ) p σ).2
  | CopyLoopStep i k order => Some (copy_step i k order σ)
  end.

Fixpoint run (os : list op) (σ : world) : option world :=
  match os with
  | [] => Some σ
  | o :: os' =>
      match step o σ with
      | Some σ' => run os' σ'
      | None => None
      end
  end.

(** A process at start-up: descriptors 0, 1, 2 open, [os.Stdout] and
    [os.Stderr] pointing at 1 and 2, both forwarders at their zero value, and
    [n] descriptors still available. *)
Definition boot (n : nat) : world :=
  World (Some 1%nat) (Some 2%nat) zero_forwarder zero_forwarder
        {[ 0%nat := Regular [] None; 1%nat := Regular [] None; 2%nat := Regular [] None ]}
        n ∅ [] [] [].

(** A world in which consumer [w] is broken. *)
Definition break_sink (w : wid) (σ : world) : world :=
  set_sinks (<[w := Sink true (sink_calls (get_sink σ w)) (sink_data (get_sink σ w))]> (sinks σ)) σ.

Definition content_of (d : fd) (σ : world) : bytes :=
  match files σ !! d with
  | Some (Regular c _) => c
  | _ => []
  end.

Definition hello : bytes := [Byte.x68; Byte.x69; Byte.x0a].

(** Number of entries of an iteration order that carry consumer [h]. *)
Definition mult (h : wid) (l : list (string * wid)) : nat :=
  length (filter (λ kw, kw.2 = h) l).

(** [h] is registered on [s] under [id] and under no other id. *)
Definition registered_once (s : stream) (σ : world) (id : string) (h : wid) : Prop :=
  ∃ m, writers (fwd s σ) = Some m ∧ m !! id = Some h ∧ ∀ id', m !! id' = Some h → id' = id.

(** [h] is not registered on [s] under any id other than [id]. *)
Definition unused_elsewhere (s : stream) (σ : world) (id : string) (h : wid) : Prop :=
  ∀ m id', writers (fwd s σ) = Some m → m !! id' = Some h → id' = id.

(** [h] is not registered on [s] at all. *)
Definition unregistered (s : stream) (σ : world) (h : wid) : Prop :=
  ∀ m id, writers (fwd s σ) = Some m → m !! id ≠ Some h.

(** Successive calls of [Write] on one forwarder, as its copy loop makes them. *)
Definition Writes (s : stream) (ps : list (bytes * list (string * wid))) (σ : world) : world :=
  foldl (λ σ po, (Write s po.1 po.2 σ).2) σ ps.

(** ** The fan-out loop *)

Section fanout.
Variable p : bytes.

Lemma forward_one_frame σ kw :
  let σ' := forward_one p σ kw in
  os_Stdout σ' = os_Stdout σ ∧ os_Stderr σ' = os_Stderr σ ∧
  stdoutForwarder σ' = stdoutForwarder σ ∧ stderrForwarder σ' = stderrForwarder σ ∧
  files σ' = files σ ∧ fd_left σ' = fd_left σ ∧
  goroutines σ' = goroutines σ ∧ trace σ' = trace σ.
Proof.
  unfold forward_one, sink_Write. destruct (sink_fails _); simpl; tauto.
Qed.

Lemma forward_one_sink_same σ kw :
  get_sink (forward_one p σ kw) kw.2 =
    let s := get_sink σ kw.2 in
    if sink_fails s then Sink true (sink_calls s ++ [p]) (sink_data s)
    else Sink false (sink_calls s ++ [p]) (sink_data s ++ p).
Proof.
  unfold forward_one, sink_Write.
  destruct (sink_fails (get_sink σ kw.2)) eqn:E; simpl;
    unfold get_sink; simpl; by rewrite lookup_insert_eq.
Qed.

Lemma forward_one_sink_other σ kw h :
  kw.2 ≠ h → get_sink (forward_one p σ kw) h = get_sink σ h.
Proof.
  intros Hne. unfold forward_one, sink_Write.
  destruct (sink_fails (get_sink σ kw.2)); simpl;
    unfold get_sink; simpl; by rewrite lookup_insert_ne.
Qed.

Lemma forward_one_fails σ kw h :
  sink_fails (get_sink (forward_one p σ kw) h) = sink_fails (get_sink σ h).
Proof.
  destruct (decide (kw.2 = h)) as [<-|Hne].
  - rewrite forward_one_sink_same. simpl. by destruct (sink_fails (get_sink σ kw.2)).
  - by rewrite forward_one_sink_other.
Qed.

Lemma fanout_frame l : ∀ σ,
  let σ' := foldl (forward_one p) σ l in
  os_Stdout σ' = os_Stdout σ ∧ os_Stderr σ' = os_Stderr σ ∧
  stdoutForwarder σ' = stdoutForwarder σ ∧ stderrForwarder σ' = stderrForwarder σ ∧
  files σ' = files σ ∧ fd_left σ' = fd_left σ ∧
  goroutines σ' = goroutines σ ∧ trace σ' = trace σ.
Proof.
  induction l as [|kw l IH]; intros σ; simpl; [tauto|].
  specialize (IH (forward_one p σ kw)). simpl in IH.
  pose proof (forward_one_frame σ kw) as F. simpl in F.
  destruct IH as (->&->&->&->&->&->&->&->). tauto.
Qed.

Lemma fanout_fails l : ∀ σ h,
  sink_fails (get_sink (foldl (forward_one p) σ l) h) = sink_fails (get_sink σ h).
Proof.
  induction l as [|kw l IH]; intros σ h; simpl; [done|].
  by rewrite IH, forward_one_fails.
Qed.

Lemma fanout_calls l : ∀ σ h,
  sink_calls (get_sink (foldl (forward_one p) σ l) h) =
    sink_calls (get_sink σ h) ++ replicate (mult h l) p.
Proof.
  induction l as [|kw l IH]; intros σ h; simpl.
  - by rewrite app_nil_r.
  - rewrite IH. unfold mult. destruct (decide (kw.2 = h)) as [<-|Hne].
    + rewrite filter_cons_True by done. rewrite forward_one_sink_same. simpl.
      destruct (sink_fails (get_sink σ kw.2)); simpl; by rewrite <- app_assoc.
    + rewrite filter_cons_False by done. by rewrite forward_one_sink_other.
Qed.

Lemma fanout_data l : ∀ σ h,
  sink_fails (get_sink σ h) = false →
  sink_data (get_sink (foldl (forward_one p) σ l) h) =
    sink_data (get_sink σ h) ++ concat (replicate (mult h l) p).
Proof.
  induction l as [|kw l IH]; intros σ h Hok; simpl.
  - by rewrite app_nil_r.
  - rewrite IH by (by rewrite forward_one_fails).
    unfold mult. destruct (decide (kw.2 = h)) as [<-|Hne].
    + rewrite filter_cons_True by done. rewrite forward_one_sink_same. simpl.
      rewrite Hok. simpl. by rewrite <- app_assoc.
    + rewrite filter_cons_False by done. by rewrite forward_one_sink_other.
Qed.

Lemma fanout_untouched l : ∀ σ h,
  mult h l = 0%nat → get_sink (foldl (forward_one p) σ l) h = get_sink σ h.
Proof.
  induction l as [|kw l IH]; intros σ h Hm; simpl; [done|].
  unfold mult in *. destruct (decide (kw.2 = h)) as [<-|Hne].
  - rewrite filter_cons_True in Hm by done. simpl in Hm. lia.
  - rewrite filter_cons_False in Hm by done.
    rewrite IH by done. by apply forward_one_sink_other.
Qed.

Lemma fanout_warnings l : ∀ σ,
  ∃ ws, warnings (foldl (forward_one p) σ l) = warnings σ ++ ws ∧
        Forall (λ w, w = WarnForward ErrSink) ws.
Proof.
  induction l as [|kw l IH]; intros σ; simpl.
  - exists []. by rewrite app_nil_r.
  - destruct (IH (forward_one p σ kw)) as (ws & -> & Hws).
    unfold forward_one, sink_Write. destruct (sink_fails _); simpl.
    + exists (WarnForward ErrSink :: ws). split; [by rewrite <- app_assoc|].
      by constructor.
    + by exists ws.
Qed.

Lemma fanout_failure_logged l : ∀ σ kw,
  kw ∈ l → sink_fails (get_sink σ kw.2) = true →
  WarnForward ErrSink ∈ warnings (foldl (forward_one p) σ l).
Proof.
  induction l as [|kw' l IH]; intros σ kw Hin Hbad; [by apply elem_of_nil in Hin|].
  simpl. apply elem_of_cons in Hin as [<-|Hin].
  - destruct (fanout_warnings l (forward_one p σ kw)) as (ws & -> & _).
    apply elem_of_app. left. unfold forward_one, sink_Write. rewrite Hbad. simpl.
    apply elem_of_app. right. by apply list_elem_of_singleton.
  - apply (IH _ kw); [done|]. by rewrite forward_one_fails.
Qed.
End fanout.

Lemma mult_perm h l1 l2 : l1 ≡ₚ l2 → mult h l1 = mult h l2.
Proof. intros H. unfold mult. by rewrite H. Qed.

Lemma mult_zero h l : (∀ kw, kw ∈ l → kw.2 ≠ h) → mult h l = 0%nat.
Proof.
  induction l as [|kw l IH]; intros H; [done|].
  unfold mult in *. rewrite filter_cons_False.
  - apply IH. intros kw' ?. apply H. by right.
  - apply H. by left.
Qed.

Lemma range_writers_perm f order :
  range_writers f order ≡ₚ map_to_list (default ∅ (writers f)).
Proof. unfold range_writers. by case_decide. Qed.

Lemma mult_range_unregistered f order h :
  (∀ m id, writers f = Some m → m !! id ≠ Some h) → mult h (range_writers f order) = 0%nat.
Proof.
  intros H. rewrite (mult_perm _ _ _ (range_writers_perm f order)).
  apply mult_zero. intros [k w] Hin ?. simpl in *. subst.
  apply elem_of_map_to_list in Hin. destruct (writers f) as [m|]; simpl in Hin.
  - by eapply H.
  - by rewrite lookup_empty in Hin.
Qed.

Lemma mult_range_once f order m id h :
  writers f = Some m → m !! id = Some h → (∀ id', m !! id' = Some h → id' = id) →
  mult h (range_writers f order) = 1%nat.
Proof.
  intros Hw Hid Huniq. rewrite (mult_perm _ _ _ (range_writers_perm f order)).
  rewrite Hw. simpl. rewrite <- (mult_perm _ _ _ (map_to_list_delete m id h Hid)).
  unfold mult. rewrite filter_cons_True by done. simpl. f_equal.
  apply (mult_zero h). intros [k w] Hin ?. simpl in *. subst.
  apply elem_of_map_to_list in Hin.
  destruct (decide (k = id)) as [->|Hne].
  - by rewrite lookup_delete_eq in Hin.
  - rewrite lookup_delete_ne in Hin by done. by apply Hne, Huniq.
Qed.

(** ** [Write] *)

Lemma file_Write_frame f p σ :
  let σ' := (file_Write f p σ).2 in
  os_Stdout σ' = os_Stdout σ ∧ os_Stderr σ' = os_Stderr σ ∧
  stdoutForwarder σ' = stdoutForwarder σ ∧ stderrForwarder σ' = stderrForwarder σ ∧
  fd_left σ' = fd_left σ ∧ sinks σ' = sinks σ ∧
  goroutines σ' = goroutines σ ∧ warnings σ' = warnings σ ∧ trace σ' = trace σ.
Proof.
  unfold file_Write. destruct f as [d|]; simpl; [|tauto].
  destruct (files σ !! d) as [[c [k|]| |]|]; simpl; try tauto.
  case_decide; simpl; tauto.
Qed.

(** The world in which the fan-out loop of [Write] starts. *)
Definition after_regular (s : stream) (p : bytes) (σ : world) : world :=
  let r := file_Write (out (fwd s σ)) p σ in
  match r.1.2 with
  | Some e => warn (WarnRegular e) r.2
  | None => r.2
  end.

Lemma Write_unfold s p order σ :
  Write s p order σ =
    (((file_Write (out (fwd s σ)) p σ).1.1, None),
     foldl (forward_one p) (after_regular s p σ) (range_writers (fwd s σ) order)).
Proof.
  unfold Write, after_regular.
  by destruct (file_Write (out (fwd s σ)) p σ) as [[n [e|]] σ1].
Qed.

Lemma after_regular_frame s p σ :
  let σ' := after_regular s p σ in
  os_Stdout σ' = os_Stdout σ ∧ os_Stderr σ' = os_Stderr σ ∧
  stdoutForwarder σ' = stdoutForwarder σ ∧ stderrForwarder σ' = stderrForwarder σ ∧
  fd_left σ' = fd_left σ ∧ sinks σ' = sinks σ ∧
  goroutines σ' = goroutines σ ∧ trace σ' = trace σ ∧
  files σ' = files (file_Write (out (fwd s σ)) p σ).2.
Proof.
  unfold after_regular.
  pose proof (file_Write_frame (out (fwd s σ)) p σ) as F. simpl in F.
  destruct (file_Write (out (fwd s σ)) p σ) as [[n [e|]] σ1]; simpl in *; tauto.
Qed.

Lemma after_regular_sink s p σ h : get_sink (after_regular s p σ) h = get_sink σ h.
Proof.
  pose proof (after_regular_frame s p σ) as F. simpl in F.
  unfold get_sink. by replace (sinks (after_regular s p σ)) with (sinks σ) by (symmetry; tauto).
Qed.

Lemma Write_frame s p order σ :
  let σ' := (Write s p order σ).2 in
  os_Stdout σ' = os_Stdout σ ∧ os_Stderr σ' = os_Stderr σ ∧
  stdoutForwarder σ' = stdoutForwarder σ ∧ stderrForwarder σ' = stderrForwarder σ ∧
  fd_left σ' = fd_left σ ∧ goroutines σ' = goroutines σ ∧ trace σ' = trace σ ∧
  files σ' = files (file_Write (out (fwd s σ)) p σ).2.
Proof.
  rewrite Write_unfold. simpl.
  pose proof (fanout_frame p (range_writers (fwd s σ) order) (after_regular s p σ)) as F.
  pose proof (after_regular_frame s p σ) as G. simpl in *.
  destruct F as (->&->&->&->&->&->&->&->). tauto.
Qed.

Lemma Write_fwd s p order σ s' : fwd s' (Write s p order σ).2 = fwd s' σ.
Proof.
  pose proof (Write_frame s p order σ) as F. simpl in F.
  destruct s'; simpl; tauto.
Qed.

Lemma Write_fails s p order σ h :
  sink_fails (get_sink (Write s p order σ).2 h) = sink_fails (get_sink σ h).
Proof. rewrite Write_unfold. simpl. by rewrite fanout_fails, after_regular_sink. Qed.

Lemma Write_calls s p order σ h :
  sink_calls (get_sink (Write s p order σ).2 h) =
    sink_calls (get_sink σ h) ++ replicate (mult h (range_writers (fwd s σ) order)) p.
Proof. rewrite Write_unfold. simpl. by rewrite fanout_calls, after_regular_sink. Qed.

Lemma Write_data s p order σ h :
  sink_fails (get_sink σ h) = false →
  sink_data (get_sink (Write s p order σ).2 h) =
    sink_data (get_sink σ h) ++ concat (replicate (mult h (range_writers (fwd s σ) order)) p).
Proof.
  intros Hok. rewrite Write_unfold. simpl.
  rewrite fanout_data by (by rewrite after_regular_sink).
  by rewrite after_regular_sink.
Qed.

Lemma Write_registered_once s p order σ id h :
  registered_once s σ id h →
  sink_calls (get_sink (Write s p order σ).2 h) = sink_calls (get_sink σ h) ++ [p] ∧
  (sink_fails (get_sink σ h) = false →
   sink_data (get_sink (Write s p order σ).2 h) = sink_data (get_sink σ h) ++ p).
Proof.
  intros (m & Hw & Hid & Hu). split.
  - rewrite Write_calls. by rewrite (mult_range_once _ _ m id h).
  - intros Hok. rewrite Write_data by done.
    rewrite (mult_range_once _ _ m id h) by done. simpl. by rewrite app_nil_r.
Qed.

Lemma Write_unregistered s p order σ h :
  unregistered s σ h → get_sink (Write s p order σ).2 h = get_sink σ h.
Proof.
  intros Hun. rewrite Write_unfold. simpl.
  rewrite fanout_untouched; [apply after_regular_sink|].
  by apply mult_range_unregistered.
Qed.

Lemma Writes_fwd s ps : ∀ σ s', fwd s' (Writes s ps σ) = fwd s' σ.
Proof.
  unfold Writes. induction ps as [|[p o] ps IH]; intros σ s'; simpl; [done|].
  by rewrite IH, Write_fwd.
Qed.

Lemma Writes_registered_once s id h ps : ∀ σ,
  registered_once s σ id h →
  sink_calls (get_sink (Writes s ps σ) h) = sink_calls (get_sink σ h) ++ ps.*1 ∧
  (sink_fails (get_sink σ h) = false →
   sink_data (get_sink (Writes s ps σ) h) = sink_data (get_sink σ h) ++ concat ps.*1).
Proof.
  unfold Writes. induction ps as [|[p o] ps IH]; intros σ Hreg; simpl.
  - by rewrite !app_nil_r.
  - destruct (Write_registered_once s p o σ id h Hreg) as [Hc Hd].
    assert (registered_once s (Write s p o σ).2 id h) as Hreg'.
    { unfold registered_once. by rewrite Write_fwd. }
    destruct (IH _ Hreg') as [IHc IHd]. split.
    + rewrite IHc, Hc. by rewrite <- app_assoc.
    + intros Hok. rewrite IHd by (by rewrite Write_fails).
      rewrite Hd by done. by rewrite <- app_assoc.
Qed.

Lemma Writes_unregistered s h ps : ∀ σ,
  unregistered s σ h → get_sink (Writes s ps σ) h = get_sink σ h.
Proof.
  unfold Writes. induction ps as [|[p o] ps IH]; intros σ Hun; simpl; [done|].
  rewrite IH.
  - by apply Write_unregistered.
  - unfold unregistered. by rewrite Write_fwd.
Qed.

(** ** Registration *)

Lemma fwd_set_fwd_eq s f σ : fwd s (set_fwd s f σ) = f.
Proof. by destruct s. Qed.

Lemma fwd_set_fwd_ne s s' f σ : s ≠ s' → fwd s' (set_fwd s f σ) = fwd s' σ.
Proof. by destruct s, s'. Qed.

Lemma get_sink_set_fwd s f σ h : get_sink (set_fwd s f σ) h = get_sink σ h.
Proof. by destruct s. Qed.

Lemma removeWriter_sink s id σ h : get_sink (removeWriter s id σ) h = get_sink σ h.
Proof. apply get_sink_set_fwd. Qed.

Lemma removeWriter_unregisters s id h σ :
  registered_once s σ id h → unregistered s (removeWriter s id σ) h.
Proof.
  intros (m & Hw & Hid & Hu) m' id' Hw' Hid'.
  unfold removeWriter in Hw'. rewrite fwd_set_fwd_eq in Hw'. simpl in Hw'.
  rewrite Hw in Hw'. simpl in Hw'. injection Hw' as <-.
  destruct (decide (id' = id)) as [->|Hne].
  - by rewrite lookup_delete_eq in Hid'.
  - rewrite lookup_delete_ne in Hid' by done. by apply Hne, Hu.
Qed.

Lemma removeWriter_keeps s id id2 h2 σ :
  id2 ≠ id → registered_once s σ id2 h2 → registered_once s (removeWriter s id σ) id2 h2.
Proof.
  intros Hne (m & Hw & Hid & Hu). exists (delete id m).
  unfold removeWriter. rewrite fwd_set_fwd_eq. simpl. rewrite Hw. simpl.
  split; [done|]. split.
  - by rewrite lookup_delete_ne.
  - intros id' Hid'. apply Hu.
    destruct (decide (id' = id)) as [->|Hne'].
    + by rewrite lookup_delete_eq in Hid'.
    + by rewrite lookup_delete_ne in Hid'.
Qed.

Lemma set_fwd_set_fwd s f f' σ : set_fwd s f (set_fwd s f' σ) = set_fwd s f σ.
Proof. by destruct s. Qed.

Lemma set_fwd_id s σ f : f = fwd s σ → set_fwd s f σ = σ.
Proof. intros ->. by destruct s, σ. Qed.

Lemma once_Do_done dest std σ :
  once (fwd dest σ) = true → once_Do dest std σ = (None, σ).
Proof. intros H. unfold once_Do. by rewrite H. Qed.

Lemma once_Do_first_ok dest std σ :
  once (fwd dest σ) = false → (2 ≤ fd_left σ)%nat →
  let r := fresh (dom (files σ)) in
  let w := fresh ({[r]} ∪ dom (files σ)) in
  let σ' := (once_Do dest std σ).2 in
  (once_Do dest std σ).1 = None ∧
  fwd dest σ' = Forwarder std (Some ∅) true ∧
  fwd (other dest) σ' = fwd (other dest) σ ∧
  os_Stdout σ' = Some w ∧ os_Stderr σ' = os_Stderr σ ∧
  files σ' = <[w := PipeW []]> (<[r := PipeR w]> (files σ)) ∧
  fd_left σ' = (fd_left σ - 2)%nat ∧ sinks σ' = sinks σ ∧
  goroutines σ' = goroutines σ ++ [Task dest r true] ∧
  warnings σ' = warnings σ ∧
  trace σ' = trace σ ++ [PipeAllocated dest r w; CopyLoopStarted dest r; StdoutAssigned dest w].
Proof.
  intros Hon Hfd. unfold once_Do, once_body, os_Pipe. rewrite Hon.
  destruct dest; simpl; (case_decide; [|lia]); simpl;
    rewrite <- !app_assoc; simpl; tauto.
Qed.

Lemma once_Do_first_fail dest std σ :
  once (fwd dest σ) = false → (fd_left σ < 2)%nat →
  let σ' := (once_Do dest std σ).2 in
  (once_Do dest std σ).1 = Some (Errorf_redirect EMFILE) ∧
  fwd dest σ' = Forwarder std (Some ∅) true ∧
  fwd (other dest) σ' = fwd (other dest) σ ∧
  os_Stdout σ' = os_Stdout σ ∧ os_Stderr σ' = os_Stderr σ ∧
  files σ' = files σ ∧ fd_left σ' = fd_left σ ∧ sinks σ' = sinks σ ∧
  goroutines σ' = goroutines σ ∧ warnings σ' = warnings σ ∧
  trace σ' = trace σ ++ [PipeFailed dest].
Proof.
  intros Hon Hfd. unfold once_Do, once_body, os_Pipe. rewrite Hon.
  destruct dest; simpl; (case_decide; [lia|]); simpl; tauto.
Qed.

Lemma once_Do_once dest std σ : once (fwd dest (once_Do dest std σ).2) = true.
Proof.
  destruct (once (fwd dest σ)) eqn:Hon.
  - by rewrite once_Do_done.
  - destruct (decide (2 ≤ fd_left σ)%nat) as [Hfd|Hfd].
    + pose proof (once_Do_first_ok dest std σ Hon Hfd) as F. simpl in F.
      destruct F as (_ & -> & _). done.
    + pose proof (once_Do_first_fail dest std σ Hon ltac:(lia)) as F. simpl in F.
      destruct F as (_ & -> & _). done.
Qed.

Lemma once_Do_sinks dest std σ : sinks (once_Do dest std σ).2 = sinks σ.
Proof.
  destruct (once (fwd dest σ)) eqn:Hon.
  - by rewrite once_Do_done.
  - destruct (decide (2 ≤ fd_left σ)%nat) as [Hfd|Hfd].
    + pose proof (once_Do_first_ok dest std σ Hon Hfd) as F. simpl in F. tauto.
    + pose proof (once_Do_first_fail dest std σ Hon ltac:(lia)) as F. simpl in F. tauto.
Qed.

Lemma once_Do_other dest std σ :
  fwd (other dest) (once_Do dest std σ).2 = fwd (other dest) σ.
Proof.
  destruct (once (fwd dest σ)) eqn:Hon.
  - by rewrite once_Do_done.
  - destruct (decide (2 ≤ fd_left σ)%nat) as [Hfd|Hfd].
    + pose proof (once_Do_first_ok dest std σ Hon Hfd) as F. simpl in F. tauto.
    + pose proof (once_Do_first_fail dest std σ Hon ltac:(lia)) as F. simpl in F. tauto.
Qed.

Lemma once_Do_os_Stderr dest std σ : os_Stderr (once_Do dest std σ).2 = os_Stderr σ.
Proof.
  destruct (once (fwd dest σ)) eqn:Hon.
  - by rewrite once_Do_done.
  - destruct (decide (2 ≤ fd_left σ)%nat) as [Hfd|Hfd].
    + pose proof (once_Do_first_ok dest std σ Hon Hfd) as F. simpl in F. tauto.
    + pose proof (once_Do_first_fail dest std σ Hon ltac:(lia)) as F. simpl in F. tauto.
Qed.

Lemma addWriter_unfold dest std id w σ :
  addWriter dest std id w σ =
    let r := once_Do dest std σ in
    match r.1 with
    | Some e => (Returned (Some e), r.2)
    | None =>
        match writers (fwd dest r.2) with
        | None => (Panicked, r.2)
        | Some m =>
            (Returned None,
             set_fwd dest (Forwarder (out (fwd dest r.2)) (Some (<[id := w]> m)) true) r.2)
        end
    end.
Proof.
  unfold addWriter. pose proof (once_Do_once dest std σ) as Hon.
  destruct (once_Do dest std σ) as [[e|] σ1]; simpl in *; [done|].
  destruct (writers (fwd dest σ1)); [|done]. by rewrite Hon.
Qed.

Lemma addWriter_done dest std id w σ m :
  once (fwd dest σ) = true → writers (fwd dest σ) = Some m →
  addWriter dest std id w σ =
    (Returned None, set_fwd dest (Forwarder (out (fwd dest σ)) (Some (<[id := w]> m)) true) σ).
Proof.
  intros Hon Hw. rewrite addWriter_unfold, once_Do_done by done. simpl. by rewrite Hw.
Qed.

Lemma addWriter_sink dest std id w σ h :
  get_sink (addWriter dest std id w σ).2 h = get_sink σ h.
Proof.
  rewrite addWriter_unfold. simpl.
  pose proof (once_Do_sinks dest std σ) as Hs.
  destruct (once_Do dest std σ) as [[e|] σ1]; simpl in *.
  - unfold get_sink. by rewrite Hs.
  - destruct (writers (fwd dest σ1)); simpl.
    + rewrite get_sink_set_fwd. unfold get_sink. by rewrite Hs.
    + unfold get_sink. by rewrite Hs.
Qed.

(** What a successful registration leaves in the registry: the writer under
    [id], on top of the map the forwarder had, or of a freshly made one when
    this call was the one that fired the gate. *)
Lemma addWriter_registry dest std id w σ σ1 :
  addWriter dest std id w σ = (Returned None, σ1) →
  ∃ m0, writers (fwd dest σ1) = Some (<[id := w]> m0) ∧
        (writers (fwd dest σ) = Some m0 ∧ once (fwd dest σ) = true ∨
         m0 = ∅ ∧ once (fwd dest σ) = false).
Proof.
  rewrite addWriter_unfold. simpl. intros H.
  destruct (once (fwd dest σ)) eqn:Hon.
  - rewrite once_Do_done in H by done. simpl in H.
    destruct (writers (fwd dest σ)) as [m|]; [|done].
    injection H as <-. exists m. rewrite fwd_set_fwd_eq. simpl. split; [done|]. by left.
  - destruct (decide (2 ≤ fd_left σ)%nat) as [Hfd|Hfd].
    + pose proof (once_Do_first_ok dest std σ Hon Hfd) as F. simpl in F.
      destruct F as (F1 & F2 & _). rewrite F1, F2 in H. simpl in H.
      injection H as <-. exists ∅. rewrite fwd_set_fwd_eq. simpl. split; [done|]. by right.
    + pose proof (once_Do_first_fail dest std σ Hon ltac:(lia)) as F. simpl in F.
      destruct F as (F1 & _). by rewrite F1 in H.
Qed.

Lemma addWriter_registers dest std id h σ σ1 :
  addWriter dest std id h σ = (Returned None, σ1) →
  unused_elsewhere dest σ id h → registered_once dest σ1 id h.
Proof.
  intros Hadd Hun. destruct (addWriter_registry _ _ _ _ _ _ Hadd) as (m0 & Hw & Hm0).
  exists (<[id := h]> m0). split; [done|]. split; [apply lookup_insert_eq|].
  intros id' Hid'. destruct (decide (id' = id)) as [|Hne]; [done|].
  rewrite lookup_insert_ne in Hid' by done.
  destruct Hm0 as [[Hm0 _]|[-> _]].
  - by apply (Hun m0).
  - by rewrite lookup_empty in Hid'.
Qed.

(** ** Delivery *)

Lemma file_Write_set_sinks f p sk σ :
  (file_Write f p (set_sinks sk σ)).1 = (file_Write f p σ).1.
Proof.
  unfold file_Write. destruct f as [d|]; simpl; [|done].
  destruct (files σ !! d) as [[c [k|]| |]|]; simpl; try done.
  by case_decide.
Qed.

Lemma after_regular_warnings s p σ :
  warnings (after_regular s p σ) =
    warnings σ ++ match (file_Write (out (fwd s σ)) p σ).1.2 with
                  | Some e => [WarnRegular e]
                  | None => []
                  end.
Proof.
  unfold after_regular.
  pose proof (file_Write_frame (out (fwd s σ)) p σ) as F. simpl in F.
  destruct (file_Write (out (fwd s σ)) p σ) as [[n [e|]] σ1]; simpl in *.
  - f_equal. tauto.
  - rewrite app_nil_r. tauto.
Qed.

(** C3. [Write] hands the bytes to the regular output first and, whether or
    not that succeeds, calls every registered consumer with the same bytes.
    It returns the count reported by the regular output and a nil error, and
    that result does not depend on the consumers in any way. *)
Theorem Write_returns_regular_count (s : stream) (p : bytes)
    (order : list (string * wid)) (σ : world) :
  let r := file_Write (out (fwd s σ)) p σ in
  let res := Write s p order σ in
  res.1 = (r.1.1, None) ∧
  files res.2 = files r.2 ∧
  (∃ ws, warnings res.2 =
           warnings σ ++ match r.1.2 with Some e => [WarnRegular e] | None => [] end ++ ws ∧
         Forall (λ w, w = WarnForward ErrSink) ws) ∧
  (∀ id h, registered_once s σ id h →
     sink_calls (get_sink res.2 h) = sink_calls (get_sink σ h) ++ [p] ∧
     (sink_fails (get_sink σ h) = false →
      sink_data (get_sink res.2 h) = sink_data (get_sink σ h) ++ p)) ∧
  (∀ sk, (Write s p order (set_sinks sk σ)).1 = res.1).
Proof.
  simpl. split; [by rewrite Write_unfold|]. split.
  { pose proof (Write_frame s p order σ) as F. simpl in F. tauto. }
  split.
  { rewrite Write_unfold. simpl.
    destruct (fanout_warnings p (range_writers (fwd s σ) order) (after_regular s p σ))
      as (ws & -> & Hws).
    exists ws. split; [|done]. by rewrite after_regular_warnings, <- app_assoc. }
  split.
  { intros id h Hreg. exact (Write_registered_once s p order σ id h Hreg). }
  intros sk. rewrite !Write_unfold. simpl.
  replace (fwd s (set_sinks sk σ)) with (fwd s σ) by (by destruct s).
  by rewrite file_Write_set_sinks.
Qed.

(** A process whose regular standard output accepts one more byte only. *)
Definition cramped : world :=
  set_files (<[1%nat := Regular [] (Some 1%nat)]> (files (boot 100))) (boot 100).

Lemma Write_returns_regular_count_witness :
  let σ := (addWriter Stdout (Some 1%nat) "client-1" 7%nat cramped).2 in
  registered_once Stdout σ "client-1" 7%nat ∧
  (Write Stdout hello [] σ).1 = (1, None) ∧
  sink_calls (get_sink (Write Stdout hello [] σ).2 7%nat) = [hello].
Proof.
  assert (registered_once Stdout (addWriter Stdout (Some 1%nat) "client-1" 7%nat cramped).2
            "client-1" 7%nat) as H1.
  { apply (addWriter_registers Stdout (Some 1%nat) "client-1" 7%nat cramped).
    - vm_compute; reflexivity.
    - intros m id' Hw; discriminate Hw. }
  split; [exact H1|].
  destruct (Write_returns_regular_count Stdout hello []
              (addWriter Stdout (Some 1%nat) "client-1" 7%nat cramped).2) as (Hr & _ & _ & Hc & _).
  split; [exact Hr|]. exact (proj1 (Hc "client-1" 7%nat H1)).
Defined.

(** C4. A registered consumer whose write fails is logged and nothing more:
    both forwarders, and so the registry with the failing consumer in it, are
    after [Write] what they were before; every other registered consumer is
    called with the bytes; and the regular output has received them. *)
Theorem failing_consumer_is_isolated (s : stream) (p : bytes)
    (order : list (string * wid)) (σ : world) (idbad : string) (bad : wid) :
  (∃ m, writers (fwd s σ) = Some m ∧ m !! idbad = Some bad) →
  sink_fails (get_sink σ bad) = true →
  let σ' := (Write s p order σ).2 in
  WarnForward ErrSink ∈ warnings σ' ∧
  stdoutForwarder σ' = stdoutForwarder σ ∧ stderrForwarder σ' = stderrForwarder σ ∧
  (∀ id h, registered_once s σ id h →
     sink_calls (get_sink σ' h) = sink_calls (get_sink σ h) ++ [p] ∧
     (sink_fails (get_sink σ h) = false →
      sink_data (get_sink σ' h) = sink_data (get_sink σ h) ++ p)) ∧
  files σ' = files (file_Write (out (fwd s σ)) p σ).2 ∧
  (∀ d c, out (fwd s σ) = Some d → files σ !! d = Some (Regular c None) →
     files σ' !! d = Some (Regular (c ++ p) None)).
Proof.
  intros (m & Hw & Hbad) Hfails. simpl.
  pose proof (Write_frame s p order σ) as F. simpl in F.
  destruct F as (_ & _ & Fo & Fe & _ & _ & _ & Ff).
  split.
  { rewrite Write_unfold. simpl.
    apply (fanout_failure_logged p _ _ (idbad, bad)).
    - rewrite (range_writers_perm (fwd s σ) order), Hw. simpl.
      by apply elem_of_map_to_list.
    - simpl. by rewrite after_regular_sink. }
  split; [done|]. split; [done|]. split.
  { intros id h Hreg. exact (Write_registered_once s p order σ id h Hreg). }
  split; [done|].
  intros d c Hout Hd. rewrite Ff, Hout. unfold file_Write. rewrite Hd. simpl.
  apply lookup_insert_eq.
Qed.

Lemma failing_consumer_is_isolated_witness :
  let σ := break_sink 8%nat
             (addWriter Stdout (Some 1%nat) "good" 7%nat (addWriter Stdout (Some 1%nat) "bad" 8%nat (boot 100)).2).2 in
  (∃ m, writers (fwd Stdout σ) = Some m ∧ m !! "bad" = Some 8%nat) ∧
  sink_fails (get_sink σ 8%nat) = true ∧
  files (Write Stdout hello [] σ).2 !! 1%nat = Some (Regular hello None).
Proof.
  set (σ := break_sink 8%nat
              (addWriter Stdout (Some 1%nat) "good" 7%nat (addWriter Stdout (Some 1%nat) "bad" 8%nat (boot 100)).2).2).
  assert (∃ m, writers (fwd Stdout σ) = Some m ∧ m !! "bad" = Some 8%nat) as H1.
  { exists (<["good" := 7%nat]> (<["bad" := 8%nat]> ∅)). split; [vm_compute; reflexivity|].
    rewrite lookup_insert_ne by done. apply lookup_insert_eq. }
  assert (sink_fails (get_sink σ 8%nat) = true) as H2 by (vm_compute; reflexivity).
  simpl. split; [exact H1|]. split; [exact H2|].
  destruct (failing_consumer_is_isolated Stdout hello [] σ "bad" 8%nat H1 H2)
    as (_ & _ & _ & _ & _ & Hreal).
  apply (Hreal 1%nat []); vm_compute; reflexivity.
Defined.

(** ** The one-time gate *)

Fixpoint count_ev (P : event → bool) (tr : list event) : nat :=
  match tr with
  | [] => 0
  | e :: tr' => ((if P e then 1 else 0) + count_ev P tr')%nat
  end.

Definition is_pipe (s : stream) (e : event) : bool :=
  match e with PipeAllocated d _ _ => bool_decide (d = s) | _ => false end.

Definition is_attempt (s : stream) (e : event) : bool :=
  match e with
  | PipeAllocated d _ _ | PipeFailed d => bool_decide (d = s)
  | _ => false
  end.

Definition is_swap (s : stream) (e : event) : bool :=
  match e with StdoutAssigned d _ => bool_decide (d = s) | _ => false end.

Definition is_loop (s : stream) (e : event) : bool :=
  match e with CopyLoopStarted d _ => bool_decide (d = s) | _ => false end.

(** Number of copy-loop goroutines ever started for forwarder [s]. *)
Fixpoint count_tasks (s : stream) (ts : list task) : nat :=
  match ts with
  | [] => 0
  | t :: ts' => ((if bool_decide (t_dest t = s) then 1 else 0) + count_tasks s ts')%nat
  end.

(** A process in which the package has not been used yet. *)
Definition pristine (σ : world) : Prop :=
  stdoutForwarder σ = zero_forwarder ∧ stderrForwarder σ = zero_forwarder ∧
  goroutines σ = [] ∧ trace σ = [].

Definition fired (s : stream) (σ : world) : nat := if once (fwd s σ) then 1%nat else 0%nat.

(** What holds of every state the process can reach. *)
Definition gate_inv (σ : world) : Prop :=
  ∀ s, (count_ev (is_attempt s) (trace σ) ≤ fired s σ)%nat ∧
       (count_ev (is_pipe s) (trace σ) ≤ fired s σ)%nat ∧
       (count_ev (is_swap s) (trace σ) ≤ fired s σ)%nat ∧
       (count_ev (is_loop s) (trace σ) ≤ fired s σ)%nat ∧
       (count_tasks s (goroutines σ) ≤ fired s σ)%nat ∧
       (once (fwd s σ) = true → is_Some (writers (fwd s σ))).

Lemma count_ev_app P l1 l2 : count_ev P (l1 ++ l2) = (count_ev P l1 + count_ev P l2)%nat.
Proof. induction l1 as [|e l1 IH]; simpl; [done|]. rewrite IH. lia. Qed.

Lemma count_tasks_app s l1 l2 :
  count_tasks s (l1 ++ l2) = (count_tasks s l1 + count_tasks s l2)%nat.
Proof. induction l1 as [|e l1 IH]; simpl; [done|]. rewrite IH. lia. Qed.

Lemma count_tasks_kill s l : ∀ i,
  count_tasks s (alter (λ t, Task (t_dest t) (t_src t) false) i l) = count_tasks s l.
Proof.
  induction l as [|t l IH]; intros [|i]; simpl; try done. f_equal. apply IH.
Qed.

Lemma pristine_gate_inv σ : pristine σ → gate_inv σ.
Proof.
  intros (Ho & He & Hg & Ht) s. unfold fired. rewrite Hg, Ht.
  destruct s; simpl; [rewrite Ho|rewrite He]; simpl; repeat split; (lia || done).
Qed.

Lemma gate_inv_transfer σ σ' :
  trace σ' = trace σ →
  (∀ s, count_tasks s (goroutines σ') = count_tasks s (goroutines σ)) →
  (∀ s, once (fwd s σ') = once (fwd s σ)) →
  (∀ s, is_Some (writers (fwd s σ)) → is_Some (writers (fwd s σ'))) →
  gate_inv σ → gate_inv σ'.
Proof.
  intros Ht Hg Ho Hw Hinv s. specialize (Hinv s). unfold fired in *.
  rewrite Ht, Hg, Ho. destruct Hinv as (?&?&?&?&?&Hs).
  split_and!; try done. intros Hon. by apply Hw, Hs.
Qed.

Lemma pipe_Read_frame r k σ chunk σ1 :
  pipe_Read r k σ = Some (chunk, σ1) →
  stdoutForwarder σ1 = stdoutForwarder σ ∧ stderrForwarder σ1 = stderrForwarder σ ∧
  goroutines σ1 = goroutines σ ∧ trace σ1 = trace σ ∧ sinks σ1 = sinks σ ∧
  os_Stdout σ1 = os_Stdout σ ∧ os_Stderr σ1 = os_Stderr σ.
Proof.
  unfold pipe_Read. intros H.
  destruct (files σ !! r) as [[| |w]|]; try done.
  destruct (files σ !! w) as [[|buf|]|]; try done.
  destruct k, buf; try done; injection H as _ <-; simpl; tauto.
Qed.

Lemma copy_step_frame i k order σ :
  let σ' := copy_step i k order σ in
  stdoutForwarder σ' = stdoutForwarder σ ∧ stderrForwarder σ' = stderrForwarder σ ∧
  trace σ' = trace σ ∧ os_Stdout σ' = os_Stdout σ ∧ os_Stderr σ' = os_Stderr σ ∧
  ∀ s, count_tasks s (goroutines σ') = count_tasks s (goroutines σ).
Proof.
  unfold copy_step. destruct (goroutines σ !! i) as [t|]; simpl; [|tauto].
  destruct (t_alive t); simpl; [|tauto].
  destruct (pipe_Read (t_src t) k σ) as [[chunk σ1]|] eqn:Hr; simpl; [|tauto].
  apply pipe_Read_frame in Hr. destruct Hr as (R1&R2&R3&R4&_&R6&R7).
  pose proof (Write_frame (t_dest t) chunk order σ1) as F. simpl in F.
  destruct F as (F1&F2&F3&F4&_&F6&F7&_).
  rewrite Write_unfold in *. simpl in *.
  case_decide; simpl.
  - rewrite F1, F2, F3, F4, F6, F7, R1, R2, R3, R4, R6, R7. tauto.
  - rewrite F1, F2, F3, F4, F7, R1, R2, R4, R6, R7. split_and!; try done.
    intros s. by rewrite count_tasks_kill, F6, R3.
Qed.

Lemma trace_set_fwd s f σ : trace (set_fwd s f σ) = trace σ.
Proof. by destruct s. Qed.

Lemma goroutines_set_fwd s f σ : goroutines (set_fwd s f σ) = goroutines σ.
Proof. by destruct s. Qed.

Lemma other_ne s : s ≠ other s.
Proof. by destruct s. Qed.

Lemma other_or s s' : s' = s ∨ s' = other s.
Proof. destruct s, s'; auto. Qed.

(** The state a first call of [addWriter] leaves when [once.Do] ran its body:
    the gate invariant holds again whatever the body did. *)
Lemma gate_inv_first dest f σ σ1 evs ts :
  gate_inv σ → once (fwd dest σ) = false →
  fwd dest σ1 = f → once f = true → is_Some (writers f) →
  fwd (other dest) σ1 = fwd (other dest) σ →
  trace σ1 = trace σ ++ evs → goroutines σ1 = goroutines σ ++ ts →
  (count_ev (is_attempt dest) evs ≤ 1)%nat → (count_ev (is_pipe dest) evs ≤ 1)%nat →
  (count_ev (is_swap dest) evs ≤ 1)%nat → (count_ev (is_loop dest) evs ≤ 1)%nat →
  (count_tasks dest ts ≤ 1)%nat →
  count_ev (is_attempt (other dest)) evs = 0%nat → count_ev (is_pipe (other dest)) evs = 0%nat →
  count_ev (is_swap (other dest)) evs = 0%nat → count_ev (is_loop (other dest)) evs = 0%nat →
  count_tasks (other dest) ts = 0%nat →
  gate_inv σ1.
Proof.
  intros Hinv Hon Hf Honf Hwf Hother Ht Hg A1 A2 A3 A4 A5 B1 B2 B3 B4 B5 s.
  rewrite Ht, Hg, !count_ev_app, count_tasks_app.
  destruct (other_or dest s) as [->| ->].
  - destruct (Hinv dest) as (I1&I2&I3&I4&I5&_). unfold fired in *.
    rewrite Hon in I1, I2, I3, I4, I5. rewrite Hf, Honf.
    split_and!; try lia. by intros _.
  - destruct (Hinv (other dest)) as (I1&I2&I3&I4&I5&I6). unfold fired in *.
    rewrite Hother, B1, B2, B3, B4, B5. split_and!; try lia. done.
Qed.

Lemma addWriter_gate_inv dest std id w σ :
  gate_inv σ →
  (∃ e, (addWriter dest std id w σ).1 = Returned e) ∧
  gate_inv (addWriter dest std id w σ).2 ∧
  once (fwd dest (addWriter dest std id w σ).2) = true ∧
  fwd (other dest) (addWriter dest std id w σ).2 = fwd (other dest) σ.
Proof.
  intros Hinv. rewrite addWriter_unfold. simpl.
  destruct (once (fwd dest σ)) eqn:Hon.
  - rewrite once_Do_done by done. simpl.
    destruct (Hinv dest) as (_&_&_&_&_&Hs). destruct (Hs Hon) as [m Hm]. rewrite Hm. simpl.
    split; [by eexists|]. split; [|split].
    + eapply gate_inv_transfer; [apply trace_set_fwd| | | |exact Hinv].
      * intros s. by rewrite goroutines_set_fwd.
      * intros s. destruct (other_or dest s) as [->| ->].
        -- by rewrite fwd_set_fwd_eq.
        -- by rewrite fwd_set_fwd_ne by apply other_ne.
      * intros s Hsome. destruct (other_or dest s) as [->| ->].
        -- by rewrite fwd_set_fwd_eq.
        -- by rewrite fwd_set_fwd_ne by apply other_ne.
    + by rewrite fwd_set_fwd_eq.
    + by rewrite fwd_set_fwd_ne by apply other_ne.
  - destruct (decide (2 ≤ fd_left σ)%nat) as [Hfd|Hfd].
    + pose proof (once_Do_first_ok dest std σ Hon Hfd) as F. simpl in F.
      destruct F as (F1&F2&F3&_&_&_&_&_&F9&_&F11).
      rewrite F1, F2. simpl. split; [by eexists|]. split; [|split].
      * eapply (gate_inv_first dest _ σ _ _ [Task dest _ true] Hinv Hon).
        -- apply fwd_set_fwd_eq.
        -- done.
        -- by eexists.
        -- rewrite fwd_set_fwd_ne by apply other_ne. exact F3.
        -- rewrite trace_set_fwd. exact F11.
        -- rewrite goroutines_set_fwd. exact F9.
        -- simpl. rewrite bool_decide_eq_true_2 by done. lia.
        -- simpl. rewrite bool_decide_eq_true_2 by done. lia.
        -- simpl. rewrite bool_decide_eq_true_2 by done. lia.
        -- simpl. rewrite bool_decide_eq_true_2 by done. lia.
        -- simpl. rewrite bool_decide_eq_true_2 by done. lia.
        -- simpl. by rewrite bool_decide_eq_false_2 by apply other_ne.
        -- simpl. by rewrite bool_decide_eq_false_2 by apply other_ne.
        -- simpl. by rewrite bool_decide_eq_false_2 by apply other_ne.
        -- simpl. by rewrite bool_decide_eq_false_2 by apply other_ne.
        -- simpl. by rewrite bool_decide_eq_false_2 by apply other_ne.
      * by rewrite fwd_set_fwd_eq.
      * rewrite fwd_set_fwd_ne by apply other_ne. exact F3.
    + pose proof (once_Do_first_fail dest std σ Hon ltac:(lia)) as F. simpl in F.
      destruct F as (F1&F2&F3&_&_&_&_&_&F9&_&F11).
      rewrite F1. simpl. split; [by eexists|]. split; [|split].
      * eapply (gate_inv_first dest _ σ _ _ [] Hinv Hon).
        -- exact F2.
        -- done.
        -- by eexists.
        -- exact F3.
        -- exact F11.
        -- by rewrite app_nil_r.
        -- simpl. rewrite bool_decide_eq_true_2 by done. lia.
        -- simpl. lia.
        -- simpl. lia.
        -- simpl. lia.
        -- simpl. lia.
        -- simpl. by rewrite bool_decide_eq_false_2 by apply other_ne.
        -- done.
        -- done.
        -- done.
        -- done.
      * by rewrite F2.
      * exact F3.
Qed.

Lemma gate_inv_same_fwd σ σ' :
  stdoutForwarder σ' = stdoutForwarder σ → stderrForwarder σ' = stderrForwarder σ →
  trace σ' = trace σ →
  (∀ s, count_tasks s (goroutines σ') = count_tasks s (goroutines σ)) →
  gate_inv σ → gate_inv σ' ∧ ∀ s, fwd s σ' = fwd s σ.
Proof.
  intros Ho He Ht Hg Hinv.
  assert (∀ s, fwd s σ' = fwd s σ) as Hf by (by intros []).
  split; [|done].
  eapply gate_inv_transfer; [exact Ht|exact Hg| | |exact Hinv]; intros s; by rewrite Hf.
Qed.

Lemma removeWriter_gate_inv s id σ :
  gate_inv σ →
  gate_inv (removeWriter s id σ) ∧ ∀ s', once (fwd s' (removeWriter s id σ)) = once (fwd s' σ).
Proof.
  intros Hinv. unfold removeWriter.
  assert (∀ s', once (fwd s' (set_fwd s (Forwarder (out (fwd s σ))
             (delete id <$> writers (fwd s σ)) (once (fwd s σ))) σ)) = once (fwd s' σ)) as Ho.
  { intros s'. destruct (other_or s s') as [->| ->].
    - by rewrite fwd_set_fwd_eq.
    - by rewrite fwd_set_fwd_ne by apply other_ne. }
  split; [|done].
  eapply gate_inv_transfer; [apply trace_set_fwd| |exact Ho| |exact Hinv].
  - intros s'. by rewrite goroutines_set_fwd.
  - intros s' [m Hm]. destruct (other_or s s') as [->| ->].
    + rewrite fwd_set_fwd_eq. simpl. rewrite Hm. by eexists.
    + rewrite fwd_set_fwd_ne by apply other_ne. by eexists.
Qed.

Lemma step_gate_inv o σ :
  gate_inv σ →
  ∃ σ', step o σ = Some σ' ∧ gate_inv σ' ∧
        ∀ s, once (fwd s σ) = true → once (fwd s σ') = true.
Proof.
  intros Hinv. destruct o as [id w|id w|id|id|p|p|i k order]; simpl.
  - unfold AddStdoutWriter.
    destruct (addWriter_gate_inv Stdout (os_Stdout σ) id w σ Hinv) as ([e He]&Hi&Hon&Hot).
    destruct (addWriter Stdout (os_Stdout σ) id w σ) as [o' σ']. simpl in *. subst o'.
    exists σ'. split_and!; try done. intros [] H; [done|]. simpl in *. by rewrite Hot.
  - unfold AddStderrWriter.
    destruct (addWriter_gate_inv Stderr (os_Stderr σ) id w σ Hinv) as ([e He]&Hi&Hon&Hot).
    destruct (addWriter Stderr (os_Stderr σ) id w σ) as [o' σ']. simpl in *. subst o'.
    exists σ'. split_and!; try done. intros [] H; [|done]. simpl in *. by rewrite Hot.
  - destruct (removeWriter_gate_inv Stdout id σ Hinv) as [Hi Ho].
    eexists. split_and!; [done|exact Hi|]. intros s. by rewrite Ho.
  - destruct (removeWriter_gate_inv Stderr id σ Hinv) as [Hi Ho].
    eexists. split_and!; [done|exact Hi|]. intros s. by rewrite Ho.
  - pose proof (file_Write_frame (os_Stdout σ) p σ) as F. simpl in F.
    destruct F as (_&_&F3&F4&_&_&F7&_&F9).
    destruct (gate_inv_same_fwd σ _ F3 F4 F9 ltac:(by intros; rewrite F7) Hinv) as [Hi Hf].
    eexists. split_and!; [done|exact Hi|]. intros s. by rewrite Hf.
  - pose proof (file_Write_frame (os_Stderr σ) p σ) as F. simpl in F.
    destruct F as (_&_&F3&F4&_&_&F7&_&F9).
    destruct (gate_inv_same_fwd σ _ F3 F4 F9 ltac:(by intros; rewrite F7) Hinv) as [Hi Hf].
    eexists. split_and!; [done|exact Hi|]. intros s. by rewrite Hf.
  - pose proof (copy_step_frame i k order σ) as F. simpl in F.
    destruct F as (F1&F2&F3&_&_&F6).
    destruct (gate_inv_same_fwd σ _ F1 F2 F3 F6 Hinv) as [Hi Hf].
    eexists. split_and!; [done|exact Hi|]. intros s. by rewrite Hf.
Qed.

Lemma run_gate_inv os : ∀ σ,
  gate_inv σ →
  ∃ σ', run os σ = Some σ' ∧ gate_inv σ' ∧
        ∀ s, once (fwd s σ) = true → once (fwd s σ') = true.
Proof.
  induction os as [|o os IH]; intros σ Hinv; simpl.
  - by exists σ.
  - destruct (step_gate_inv o σ Hinv) as (σ1 & -> & Hi1 & Hm1).
    destruct (IH σ1 Hi1) as (σ' & Hr & Hi & Hm).
    exists σ'. split_and!; try done. intros s H. by apply Hm, Hm1.
Qed.

(** Whatever the process does from a state in which the package has not
    been used, it does not panic, and in the state reached the function
    passed to [once.Do] has run at most once for each forwarder: on behalf
    of each forwarder there has been at most one pipe allocated (indeed at
    most one attempt), at most one execution of the assignment that ends
    that function and at most one copy loop started.  A call of [addWriter]
    on a forwarder whose gate has fired returns nil and changes nothing but
    that forwarder's map, every call leaves the gate fired, and no later
    operation resets a fired gate. *)
Lemma gate_fires_at_most_once (os : list op) (σ : world) :
  pristine σ →
  ∃ σ', run os σ = Some σ' ∧
    ∀ s,
      (count_ev (is_attempt s) (trace σ') ≤ 1)%nat ∧
      (count_ev (is_pipe s) (trace σ') ≤ 1)%nat ∧
      (count_ev (is_swap s) (trace σ') ≤ 1)%nat ∧
      (count_ev (is_loop s) (trace σ') ≤ 1)%nat ∧
      (count_tasks s (goroutines σ') ≤ 1)%nat ∧
      (∀ std id w, once (fwd s σ') = true →
         ∃ m, writers (fwd s σ') = Some m ∧
              addWriter s std id w σ' =
                (Returned None,
                 set_fwd s (Forwarder (out (fwd s σ')) (Some (<[id := w]> m)) true) σ')) ∧
      (∀ std id w, once (fwd s (addWriter s std id w σ').2) = true) ∧
      (∀ os', once (fwd s σ') = true →
         ∃ σ'', run os' σ' = Some σ'' ∧ once (fwd s σ'') = true).
Proof.
  intros Hp. destruct (run_gate_inv os σ (pristine_gate_inv σ Hp)) as (σ' & Hr & Hi & _).
  exists σ'. split; [done|]. intros s.
  destruct (Hi s) as (I1&I2&I3&I4&I5&I6). unfold fired in *.
  assert (∀ n, (n ≤ if once (fwd s σ') then 1 else 0)%nat → (n ≤ 1)%nat) as Hle.
  { intros n. destruct (once (fwd s σ')); lia. }
  split_and!; try by apply Hle.
  - intros std id w Hon. destruct (I6 Hon) as [m Hm]. exists m. split; [done|].
    by apply addWriter_done.
  - intros std id w. by destruct (addWriter_gate_inv s std id w σ' Hi) as (_&_&?&_).
  - intros os' Hon. destruct (run_gate_inv os' σ' Hi) as (σ'' & Hr' & _ & Hm).
    exists σ''. split; [done|]. by apply Hm.
Qed.

Lemma gate_fires_at_most_once_example :
  pristine (boot 100) ∧
  ∃ σ', run [CallAddStdoutWriter "a" 7%nat; CallAddStdoutWriter "b" 8%nat;
             CallAddStderrWriter "c" 9%nat; CallAddStdoutWriter "a" 9%nat] (boot 100) = Some σ' ∧
        (count_tasks Stdout (goroutines σ') ≤ 1)%nat.
Proof.
  assert (pristine (boot 100)) as Hp by (by split_and!).
  split; [exact Hp|].
  destruct (gate_fires_at_most_once
              [CallAddStdoutWriter "a" 7%nat; CallAddStdoutWriter "b" 8%nat;
               CallAddStderrWriter "c" 9%nat; CallAddStdoutWriter "a" 9%nat] (boot 100) Hp)
    as (σ' & Hr & Hs).
  exists σ'. split; [exact Hr|]. by destruct (Hs Stdout) as (_&_&_&_&?&_).
Defined.

(** ** Replacing and removing *)

Lemma addWriter_once dest std id w σ :
  once (fwd dest (addWriter dest std id w σ).2) = true.
Proof.
  rewrite addWriter_unfold. simpl. pose proof (once_Do_once dest std σ) as Hon.
  destruct (once_Do dest std σ) as [[e|] σ1]; simpl in *; [done|].
  destruct (writers (fwd dest σ1)); simpl; [|done]. by rewrite fwd_set_fwd_eq.
Qed.

Lemma addWriter_twice s std std' id w1 w2 σ σ1 :
  addWriter s std id w1 σ = (Returned None, σ1) →
  addWriter s std' id w2 σ1 = addWriter s std id w2 σ.
Proof.
  intros H.
  pose proof (addWriter_once s std id w1 σ) as Hon1. rewrite H in Hon1. simpl in Hon1.
  destruct (addWriter_registry _ _ _ _ _ _ H) as (m0 & Hw1 & _).
  rewrite (addWriter_done s std' id w2 σ1 _ Hon1 Hw1), insert_insert_eq.
  rewrite addWriter_unfold in H. rewrite (addWriter_unfold s std id w2 σ). simpl in *.
  destruct (once_Do s std σ) as [[e|] σa]; simpl in *; [done|].
  destruct (writers (fwd s σa)) as [m|] eqn:Hm; [|done].
  injection H as <-. rewrite fwd_set_fwd_eq in Hw1. simpl in Hw1.
  rewrite fwd_set_fwd_eq, set_fwd_set_fwd. simpl.
  injection Hw1 as Hw1.
  assert (<[id := w2]> m0 = <[id := w2]> m) as ->; [|done].
  by rewrite <- (insert_insert_eq m0 id w2 w1), <- Hw1, insert_insert_eq.
Qed.

(** What "last write wins" means for one of the two exported functions. *)
Definition last_write_wins (add : string → wid → world → outcome * world)
    (s : stream) : Prop :=
  ∀ id w1 w2 σ σ1,
    add id w1 σ = (Returned None, σ1) →
    add id w2 σ1 = add id w2 σ ∧
    (∃ m, writers (fwd s (add id w2 σ1).2) = Some m ∧ m !! id = Some w2) ∧
    (∀ p order, unused_elsewhere s σ id w2 →
       sink_calls (get_sink (Write s p order (add id w2 σ1).2).2 w2) =
         sink_calls (get_sink σ w2) ++ [p]) ∧
    (∀ p order, w1 ≠ w2 → unused_elsewhere s σ id w1 →
       get_sink (Write s p order (add id w2 σ1).2).2 w1 = get_sink σ w1).

Lemma addWriter_last_write_wins s (stdof : world → option fd) :
  last_write_wins (λ id w σ, addWriter s (stdof σ) id w σ) s.
Proof.
  intros id w1 w2 σ σ1 H.
  pose proof (addWriter_twice s (stdof σ) (stdof σ1) id w1 w2 σ σ1 H) as Heq.
  pose proof (addWriter_once s (stdof σ) id w1 σ) as Hon1. rewrite H in Hon1. simpl in Hon1.
  destruct (addWriter_registry _ _ _ _ _ _ H) as (m0 & Hw1 & Hm0).
  pose proof (addWriter_done s (stdof σ1) id w2 σ1 _ Hon1 Hw1) as Hsnd.
  split; [exact Heq|].
  assert (writers (fwd s (addWriter s (stdof σ1) id w2 σ1).2) = Some (<[id := w2]> m0)) as Hw2.
  { rewrite Hsnd. simpl. by rewrite fwd_set_fwd_eq, insert_insert_eq. }
  split; [|split].
  - eexists. split; [exact Hw2|]. apply lookup_insert_eq.
  - intros p order Hun.
    assert (registered_once s (addWriter s (stdof σ1) id w2 σ1).2 id w2) as Hreg.
    { rewrite Heq. apply (addWriter_registers s (stdof σ) id w2 σ); [|done].
      rewrite <- Heq, Hsnd. done. }
    rewrite (proj1 (Write_registered_once s p order _ id w2 Hreg)).
    rewrite addWriter_sink. pose proof (addWriter_sink s (stdof σ) id w1 σ w2) as E.
    by rewrite H in E; simpl in E; rewrite E.
  - intros p order Hne Hun.
    rewrite Write_unregistered.
    + rewrite addWriter_sink. pose proof (addWriter_sink s (stdof σ) id w1 σ w1) as E.
      by rewrite H in E.
    + intros m id' Hm Hid'. rewrite Hw2 in Hm. injection Hm as <-.
      destruct (decide (id' = id)) as [->|Hne'].
      * rewrite lookup_insert_eq in Hid'. congruence.
      * rewrite lookup_insert_ne in Hid' by done.
        destruct Hm0 as [[Hm0 _]|[-> _]].
        -- by apply Hne', (Hun m0).
        -- by rewrite lookup_empty in Hid'.
Qed.

(** C8. Registering [id] with [w1] and then with [w2] leaves the process in
    the state that registering [id] with [w2] alone would have left, with
    [w2] under [id]; a later [Write] calls [w2] and does not call [w1]. *)
Theorem register_same_id_replaces :
  last_write_wins AddStdoutWriter Stdout ∧ last_write_wins AddStderrWriter Stderr.
Proof.
  split.
  - exact (addWriter_last_write_wins Stdout os_Stdout).
  - exact (addWriter_last_write_wins Stderr os_Stderr).
Qed.

(** What the two removal functions promise. *)
Definition remove_contract (rm : string → world → world) (s : stream) : Prop :=
  ∀ id σ,
    (∀ m, writers (fwd s σ) = Some m →
       writers (fwd s (rm id σ)) = Some (delete id m) ∧ delete id m !! id = None) ∧
    rm id σ = set_fwd s (Forwarder (out (fwd s σ)) (writers (fwd s (rm id σ)))
                           (once (fwd s σ))) σ ∧
    (writers (fwd s σ) = None → rm id σ = σ) ∧
    ((∀ m, writers (fwd s σ) = Some m → m !! id = None) → rm id σ = σ).

Lemma removeWriter_contract s : remove_contract (removeWriter s) s.
Proof.
  intros id σ. unfold removeWriter. rewrite fwd_set_fwd_eq. simpl. split_and!.
  - intros m ->. split; [done|]. apply lookup_delete_eq.
  - done.
  - intros Hn. rewrite Hn. simpl. apply set_fwd_id.
    destruct (fwd s σ); simpl in *. by subst.
  - intros Hno. apply set_fwd_id. destruct (fwd s σ) as [o [m|] b]; simpl in *; [|done].
    by rewrite delete_id by (by apply Hno).
Qed.

(** C9. [RemoveStdoutWriter] and [RemoveStderrWriter] are total functions
    with no result: a registered id is deleted from the map and nothing else
    changes; on a nil map, or for an id that is not in the map, the process
    state is left exactly as it was. *)
Theorem remove_never_fails :
  remove_contract RemoveStdoutWriter Stdout ∧ remove_contract RemoveStderrWriter Stderr ∧
  ∀ id σ, is_Some (step (CallRemoveStdoutWriter id) σ) ∧
          is_Some (step (CallRemoveStderrWriter id) σ).
Proof.
  split; [exact (removeWriter_contract Stdout)|].
  split; [exact (removeWriter_contract Stderr)|].
  intros id σ. split; by eexists.
Qed.

Lemma register_same_id_replaces_witness :
  AddStdoutWriter "client-1" 7%nat (boot 100) =
    (Returned None, (AddStdoutWriter "client-1" 7%nat (boot 100)).2) ∧
  AddStdoutWriter "client-1" 8%nat (AddStdoutWriter "client-1" 7%nat (boot 100)).2 =
    AddStdoutWriter "client-1" 8%nat (boot 100).
Proof.
  assert (AddStdoutWriter "client-1" 7%nat (boot 100) =
            (Returned None, (AddStdoutWriter "client-1" 7%nat (boot 100)).2)) as H1
    by (vm_compute; reflexivity).
  split; [exact H1|].
  destruct register_same_id_replaces as [Hout _].
  exact (proj1 (Hout "client-1" 7%nat 8%nat (boot 100) _ H1)).
Defined.

Lemma remove_never_fails_witness :
  writers (fwd Stdout (boot 100)) = None ∧ RemoveStdoutWriter "ghost" (boot 100) = boot 100.
Proof.
  assert (writers (fwd Stdout (boot 100)) = None) as H1 by reflexivity.
  split; [exact H1|].
  destruct remove_never_fails as [Hout _].
  destruct (Hout "ghost" (boot 100)) as (_ & _ & Hnil & _).
  exact (Hnil H1).
Defined.

(** ** A first attempt that fails *)



(** What a call of [addWriter] on one forwarder means for the other one. *)
Lemma addWriter_foreign dest std id w σ :
  let σ' := (addWriter dest std id w σ).2 in
  fwd (other dest) σ' = fwd (other dest) σ ∧
  count_ev (is_attempt (other dest)) (trace σ') = count_ev (is_attempt (other dest)) (trace σ) ∧
  count_tasks (other dest) (goroutines σ') = count_tasks (other dest) (goroutines σ).
Proof.
  simpl. rewrite addWriter_unfold. simpl.
  assert (∀ f σa, fwd (other dest) (set_fwd dest f σa) = fwd (other dest) σa) as Hne.
  { intros f σa. apply fwd_set_fwd_ne, other_ne. }
  destruct (once (fwd dest σ)) eqn:Hon.
  - rewrite once_Do_done by done. simpl.
    destruct (writers (fwd dest σ)); simpl;
      by rewrite ?Hne, ?trace_set_fwd, ?goroutines_set_fwd.
  - destruct (decide (2 ≤ fd_left σ)%nat) as [Hfd|Hfd].
    + pose proof (once_Do_first_ok dest std σ Hon Hfd) as F. simpl in F.
      destruct F as (F1&F2&F3&_&_&_&_&_&F9&_&F11).
      rewrite F1, F2. simpl.
      rewrite Hne, trace_set_fwd, goroutines_set_fwd, F3, F9, F11.
      rewrite count_ev_app, count_tasks_app. simpl.
      rewrite !bool_decide_eq_false_2 by apply other_ne. split_and!; [done|lia|lia].
    + pose proof (once_Do_first_fail dest std σ Hon ltac:(lia)) as F. simpl in F.
      destruct F as (F1&F2&F3&_&_&_&_&_&F9&_&F11).
      rewrite F1. simpl. rewrite F3, F9, F11, count_ev_app. simpl.
      rewrite !bool_decide_eq_false_2 by apply other_ne. split_and!; [done|lia|done].
Qed.


Lemma get_sink_congr σ σ' h : sinks σ' = sinks σ → get_sink σ' h = get_sink σ h.
Proof. unfold get_sink. by intros ->. Qed.

(** An iteration of a copy loop leaves alone every consumer that is not
    registered on the forwarder the loop serves. *)
Lemma copy_step_sink i k order σ h :
  (∀ t, goroutines σ !! i = Some t → unregistered (t_dest t) σ h) →
  get_sink (copy_step i k order σ) h = get_sink σ h.
Proof.
  intros Hun. unfold copy_step.
  destruct (goroutines σ !! i) as [t|]; [|done]. specialize (Hun t eq_refl).
  destruct (t_alive t); [|done].
  destruct (pipe_Read (t_src t) k σ) as [[chunk σ1]|] eqn:Hr; [|done].
  apply pipe_Read_frame in Hr. destruct Hr as (R1&R2&_&_&R5&_).
  assert (unregistered (t_dest t) σ1 h) as Hun1.
  { unfold unregistered. replace (fwd (t_dest t) σ1) with (fwd (t_dest t) σ); [done|].
    by destruct (t_dest t). }
  pose proof (Write_unregistered (t_dest t) chunk order σ1 h Hun1) as Hw.
  rewrite Write_unfold in *. simpl in *.
  case_decide; simpl.
  - rewrite Hw. by apply get_sink_congr.
  - transitivity (get_sink σ1 h); [|by apply get_sink_congr].
    by rewrite <- Hw.
Qed.

Lemma ne_other dest s : dest ≠ s → s = other dest.
Proof. by destruct dest, s. Qed.


Lemma addWriter_keeps_unregistered dest std id w σ h :
  w ≠ h → unregistered dest σ h → unregistered dest (addWriter dest std id w σ).2 h.
Proof.
  intros Hwh Hun m' id' Hm' Hid'. rewrite addWriter_unfold in Hm'. simpl in Hm'.
  assert (∀ m0, (∀ i, m0 !! i ≠ Some h) → m' = <[id := w]> m0 → False) as Hins.
  { intros m0 Hm0 ->. destruct (decide (id' = id)) as [->|Hne].
    - rewrite lookup_insert_eq in Hid'. congruence.
    - rewrite lookup_insert_ne in Hid' by done. by eapply Hm0. }
  destruct (once (fwd dest σ)) eqn:Hon.
  - rewrite once_Do_done in Hm' by done. simpl in Hm'.
    destruct (writers (fwd dest σ)) as [m|] eqn:Hm; simpl in Hm'.
    + rewrite fwd_set_fwd_eq in Hm'. simpl in Hm'. injection Hm' as <-.
      apply (Hins m); [|done]. intros i. by apply Hun.
    + by rewrite Hm in Hm'.
  - destruct (decide (2 ≤ fd_left σ)%nat) as [Hfd|Hfd].
    + pose proof (once_Do_first_ok dest std σ Hon Hfd) as F. simpl in F.
      destruct F as (F1&F2&_). rewrite F1, F2 in Hm'. simpl in Hm'.
      rewrite fwd_set_fwd_eq in Hm'. simpl in Hm'. injection Hm' as <-.
      apply (Hins ∅); [|done]. intros i. by rewrite lookup_empty.
    + pose proof (once_Do_first_fail dest std σ Hon ltac:(lia)) as F. simpl in F.
      destruct F as (F1&F2&_). rewrite F1 in Hm'. simpl in Hm'.
      rewrite F2 in Hm'. simpl in Hm'. injection Hm' as <-.
      by rewrite lookup_empty in Hid'.
Qed.



Lemma removeWriter_quiet s s' id σ h :
  unregistered s σ h → unregistered s (removeWriter s' id σ) h.
Proof.
  intros Hun m id' Hm Hid'. unfold removeWriter in Hm.
  destruct (decide (s' = s)) as [->|Hne].
  - rewrite fwd_set_fwd_eq in Hm. simpl in Hm.
    destruct (writers (fwd s σ)) as [m0|] eqn:Hm0; [|done]. injection Hm as <-.
    destruct (decide (id' = id)) as [->|Hne'].
    + by rewrite lookup_delete_eq in Hid'.
    + rewrite lookup_delete_ne in Hid' by done. by eapply Hun.
  - rewrite fwd_set_fwd_ne in Hm by done. by eapply Hun.
Qed.






(** ** What the code does with [os.Stdout] *)

Lemma addWriter_os_Stderr dest std id w σ :
  os_Stderr (addWriter dest std id w σ).2 = os_Stderr σ.
Proof.
  rewrite addWriter_unfold. simpl. pose proof (once_Do_os_Stderr dest std σ) as H.
  destruct (once_Do dest std σ) as [[e|] σ1]; simpl in *; [done|].
  destruct (writers (fwd dest σ1)); simpl; [|done]. by destruct dest.
Qed.

(** What a consumer was called with, and what two regular files hold, after
    the process has performed [os]. *)
Definition observe (h : wid) (os : list op) (σ : world)
  : option (list bytes * bytes * bytes) :=
  σ' ← run os σ; Some (sink_calls (get_sink σ' h), content_of 1 σ', content_of 2 σ').

(** C1. [AddStderrWriter] leaves [os.Stderr] as it was and assigns the write end
    of the new pipe to [os.Stdout] (the last statement of the function passed
    to [once.Do] names [os.Stdout], whichever forwarder is being set up).
    In a fresh process, after [AddStderrWriter("client-1", w)], bytes written
    to [os.Stderr] reach the terminal and never the consumer, while bytes
    written to [os.Stdout] reach the consumer and the regular standard error. *)
Theorem AddStderrWriter_leaves_os_Stderr :
  (∀ id w σ, os_Stderr (AddStderrWriter id w σ).2 = os_Stderr σ) ∧
  os_Stderr (AddStderrWriter "client-1" 7%nat (boot 100)).2 = Some 2%nat ∧
  os_Stdout (AddStderrWriter "client-1" 7%nat (boot 100)).2 = Some 4%nat ∧
  files (AddStderrWriter "client-1" 7%nat (boot 100)).2 !! 4%nat = Some (PipeW []) ∧
  observe 7%nat [CallAddStderrWriter "client-1" 7%nat; PrintStderr hello;
                 CopyLoopStep 0 3 []] (boot 100) = Some ([], [], hello) ∧
  observe 7%nat [CallAddStderrWriter "client-1" 7%nat; PrintStdout hello;
                 CopyLoopStep 0 3 []] (boot 100) = Some ([hello], [], hello).
Proof.
  split; [intros id w σ; apply addWriter_os_Stderr|].
  split_and!; vm_compute; reflexivity.
Qed.

(** C10. [AddStderrWriter] changes the process-global [os.Stdout]: in a fresh
    process it goes from descriptor 1 to the write end of the pipe made for
    the stderr forwarder.  The forwarder records are independent, and
    [AddStdoutWriter] does leave [os.Stderr] and the stderr forwarder alone.
    After [AddStdoutWriter("a", 7)] and then [AddStderrWriter("b", 8)], bytes
    written to [os.Stdout] are delivered to the stderr consumer 8 and to the
    regular standard error, and neither to consumer 7 nor to the regular
    standard output. *)
Theorem AddStderrWriter_assigns_os_Stdout :
  os_Stdout (boot 100) = Some 1%nat ∧
  os_Stdout (AddStderrWriter "b" 8%nat (boot 100)).2 = Some 4%nat ∧
  (∀ id w σ, stdoutForwarder (AddStderrWriter id w σ).2 = stdoutForwarder σ) ∧
  (∀ id w σ, os_Stderr (AddStdoutWriter id w σ).2 = os_Stderr σ ∧
             stderrForwarder (AddStdoutWriter id w σ).2 = stderrForwarder σ) ∧
  observe 7%nat [CallAddStdoutWriter "a" 7%nat; CallAddStderrWriter "b" 8%nat;
                 PrintStdout hello; CopyLoopStep 0 3 []; CopyLoopStep 1 3 []] (boot 100)
    = Some ([], [], hello) ∧
  observe 8%nat [CallAddStdoutWriter "a" 7%nat; CallAddStderrWriter "b" 8%nat;
                 PrintStdout hello; CopyLoopStep 0 3 []; CopyLoopStep 1 3 []] (boot 100)
    = Some ([hello], [], hello).
Proof.
  split_and!; try (vm_compute; reflexivity).
  - intros id w σ. by destruct (addWriter_foreign Stderr (os_Stderr σ) id w σ) as (? & _).
  - intros id w σ. split; [apply addWriter_os_Stderr|].
    by destruct (addWriter_foreign Stdout (os_Stdout σ) id w σ) as (? & _).
Qed.

(** C6 as the specification states it: the failing first call returns an
    error and registers nothing, the forwarder is back at "no interception
    yet", and from there a registration that reports success has a copy loop
    serving it. *)
Definition falls_back_on_failure (s : stream) (std : option fd) (id : string)
    (w : wid) (σ : world) : Prop :=
  let r := addWriter s std id w σ in
  (∃ e, r.1 = Returned (Some e)) ∧
  (∀ m, writers (fwd s r.2) = Some m → m !! id = None) ∧
  once (fwd s r.2) = false ∧
  ∀ std' id' w',
    (addWriter s std' id' w' r.2).1 = Returned None →
    (1 ≤ count_tasks s (goroutines (addWriter s std' id' w' r.2).2))%nat.

(** In a process that has no descriptor to spare the forwarder does not fall
    back: after the failed first call the gate has fired, and the next
    registration reports success with no copy loop serving the forwarder. *)
Lemma falls_back_on_failure_counterexample :
  ¬ falls_back_on_failure Stdout (Some 1%nat) "a" 7%nat (boot 0) ∧
  once (fwd Stdout (addWriter Stdout (Some 1%nat) "a" 7%nat (boot 0)).2) = true ∧
  (addWriter Stdout (Some 1%nat) "b" 8%nat
     (addWriter Stdout (Some 1%nat) "a" 7%nat (boot 0)).2).1 = Returned None ∧
  count_tasks Stdout (goroutines (addWriter Stdout (Some 1%nat) "b" 8%nat
     (addWriter Stdout (Some 1%nat) "a" 7%nat (boot 0)).2).2) = 0%nat.
Proof.
  split_and!; try (vm_compute; reflexivity).
  intros (_ & _ & H & _). vm_compute in H. discriminate H.
Qed.

(** The same process, call by call: the second registration returns nil and
    registers its writer although no pipe exists, [os.Stdout] is still
    descriptor 1 and no copy loop runs, so that what is then written to
    [os.Stdout] never reaches the writer. *)
Lemma failed_pipe_then_silent_success :
  (AddStdoutWriter "a" 7%nat (boot 0)).1 = Returned (Some (Errorf_redirect EMFILE)) ∧
  once (stdoutForwarder (AddStdoutWriter "a" 7%nat (boot 0)).2) = true ∧
  (AddStdoutWriter "b" 8%nat (AddStdoutWriter "a" 7%nat (boot 0)).2).1 = Returned None ∧
  map_to_list <$> writers (stdoutForwarder
      (AddStdoutWriter "b" 8%nat (AddStdoutWriter "a" 7%nat (boot 0)).2).2)
    = Some [("b", 8%nat)] ∧
  goroutines (AddStdoutWriter "b" 8%nat (AddStdoutWriter "a" 7%nat (boot 0)).2).2 = [] ∧
  os_Stdout (AddStdoutWriter "b" 8%nat (AddStdoutWriter "a" 7%nat (boot 0)).2).2 = Some 1%nat ∧
  observe 8%nat [CallAddStdoutWriter "a" 7%nat; CallAddStdoutWriter "b" 8%nat;
                 PrintStdout hello; CopyLoopStep 0 3 []] (boot 0)
    = Some ([], hello, []).
Proof. split_and!; vm_compute; reflexivity. Qed.

(** C6, amended. When [os.Pipe] fails in the first call of [addWriter] on a
    forwarder, the call returns the wrapped error and registers nothing (the
    map is made and empty); [os.Stdout], [os.Stderr], the file table, the
    goroutines and the other forwarder are untouched, so no interception
    takes effect.  The forwarder itself is not back at its zero value: [out]
    is set and the gate has fired. *)
Theorem failed_pipe_is_reported (s : stream) (std : option fd) (id : string)
    (w : wid) (σ : world) :
  once (fwd s σ) = false → (fd_left σ < 2)%nat →
  let r := addWriter s std id w σ in
  r.1 = Returned (Some (Errorf_redirect EMFILE)) ∧
  fwd s r.2 = Forwarder std (Some ∅) true ∧
  fwd (other s) r.2 = fwd (other s) σ ∧
  os_Stdout r.2 = os_Stdout σ ∧ os_Stderr r.2 = os_Stderr σ ∧
  files r.2 = files σ ∧ fd_left r.2 = fd_left σ ∧ sinks r.2 = sinks σ ∧
  goroutines r.2 = goroutines σ ∧
  trace r.2 = trace σ ++ [PipeFailed s].
Proof.
  intros Hon Hfd. simpl. rewrite addWriter_unfold. simpl.
  pose proof (once_Do_first_fail s std σ Hon Hfd) as F. simpl in F.
  destruct F as (F1&F2&F3&F4&F5&F6&F7&F8&F9&_&F11). rewrite F1. simpl.
  by split_and!.
Qed.

Lemma failed_pipe_is_reported_witness :
  once (fwd Stderr (boot 1)) = false ∧ (fd_left (boot 1) < 2)%nat ∧
  (addWriter Stderr (Some 2%nat) "a" 7%nat (boot 1)).1 =
    Returned (Some (Errorf_redirect EMFILE)).
Proof.
  assert (once (fwd Stderr (boot 1)) = false) as H1 by reflexivity.
  assert (fd_left (boot 1) < 2)%nat as H2 by (simpl; lia).
  split_and!; [exact H1|exact H2|].
  exact (proj1 (failed_pipe_is_reported Stderr (Some 2%nat) "a" 7%nat (boot 1) H1 H2)).
Defined.

(** ** Delivery across registrations and removals *)

(** What the rest of the process does with one forwarder: registrations,
    removals, and the calls of [Write] its copy loop makes. *)
Inductive fop :=
  | FAdd (id : string) (w : wid)
  | FRemove (id : string)
  | FWrite (p : bytes) (order : list (string * wid)).

(** One operation on forwarder [s], through its pair of exported functions;
    [None] when the registration panics. *)
Definition fstep (add : string → wid → world → outcome * world)
    (rm : string → world → world) (s : stream) (o : fop) (σ : world) : option world :=
  match o with
  | FAdd id w =>
      match add id w σ with
      | (Returned _, σ') => Some σ'
      | (Panicked, _) => None
      end
  | FRemove id => Some (rm id σ)
  | FWrite p order => Some (Write s p order σ).2
  end.

Fixpoint frun (add : string → wid → world → outcome * world)
    (rm : string → world → world) (s : stream) (os : list fop) (σ : world)
  : option world :=
  match os with
  | [] => Some σ
  | o :: os' =>
      match fstep add rm s o σ with
      | Some σ' => frun add rm s os' σ'
      | None => None
      end
  end.

(** The byte slices a sequence of operations passes to [Write], in order. *)
Fixpoint written (os : list fop) : list bytes :=
  match os with
  | [] => []
  | FWrite p _ :: os' => p :: written os'
  | _ :: os' => written os'
  end.

(** The operation leaves the registration of [h] under [id] alone: it does
    not remove or replace [id], and does not register [h] a second time. *)
Definition keeps (id : string) (h : wid) (o : fop) : Prop :=
  match o with
  | FAdd id' w => id' ≠ id ∧ w ≠ h
  | FRemove id' => id' ≠ id
  | FWrite _ _ => True
  end.

(** The operation does not register [h]. *)
Definition avoids (h : wid) (o : fop) : Prop :=
  match o with
  | FAdd _ w => w ≠ h
  | _ => True
  end.

(** What one forwarder, with its exported functions, promises a consumer. *)
Definition delivery_contract (add : string → wid → world → outcome * world)
    (rm : string → world → world) (s : stream) : Prop :=
  (∀ id h σ σ1,
     add id h σ = (Returned None, σ1) → unused_elsewhere s σ id h →
     once (fwd s σ1) = true ∧ registered_once s σ1 id h ∧
     get_sink σ1 h = get_sink σ h) ∧
  (∀ id h σ os,
     once (fwd s σ) = true → registered_once s σ id h → Forall (keeps id h) os →
     ∃ σ', frun add rm s os σ = Some σ' ∧
           once (fwd s σ') = true ∧ registered_once s σ' id h ∧
           sink_calls (get_sink σ' h) = sink_calls (get_sink σ h) ++ written os ∧
           (sink_fails (get_sink σ h) = false →
            sink_data (get_sink σ' h) = sink_data (get_sink σ h) ++ concat (written os))) ∧
  (∀ id h σ os,
     once (fwd s σ) = true → registered_once s σ id h → Forall (avoids h) os →
     ∃ σ', frun add rm s (FRemove id :: os) σ = Some σ' ∧
           get_sink σ' h = get_sink σ h).

Lemma addWriter_keeps_registered s std id h id' w σ :
  once (fwd s σ) = true → registered_once s σ id h → id' ≠ id → w ≠ h →
  (addWriter s std id' w σ).1 = Returned None ∧
  once (fwd s (addWriter s std id' w σ).2) = true ∧
  registered_once s (addWriter s std id' w σ).2 id h.
Proof.
  intros Hon (m & Hm & Hid & Hu) Hne Hw.
  rewrite (addWriter_done s std id' w σ m Hon Hm). simpl.
  rewrite fwd_set_fwd_eq. simpl. split_and!; try done.
  exists (<[id' := w]> m). rewrite fwd_set_fwd_eq. simpl. split_and!; try done.
  - by rewrite lookup_insert_ne.
  - intros i Hi. destruct (decide (i = id')) as [->|Hni].
    + rewrite lookup_insert_eq in Hi. congruence.
    + rewrite lookup_insert_ne in Hi by done. by apply Hu.
Qed.

Lemma frun_keeps s (stdof : world → option fd) id h os : ∀ σ,
  once (fwd s σ) = true → registered_once s σ id h → Forall (keeps id h) os →
  ∃ σ', frun (λ id w σ, addWriter s (stdof σ) id w σ) (removeWriter s) s os σ = Some σ' ∧
        once (fwd s σ') = true ∧ registered_once s σ' id h ∧
        sink_calls (get_sink σ' h) = sink_calls (get_sink σ h) ++ written os ∧
        (sink_fails (get_sink σ h) = false →
         sink_data (get_sink σ' h) = sink_data (get_sink σ h) ++ concat (written os)).
Proof.
  induction os as [|o os IH]; intros σ Hon Hreg Hall.
  - exists σ. simpl. rewrite !app_nil_r. by split_and!.
  - apply Forall_cons in Hall as [Ho Hall].
    destruct o as [id' w|id'|p order]; simpl in Ho.
    + destruct Ho as [Hne Hw].
      destruct (addWriter_keeps_registered s (stdof σ) id h id' w σ Hon Hreg Hne Hw)
        as (Hret & Hon1 & Hreg1).
      pose proof (addWriter_sink s (stdof σ) id' w σ h) as Hs.
      destruct (addWriter s (stdof σ) id' w σ) as [r σ1] eqn:E. simpl in *. subst r.
      destruct (IH σ1 Hon1 Hreg1 Hall) as (σ' & Hr & ? & ? & Hc & Hd).
      exists σ'. rewrite E. rewrite Hs in Hc, Hd. by split_and!.
    + assert (once (fwd s (removeWriter s id' σ)) = true) as Hon1.
      { unfold removeWriter. by rewrite fwd_set_fwd_eq. }
      pose proof (removeWriter_keeps s id' id h σ (not_eq_sym Ho) Hreg) as Hreg1.
      destruct (IH _ Hon1 Hreg1 Hall) as (σ' & Hr & ? & ? & Hc & Hd).
      exists σ'. simpl. rewrite removeWriter_sink in Hc, Hd. by split_and!.
    + destruct (Write_registered_once s p order σ id h Hreg) as [Hc1 Hd1].
      assert (once (fwd s (Write s p order σ).2) = true) as Hon1 by (by rewrite Write_fwd).
      assert (registered_once s (Write s p order σ).2 id h) as Hreg1
        by (unfold registered_once; by rewrite Write_fwd).
      destruct (IH _ Hon1 Hreg1 Hall) as (σ' & Hr & ? & ? & Hc & Hd).
      exists σ'. simpl. split_and!; try done.
      * rewrite Hc, Hc1. by rewrite <- app_assoc.
      * intros Hok. rewrite Hd by (by rewrite Write_fails).
        rewrite Hd1 by done. by rewrite <- app_assoc.
Qed.

Lemma frun_avoids s (stdof : world → option fd) h os : ∀ σ,
  once (fwd s σ) = true → is_Some (writers (fwd s σ)) → unregistered s σ h →
  Forall (avoids h) os →
  ∃ σ', frun (λ id w σ, addWriter s (stdof σ) id w σ) (removeWriter s) s os σ = Some σ' ∧
        get_sink σ' h = get_sink σ h.
Proof.
  induction os as [|o os IH]; intros σ Hon [m Hm] Hun Hall.
  - by exists σ.
  - apply Forall_cons in Hall as [Ho Hall].
    destruct o as [id' w|id'|p order]; simpl in Ho.
    + pose proof (addWriter_keeps_unregistered s (stdof σ) id' w σ h Ho Hun) as Hun1.
      pose proof (addWriter_sink s (stdof σ) id' w σ h) as Hs.
      pose proof (addWriter_done s (stdof σ) id' w σ m Hon Hm) as E.
      rewrite E in Hun1, Hs. simpl in Hun1, Hs.
      destruct (IH (set_fwd s (Forwarder (out (fwd s σ)) (Some (<[id' := w]> m)) true) σ))
        as (σ' & Hr & Hg); try done.
      * by rewrite fwd_set_fwd_eq.
      * rewrite fwd_set_fwd_eq. by eexists.
      * exists σ'. simpl. rewrite E. split; [done|]. by rewrite Hg.
    + destruct (IH (removeWriter s id' σ)) as (σ' & Hr & Hg); try done.
      * unfold removeWriter. by rewrite fwd_set_fwd_eq.
      * unfold removeWriter. rewrite fwd_set_fwd_eq. simpl. rewrite Hm. by eexists.
      * by apply removeWriter_quiet.
      * exists σ'. simpl. split; [done|]. by rewrite Hg, removeWriter_sink.
    + destruct (IH (Write s p order σ).2) as (σ' & Hr & Hg); try done.
      * by rewrite Write_fwd.
      * rewrite Write_fwd. by eexists.
      * unfold unregistered. by rewrite Write_fwd.
      * exists σ'. simpl. split; [done|]. by rewrite Hg, Write_unregistered.
Qed.

Lemma addWriter_delivery_contract s (stdof : world → option fd) :
  delivery_contract (λ id w σ, addWriter s (stdof σ) id w σ) (removeWriter s) s.
Proof.
  split_and!.
  - intros id h σ σ1 Hadd Hun.
    pose proof (addWriter_once s (stdof σ) id h σ) as Hon.
    pose proof (addWriter_sink s (stdof σ) id h σ h) as Hs.
    rewrite Hadd in Hon, Hs. simpl in Hon, Hs. split_and!; try done.
    by apply (addWriter_registers s (stdof σ) id h σ).
  - intros id h σ os Hon Hreg Hall. by apply frun_keeps.
  - intros id h σ os Hon Hreg Hall.
    destruct (frun_avoids s stdof h os (removeWriter s id σ)) as (σ' & Hr & Hg);
      try done.
    + unfold removeWriter. by rewrite fwd_set_fwd_eq.
    + destruct Hreg as (m & Hm & _). unfold removeWriter.
      rewrite fwd_set_fwd_eq. simpl. rewrite Hm. by eexists.
    + by apply removeWriter_unregisters.
    + exists σ'. simpl. split; [done|]. by rewrite Hg, removeWriter_sink.
Qed.

(** C2. A consumer registered by [AddStdoutWriter] (or [AddStderrWriter])
    under an id, and not under another one, is called with every byte slice
    that is passed to the forwarder's [Write] from then on, once each and in
    write order, and a healthy consumer accumulates exactly their
    concatenation, whatever other consumers are registered, replaced or
    removed in between with the exported functions.  From the moment
    [RemoveStdoutWriter] (or [RemoveStderrWriter]) removes its id, it is not
    called any more, while the consumers that are still registered go on
    receiving every write. *)
Theorem registered_consumer_receives_every_write :
  delivery_contract AddStdoutWriter RemoveStdoutWriter Stdout ∧
  delivery_contract AddStderrWriter RemoveStderrWriter Stderr.
Proof.
  split.
  - exact (addWriter_delivery_contract Stdout os_Stdout).
  - exact (addWriter_delivery_contract Stderr os_Stderr).
Qed.

Lemma registered_consumer_receives_every_write_witness :
  AddStdoutWriter "client-1" 7%nat (boot 100) =
    (Returned None, (AddStdoutWriter "client-1" 7%nat (boot 100)).2) ∧
  unused_elsewhere Stdout (boot 100) "client-1" 7%nat ∧
  Forall (keeps "client-1" 7%nat)
    [FAdd "other" 8%nat; FWrite hello []; FRemove "other"; FWrite [] []; FWrite hello []] ∧
  ∃ σ',
    frun AddStdoutWriter RemoveStdoutWriter Stdout
      [FAdd "other" 8%nat; FWrite hello []; FRemove "other"; FWrite [] []; FWrite hello []]
      (AddStdoutWriter "client-1" 7%nat (boot 100)).2 = Some σ' ∧
    sink_calls (get_sink σ' 7%nat) = [hello; []; hello].
Proof.
  assert (AddStdoutWriter "client-1" 7%nat (boot 100) =
            (Returned None, (AddStdoutWriter "client-1" 7%nat (boot 100)).2)) as H1
    by (vm_compute; reflexivity).
  assert (unused_elsewhere Stdout (boot 100) "client-1" 7%nat) as H2
    by (intros m id' Hw; discriminate Hw).
  assert (Forall (keeps "client-1" 7%nat)
            [FAdd "other" 8%nat; FWrite hello []; FRemove "other"; FWrite [] [];
             FWrite hello []]) as H3.
  { repeat (apply Forall_cons; split); try apply Forall_nil; simpl; done. }
  split_and!; [exact H1|exact H2|exact H3|].
  destruct registered_consumer_receives_every_write as [(Hreg & Hkeep & _) _].
  destruct (Hreg "client-1" 7%nat (boot 100) _ H1 H2) as (Hon & Hr & Hs).
  destruct (Hkeep "client-1" 7%nat _ _ Hon Hr H3) as (σ' & Hrun & _ & _ & Hc & _).
  exists σ'. split; [exact Hrun|]. rewrite Hc, Hs. reflexivity.
Defined.

(** ** Assignments of the global handles *)

(** The assignments of a process-global stream handle made so far, by either
    forwarder. *)
Definition is_assign (e : event) : bool :=
  match e with StdoutAssigned _ _ => true | _ => false end.

Lemma count_assign tr :
  count_ev is_assign tr =
    (count_ev (is_swap Stdout) tr + count_ev (is_swap Stderr) tr)%nat.
Proof.
  induction tr as [|e tr IH]; simpl; [done|]. rewrite IH.
  destruct e as [d r w|d|d r|d w]; simpl; try lia. destruct d; simpl; lia.
Qed.

Lemma os_Stderr_set_fwd s f σ : os_Stderr (set_fwd s f σ) = os_Stderr σ.
Proof. by destruct s. Qed.

Lemma step_os_Stderr o σ σ' : step o σ = Some σ' → os_Stderr σ' = os_Stderr σ.
Proof.
  destruct o as [id w|id w|id|id|p|p|i k order]; simpl.
  - unfold AddStdoutWriter.
    pose proof (addWriter_os_Stderr Stdout (os_Stdout σ) id w σ) as H.
    destruct (addWriter Stdout (os_Stdout σ) id w σ) as [[e|] σ1]; [|done].
    by intros [= <-].
  - unfold AddStderrWriter.
    pose proof (addWriter_os_Stderr Stderr (os_Stderr σ) id w σ) as H.
    destruct (addWriter Stderr (os_Stderr σ) id w σ) as [[e|] σ1]; [|done].
    by intros [= <-].
  - intros [= <-]. apply os_Stderr_set_fwd.
  - intros [= <-]. apply os_Stderr_set_fwd.
  - intros [= <-]. by destruct (file_Write_frame (os_Stdout σ) p σ) as (_&?&_).
  - intros [= <-]. by destruct (file_Write_frame (os_Stderr σ) p σ) as (_&?&_).
  - intros [= <-]. by destruct (copy_step_frame i k order σ) as (_&_&_&_&?&_).
Qed.

Lemma run_os_Stderr os : ∀ σ σ', run os σ = Some σ' → os_Stderr σ' = os_Stderr σ.
Proof.
  induction os as [|o os IH]; intros σ σ'; simpl; [by intros [= <-]|].
  destruct (step o σ) as [σ1|] eqn:E; [|done]. intros Hr.
  rewrite (IH _ _ Hr). by apply (step_os_Stderr o).
Qed.

(** A fresh process after [AddStdoutWriter("a", 7)], and the same after
    [AddStderrWriter("b", 8)] as well. *)
Definition stdout_captured : world := (AddStdoutWriter "a" 7%nat (boot 100)).2.

Definition both_captured : world := (AddStderrWriter "b" 8%nat stdout_captured).2.

(** C5. Each forwarder's gate lets the interception code run at most once, so
    that, whatever the process does from start-up, at most one pipe is
    allocated and at most one copy loop is started per forwarder.  The handle
    that code assigns is [os.Stdout] for both forwarders: in a fresh process,
    [AddStdoutWriter("a", 7)] moves [os.Stdout] from descriptor 1 to the
    write end of a new pipe and [AddStderrWriter("b", 8)] moves it again, to
    the write end of a second pipe, while [os.Stderr] stays where it was.
    In general the process never assigns [os.Stderr], and assigns
    [os.Stdout] up to twice. *)
Theorem os_Stdout_is_swapped_by_both_forwarders :
  (∃ r1 w1 r2 w2 : fd,
     trace both_captured =
       [PipeAllocated Stdout r1 w1; CopyLoopStarted Stdout r1; StdoutAssigned Stdout w1;
        PipeAllocated Stderr r2 w2; CopyLoopStarted Stderr r2; StdoutAssigned Stderr w2] ∧
     os_Stdout (boot 100) = Some 1%nat ∧
     os_Stdout stdout_captured = Some w1 ∧
     os_Stdout both_captured = Some w2 ∧
     w1 ≠ 1%nat ∧ w2 ≠ 1%nat ∧ w2 ≠ w1) ∧
  os_Stderr both_captured = os_Stderr (boot 100) ∧
  count_ev is_assign (trace both_captured) = 2%nat ∧
  ∀ n os, ∃ σ',
    run os (boot n) = Some σ' ∧
    os_Stderr σ' = os_Stderr (boot n) ∧
    (count_ev is_assign (trace σ') ≤ 2)%nat ∧
    ∀ s, (count_ev (is_pipe s) (trace σ') ≤ 1)%nat ∧
         (count_ev (is_loop s) (trace σ') ≤ 1)%nat ∧
         (count_tasks s (goroutines σ') ≤ 1)%nat.
Proof.
  split.
  { exists 3%nat, 4%nat, 5%nat, 6%nat.
    split_and!; try (vm_compute; reflexivity); lia. }
  do 2 (split; [vm_compute; reflexivity|]).
  intros n os.
  assert (pristine (boot n)) as Hp by (by split_and!).
  destruct (run_gate_inv os (boot n) (pristine_gate_inv _ Hp)) as (σ' & Hr & Hi & _).
  exists σ'. split_and!; try done.
  - by rewrite (run_os_Stderr os _ _ Hr).
  - rewrite count_assign.
    destruct (Hi Stdout) as (_&_&H1&_). destruct (Hi Stderr) as (_&_&H2&_).
    unfold fired in *. destruct (once (fwd Stdout σ')), (once (fwd Stderr σ')); lia.
  - intros s. destruct (Hi s) as (_&I2&_&I4&I5&_). unfold fired in *.
    destruct (once (fwd s σ')); split_and!; lia.
Qed.

(** * Further properties of the forwarders *)

(** ** Through the pipe *)

(** Standard output is intercepted and served: [os.Stdout] is the write end
    [w] of a pipe holding [buf], goroutine [i] copies from its read end [r]
    to the stdout forwarder, whose regular output [d] is an unbounded file
    holding [c], and the healthy consumer [h] is registered under [id]. *)
Definition live (i : nat) (r w d : fd) (id : string) (h : wid)
    (buf c : bytes) (σ : world) : Prop :=
  os_Stdout σ = Some w ∧
  files σ !! r = Some (PipeR w) ∧
  files σ !! w = Some (PipeW buf) ∧
  files σ !! d = Some (Regular c None) ∧
  goroutines σ !! i = Some (Task Stdout r true) ∧
  out (fwd Stdout σ) = Some d ∧
  registered_once Stdout σ id h ∧
  sink_fails (get_sink σ h) = false.

(** Application writes to [os.Stdout] and iterations of copy loop [i]. *)
Definition is_traffic (i : nat) (o : op) : Prop :=
  match o with
  | PrintStdout _ => True
  | CopyLoopStep j _ _ => j = i
  | _ => False
  end.

(** The bytes a sequence of operations writes to [os.Stdout]. *)
Fixpoint printed (os : list op) : bytes :=
  match os with
  | [] => []
  | PrintStdout p :: os' => p ++ printed os'
  | _ :: os' => printed os'
  end.

Lemma live_PrintStdout i r w d id h buf c σ p :
  live i r w d id h buf c σ →
  live i r w d id h (buf ++ p) c (file_Write (os_Stdout σ) p σ).2 ∧
  get_sink (file_Write (os_Stdout σ) p σ).2 h = get_sink σ h.
Proof.
  intros (H1&H2&H3&H4&H5&H6&H7&H8).
  assert (r ≠ w) as Hrw by (intros ->; congruence).
  assert (d ≠ w) as Hdw by (intros ->; congruence).
  unfold file_Write. rewrite H1, H3. simpl. split; [|done].
  unfold live. simpl.
  rewrite lookup_insert_eq, !lookup_insert_ne by done.
  by split_and!.
Qed.

Lemma live_copy_step i r w d id h buf c σ k order :
  live i r w d id h buf c σ →
  let σ' := copy_step i k order σ in
  live i r w d id h (drop k buf) (c ++ take k buf) σ' ∧
  sink_data (get_sink σ' h) = sink_data (get_sink σ h) ++ take k buf.
Proof.
  intros (H1&H2&H3&H4&H5&H6&H7&H8). simpl.
  assert (r ≠ w) as Hrw by (intros ->; congruence).
  assert (d ≠ w) as Hdw by (intros ->; congruence).
  assert (r ≠ d) as Hrd by (intros ->; congruence).
  unfold copy_step. rewrite H5. simpl. unfold pipe_Read. rewrite H2, H3.
  destruct k as [|k].
  { simpl. rewrite drop_0, !app_nil_r. by split. }
  destruct buf as [|b buf].
  { simpl. rewrite !app_nil_r. by split. }
  set (chunk := take (S k) (b :: buf)).
  set (σ1 := set_files (<[w := PipeW (drop (S k) (b :: buf))]> (files σ)) σ).
  assert (registered_once Stdout σ1 id h) as Hreg1 by done.
  assert (fwd Stdout σ1 = fwd Stdout σ) as Hf1 by done.
  assert (file_Write (out (fwd Stdout σ1)) chunk σ1 =
            ((len chunk, None),
             set_files (<[d := Regular (c ++ chunk) None]> (files σ1)) σ1)) as Hfw.
  { rewrite Hf1, H6. unfold file_Write. simpl. by rewrite lookup_insert_ne, H4 by done. }
  pose proof (Write_frame Stdout chunk order σ1) as F. cbv zeta in F.
  destruct F as (F1&F2&F3&F4&F5&F6&F7&F8). rewrite Hfw in F8. simpl in F8.
  destruct (Write_registered_once Stdout chunk order σ1 id h Hreg1) as [_ Hd].
  specialize (Hd H8).
  assert ((Write Stdout chunk order σ1).1 = (len chunk, None)) as Hret.
  { by rewrite Write_unfold, Hfw. }
  destruct (Write Stdout chunk order σ1) as [[n e] σ2] eqn:HW. simpl in *.
  injection Hret as -> ->. rewrite decide_True by done.
  split; [|exact Hd].
  unfold live. rewrite F1, F8, F6.
  rewrite lookup_insert_eq, !lookup_insert_ne, lookup_insert_eq by done.
  split_and!; try done.
  - unfold fwd. by rewrite F3.
  - destruct H7 as (m & ? & ?). exists m. unfold fwd. by rewrite F3.
  - pose proof (Write_fails Stdout chunk order σ1 h) as Hfl. rewrite HW in Hfl.
    simpl in Hfl. by rewrite Hfl.
Qed.

Lemma run_live i r w d id h os : ∀ σ buf c,
  live i r w d id h buf c σ → Forall (is_traffic i) os →
  ∃ σ' buf' c',
    run os σ = Some σ' ∧ live i r w d id h buf' c' σ' ∧
    sink_data (get_sink σ' h) ++ buf' = sink_data (get_sink σ h) ++ buf ++ printed os ∧
    c' ++ buf' = c ++ buf ++ printed os.
Proof.
  induction os as [|o os IH]; intros σ buf c Hl Hall.
  - exists σ, buf, c. simpl. by rewrite !app_nil_r.
  - apply Forall_cons in Hall as [Ho Hall].
    destruct o as [| | | |p| |j k order]; simpl in Ho; try done.
    + destruct (live_PrintStdout i r w d id h buf c σ p Hl) as [Hl1 Hs1].
      destruct (IH _ _ _ Hl1 Hall) as (σ' & buf' & c' & Hr & Hl' & E1 & E2).
      exists σ', buf', c'. simpl. split_and!; try done.
      * rewrite E1, Hs1. by rewrite <- !app_assoc.
      * rewrite E2. by rewrite <- !app_assoc.
    + subst j.
      destruct (live_copy_step i r w d id h buf c σ k order Hl) as [Hl1 Hs1].
      destruct (IH _ _ _ Hl1 Hall) as (σ' & buf' & c' & Hr & Hl' & E1 & E2).
      exists σ', buf', c'. simpl. split_and!; try done.
      * rewrite E1, Hs1. rewrite <- !app_assoc. by rewrite (app_assoc (take k buf)), take_drop.
      * rewrite E2. rewrite <- !app_assoc. by rewrite (app_assoc (take k buf)), take_drop.
Qed.

Lemma AddStdoutWriter_live id h d c σ :
  once (fwd Stdout σ) = false → (2 ≤ fd_left σ)%nat →
  os_Stdout σ = Some d → files σ !! d = Some (Regular c None) →
  sink_fails (get_sink σ h) = false →
  ∃ r w, (AddStdoutWriter id h σ).1 = Returned None ∧
         live (length (goroutines σ)) r w d id h [] c (AddStdoutWriter id h σ).2.
Proof.
  intros Hon Hfd Hout Hd Hok. unfold AddStdoutWriter.
  exists (fresh (dom (files σ))), (fresh ({[fresh (dom (files σ))]} ∪ dom (files σ))).
  pose proof (is_fresh (dom (files σ))) as Hr.
  pose proof (is_fresh ({[fresh (dom (files σ))]} ∪ dom (files σ))) as Hw.
  set (r := fresh (dom (files σ))) in *.
  set (w := fresh ({[r]} ∪ dom (files σ))) in *.
  assert (d ∈ dom (files σ)) as Hdd by (apply elem_of_dom; by eexists).
  assert (r ≠ d) as Hrd by (intros ->; done).
  assert (w ≠ d) as Hwd by (intros E; apply Hw; rewrite E; set_solver).
  assert (w ≠ r) as Hwr by (intros E; apply Hw; rewrite E; set_solver).
  rewrite addWriter_unfold. simpl.
  pose proof (once_Do_first_ok Stdout (os_Stdout σ) σ Hon Hfd) as F. simpl in F.
  fold r in F. fold w in F.
  destruct F as (F1&F2&F3&F4&F5&F6&F7&F8&F9&F10&F11).
  rewrite F1, F2. simpl. split; [done|].
  unfold live. simpl. rewrite F4, F6, F9.
  split_and!; try done.
  - rewrite lookup_insert_ne by done. apply lookup_insert_eq.
  - apply lookup_insert_eq.
  - by rewrite !lookup_insert_ne.
  - by apply list_lookup_middle.
  - exists (<[id := h]> ∅). split_and!; [done|apply lookup_insert_eq|].
    intros id' Hid'. destruct (decide (id' = id)) as [|Hne]; [done|].
    by rewrite lookup_insert_ne, lookup_empty in Hid'.
  - unfold get_sink in *. simpl. by rewrite F8.
Qed.

(** X1. From the first successful [AddStdoutWriter] on, whatever is written
    to [os.Stdout] reaches the regular output and the consumer through the
    pipe in order, without loss or duplication: after any mix of writes and
    copy-loop iterations, what the consumer (and the regular output) holds,
    followed by what is still queued in the pipe, is what it held before
    followed by everything written. *)
Theorem stdout_forwarding_is_fifo (id : string) (h : wid) (d : fd) (c : bytes)
    (σ : world) (os : list op) :
  once (fwd Stdout σ) = false → (2 ≤ fd_left σ)%nat →
  os_Stdout σ = Some d → files σ !! d = Some (Regular c None) →
  sink_fails (get_sink σ h) = false →
  Forall (is_traffic (length (goroutines σ))) os →
  ∃ σ' w buf c',
    run (CallAddStdoutWriter id h :: os) σ = Some σ' ∧
    os_Stdout σ' = Some w ∧ files σ' !! w = Some (PipeW buf) ∧
    files σ' !! d = Some (Regular c' None) ∧
    sink_data (get_sink σ' h) ++ buf = sink_data (get_sink σ h) ++ printed os ∧
    c' ++ buf = c ++ printed os.
Proof.
  intros Hon Hfd Hout Hd Hok Hall.
  destruct (AddStdoutWriter_live id h d c σ Hon Hfd Hout Hd Hok) as (r & w & Hret & Hl).
  pose proof (addWriter_sink Stdout (os_Stdout σ) id h σ h) as Hs.
  fold (AddStdoutWriter id h σ) in Hs.
  destruct (run_live _ r w d id h os _ _ _ Hl Hall) as (σ' & buf & c' & Hr & Hl' & E1 & E2).
  exists σ', w, buf, c'. simpl.
  destruct (AddStdoutWriter id h σ) as [o σ1]. simpl in *. subst o.
  destruct Hl' as (L1&_&L3&L4&_). rewrite Hs in E1. by split_and!.
Qed.

Lemma stdout_forwarding_is_fifo_witness :
  ∃ σ' w buf c',
    run [CallAddStdoutWriter "client-1" 7%nat; PrintStdout hello; CopyLoopStep 0 2 [];
         PrintStdout hello; CopyLoopStep 0 3 []] (boot 100) = Some σ' ∧
    os_Stdout σ' = Some w ∧ files σ' !! w = Some (PipeW buf) ∧
    files σ' !! 1%nat = Some (Regular c' None) ∧
    sink_data (get_sink σ' 7%nat) ++ buf = [] ++ hello ++ hello ++ [] ∧
    c' ++ buf = [] ++ hello ++ hello ++ [].
Proof.
  apply (stdout_forwarding_is_fifo "client-1" 7%nat 1%nat [] (boot 100)
           [PrintStdout hello; CopyLoopStep 0 2 []; PrintStdout hello; CopyLoopStep 0 3 []]).
  - reflexivity.
  - simpl. lia.
  - reflexivity.
  - reflexivity.
  - reflexivity.
  - repeat constructor.
Defined.

(** X2. Once the regular output accepts fewer bytes than the copy loop
    offers, the copy loop is over: the registered consumers are still called
    with that chunk, but [io.Copy] returns, the goroutine ends, and no later
    iteration does anything. *)
Theorem copy_loop_ends_on_short_write (s : stream) (i k : nat) (r w d : fd)
    (buf c : bytes) (room : nat) (order : list (string * wid)) (σ : world) :
  goroutines σ !! i = Some (Task s r true) →
  files σ !! r = Some (PipeR w) → files σ !! w = Some (PipeW buf) →
  out (fwd s σ) = Some d → files σ !! d = Some (Regular c (Some room)) →
  (room < length (take k buf))%nat →
  let σ' := copy_step i k order σ in
  goroutines σ' !! i = Some (Task s r false) ∧
  files σ' !! d = Some (Regular (c ++ take room (take k buf)) (Some 0%nat)) ∧
  files σ' !! w = Some (PipeW (drop k buf)) ∧
  (∀ id h, registered_once s σ id h →
     sink_calls (get_sink σ' h) = sink_calls (get_sink σ h) ++ [take k buf]) ∧
  (∀ k' order', copy_step i k' order' σ' = σ').
Proof.
  intros Hg Hr Hw Hout Hd Hroom. simpl.
  assert (d ≠ w) as Hdw by (intros ->; congruence).
  destruct k as [|k]; [simpl in Hroom; lia|].
  destruct buf as [|b buf]; [simpl in Hroom; lia|].
  set (chunk := take (S k) (b :: buf)) in *.
  set (σ1 := set_files (<[w := PipeW (drop (S k) (b :: buf))]> (files σ)) σ).
  assert (fwd s σ1 = fwd s σ) as Hf1 by (by destruct s).
  assert (file_Write (out (fwd s σ1)) chunk σ1 =
            ((Z.of_nat room, Some ErrShortWrite),
             set_files (<[d := Regular (c ++ take room chunk) (Some 0%nat)]> (files σ1)) σ1))
    as Hfw.
  { rewrite Hf1, Hout. unfold file_Write.
    replace (files σ1 !! d) with (Some (Regular c (Some room)))
      by (subst σ1; simpl; by rewrite lookup_insert_ne).
    rewrite decide_False by (by apply Nat.lt_nge). done. }
  pose proof (Write_frame s chunk order σ1) as F. cbv zeta in F.
  destruct F as (F1&F2&F3&F4&F5&F6&F7&F8). rewrite Hfw in F8.
  assert ((Write s chunk order σ1).1 = (Z.of_nat room, None)) as Hret
    by (by rewrite Write_unfold, Hfw).
  assert (copy_step i (S k) order σ =
            warn (WarnCopy ErrShortWrite) (kill i (Write s chunk order σ1).2)) as ->.
  { unfold copy_step. rewrite Hg. simpl. unfold pipe_Read. rewrite Hr, Hw.
    change (Write s _ order _) with (Write s chunk order σ1).
    destruct (Write s chunk order σ1) as [[n e] σ2]. simpl in Hret.
    injection Hret as -> ->. rewrite decide_False; [done|].
    unfold len. intros E. apply Nat2Z.inj in E. rewrite E in Hroom.
    by apply Nat.lt_irrefl in Hroom. }
  assert (goroutines (warn (WarnCopy ErrShortWrite) (kill i (Write s chunk order σ1).2)) !! i =
            Some (Task s r false)) as Hdead.
  { simpl. rewrite F6. simpl. rewrite list_lookup_alter_eq, Hg. done. }
  split_and!.
  - exact Hdead.
  - simpl. rewrite F8. apply lookup_insert_eq.
  - simpl. rewrite F8. simpl. rewrite lookup_insert_ne by done. apply lookup_insert_eq.
  - intros id h Hreg.
    assert (registered_once s σ1 id h) as Hreg1
      by (unfold registered_once; by rewrite Hf1).
    destruct (Write_registered_once s chunk order σ1 id h Hreg1) as [E _].
    exact E.
  - intros k' order'. unfold copy_step. by rewrite Hdead.
Qed.

Lemma copy_loop_ends_on_short_write_witness :
  let σ := (file_Write (Some 4%nat) hello (addWriter Stdout (Some 1%nat) "c" 7%nat cramped).2).2 in
  goroutines (copy_step 0 3 [] σ) !! 0%nat = Some (Task Stdout 3%nat false) ∧
  files (copy_step 0 3 [] σ) !! 1%nat = Some (Regular [Byte.x68] (Some 0%nat)).
Proof.
  set (σ := (file_Write (Some 4%nat) hello
               (addWriter Stdout (Some 1%nat) "c" 7%nat cramped).2).2).
  destruct (copy_loop_ends_on_short_write Stdout 0 3 3%nat 4%nat 1%nat hello [] 1 [] σ)
    as (H1 & H2 & _); try (vm_compute; reflexivity).
  - simpl. lia.
  - split; [exact H1|exact H2].
Defined.

(** What one iteration of the copy loop does to the files, whoever is
    registered: it moves a prefix of the pipe's content to the regular output. *)
Lemma copy_step_moves_prefix (s : stream) (i k : nat) (r w d : fd) (buf c : bytes)
    (order : list (string * wid)) (σ : world) :
  goroutines σ !! i = Some (Task s r true) →
  files σ !! r = Some (PipeR w) → files σ !! w = Some (PipeW buf) →
  out (fwd s σ) = Some d → files σ !! d = Some (Regular c None) →
  files (copy_step i k order σ) !! d = Some (Regular (c ++ take k buf) None) ∧
  files (copy_step i k order σ) !! w = Some (PipeW (drop k buf)).
Proof.
  intros Hg Hr Hw Hout Hd.
  assert (d ≠ w) as Hdw by (intros ->; congruence).
  unfold copy_step. rewrite Hg. simpl. unfold pipe_Read. rewrite Hr, Hw.
  destruct k as [|k].
  { simpl. by rewrite app_nil_r. }
  destruct buf as [|b buf].
  { simpl. by rewrite app_nil_r. }
  set (chunk := take (S k) (b :: buf)).
  set (σ1 := set_files (<[w := PipeW (drop (S k) (b :: buf))]> (files σ)) σ).
  assert (fwd s σ1 = fwd s σ) as Hf1 by (by destruct s).
  assert (file_Write (out (fwd s σ1)) chunk σ1 =
            ((len chunk, None),
             set_files (<[d := Regular (c ++ chunk) None]> (files σ1)) σ1)) as Hfw.
  { rewrite Hf1, Hout. unfold file_Write.
    by replace (files σ1 !! d) with (Some (Regular c None))
      by (subst σ1; simpl; by rewrite lookup_insert_ne). }
  pose proof (Write_frame s chunk order σ1) as F. cbv zeta in F.
  destruct F as (_&_&_&_&_&_&_&F8). rewrite Hfw in F8.
  assert ((Write s chunk order σ1).1 = (len chunk, None)) as Hret
    by (by rewrite Write_unfold, Hfw).
  change (Write s _ order _) with (Write s chunk order σ1).
  destruct (Write s chunk order σ1) as [[n e] σ2]. simpl in Hret, F8.
  injection Hret as -> ->. rewrite decide_True by done. rewrite F8.
  split; [apply lookup_insert_eq|].
  rewrite lookup_insert_ne by done. apply lookup_insert_eq.
Qed.

(** X3. Delivery is decided when the copy loop runs, not when the bytes are
    written: bytes that are still queued in the pipe when a consumer is
    removed reach the regular output but are never handed to that consumer. *)
Theorem removed_consumer_misses_queued_bytes (i k : nat) (r w d : fd) (id : string)
    (h : wid) (buf c : bytes) (order : list (string * wid)) (σ : world) :
  live i r w d id h buf c σ →
  let σ' := copy_step i k order (RemoveStdoutWriter id σ) in
  get_sink σ' h = get_sink σ h ∧
  files σ' !! d = Some (Regular (c ++ take k buf) None) ∧
  files σ' !! w = Some (PipeW (drop k buf)).
Proof.
  intros (H1&H2&H3&H4&H5&H6&H7&H8). simpl. unfold RemoveStdoutWriter.
  split.
  - rewrite copy_step_sink; [apply removeWriter_sink|].
    intros t Ht. unfold removeWriter in Ht. simpl in Ht. rewrite H5 in Ht.
    injection Ht as <-. exact (removeWriter_unregisters Stdout id h σ H7).
  - by apply (copy_step_moves_prefix Stdout i k r w d buf c).
Qed.

Lemma removed_consumer_misses_queued_bytes_witness :
  let σ := (file_Write (Some 4%nat) hello
              (addWriter Stdout (Some 1%nat) "c" 7%nat (boot 100)).2).2 in
  live 0 3%nat 4%nat 1%nat "c" 7%nat hello [] σ ∧
  sink_calls (get_sink (copy_step 0 3 [] (RemoveStdoutWriter "c" σ)) 7%nat) = [] ∧
  files (copy_step 0 3 [] (RemoveStdoutWriter "c" σ)) !! 1%nat = Some (Regular hello None).
Proof.
  set (σ := (file_Write (Some 4%nat) hello
               (addWriter Stdout (Some 1%nat) "c" 7%nat (boot 100)).2).2).
  assert (live 0 3%nat 4%nat 1%nat "c" 7%nat hello [] σ) as Hl.
  { unfold live. split_and!; try (vm_compute; reflexivity).
    exists (<["c" := 7%nat]> ∅). split_and!; [vm_compute; reflexivity|apply lookup_insert_eq|].
    intros id' Hid'. destruct (decide (id' = "c")) as [|Hne]; [done|].
    by rewrite lookup_insert_ne, lookup_empty in Hid'. }
  simpl. split; [exact Hl|].
  destruct (removed_consumer_misses_queued_bytes 0 3 3%nat 4%nat 1%nat "c" 7%nat hello []
              [] σ Hl) as (E1 & E2 & _).
  split; [by rewrite E1|exact E2].
Defined.

(** X4. Conversely, a consumer registered after bytes were written to
    [os.Stdout], but before the copy loop has taken them out of the pipe,
    receives them. *)
Theorem late_consumer_receives_queued_bytes (i k : nat) (r w d : fd) (id : string)
    (h : wid) (buf c : bytes) (order : list (string * wid)) (σ : world) :
  os_Stdout σ = Some w →
  files σ !! r = Some (PipeR w) → files σ !! w = Some (PipeW buf) →
  files σ !! d = Some (Regular c None) →
  goroutines σ !! i = Some (Task Stdout r true) →
  once (fwd Stdout σ) = true → is_Some (writers (fwd Stdout σ)) →
  out (fwd Stdout σ) = Some d →
  unused_elsewhere Stdout σ id h → sink_fails (get_sink σ h) = false →
  let σ' := copy_step i k order (AddStdoutWriter id h σ).2 in
  sink_data (get_sink σ' h) = sink_data (get_sink σ h) ++ take k buf ∧
  files σ' !! d = Some (Regular (c ++ take k buf) None).
Proof.
  intros H1 H2 H3 H4 H5 Hon [m Hm] H6 Hun Hok. cbv zeta. unfold AddStdoutWriter.
  pose proof (addWriter_done Stdout (os_Stdout σ) id h σ m Hon Hm) as Hadd.
  pose proof (addWriter_registers Stdout (os_Stdout σ) id h σ _ Hadd Hun) as Hreg.
  pose proof (addWriter_sink Stdout (os_Stdout σ) id h σ h) as Hs.
  rewrite Hadd in *. cbn [snd] in *.
  set (σA := set_fwd Stdout (Forwarder (out (fwd Stdout σ)) (Some (<[id := h]> m)) true) σ) in *.
  assert (live i r w d id h buf c σA) as Hl.
  { unfold live. rewrite Hs. by split_and!. }
  destruct (live_copy_step i r w d id h buf c σA k order Hl) as [(_&_&_&L4&_) Hd].
  split; [|exact L4]. rewrite <- Hs. exact Hd.
Qed.

Lemma late_consumer_receives_queued_bytes_witness :
  let σ := (file_Write (Some 4%nat) hello
              (addWriter Stdout (Some 1%nat) "c" 7%nat (boot 100)).2).2 in
  unused_elsewhere Stdout σ "late" 9%nat ∧
  sink_data (get_sink (copy_step 0 3 [] (AddStdoutWriter "late" 9%nat σ).2) 9%nat) = hello.
Proof.
  set (σ := (file_Write (Some 4%nat) hello
               (addWriter Stdout (Some 1%nat) "c" 7%nat (boot 100)).2).2).
  assert (writers (fwd Stdout σ) = Some (<["c" := 7%nat]> ∅)) as Hm
    by (vm_compute; reflexivity).
  assert (unused_elsewhere Stdout σ "late" 9%nat) as Hun.
  { intros m id' Hm' Hid'. rewrite Hm in Hm'. injection Hm' as <-.
    destruct (decide (id' = "c")) as [->|Hne].
    - rewrite lookup_insert_eq in Hid'. discriminate Hid'.
    - by rewrite lookup_insert_ne, lookup_empty in Hid'. }
  cbv zeta. split; [exact Hun|].
  refine (proj1 (late_consumer_receives_queued_bytes 0 3 3%nat 4%nat 1%nat "late" 9%nat
                   hello [] [] σ _ _ _ _ _ _ _ _ Hun _)).
  - vm_compute; reflexivity.
  - vm_compute; reflexivity.
  - vm_compute; reflexivity.
  - vm_compute; reflexivity.
  - vm_compute; reflexivity.
  - vm_compute; reflexivity.
  - rewrite Hm. by eexists.
  - vm_compute; reflexivity.
  - vm_compute; reflexivity.
Defined.

(** ** Registering and removing, composed *)

(** What registering and then removing the same id amounts to, for one
    forwarder with its pair of exported functions. *)
Definition add_then_remove (add : string → wid → world → outcome * world)
    (rm : string → world → world) (s : stream) : Prop :=
  ∀ id w σ,
    once (fwd s σ) = true → is_Some (writers (fwd s σ)) →
    rm id (add id w σ).2 = rm id σ ∧
    ((∀ m, writers (fwd s σ) = Some m → m !! id = None) → rm id (add id w σ).2 = σ).

Lemma addWriter_then_removeWriter s (stdof : world → option fd) :
  add_then_remove (λ id w σ, addWriter s (stdof σ) id w σ) (removeWriter s) s.
Proof.
  intros id w σ Hon [m Hm].
  assert (removeWriter s id (addWriter s (stdof σ) id w σ).2 = removeWriter s id σ) as E.
  { rewrite (addWriter_done s (stdof σ) id w σ m Hon Hm). simpl. unfold removeWriter.
    rewrite fwd_set_fwd_eq, set_fwd_set_fwd. simpl.
    by rewrite delete_insert_eq, Hm, Hon. }
  split; [exact E|]. intros Hno. rewrite E.
  by destruct (removeWriter_contract s id σ) as (_ & _ & _ & ->).
Qed.

(** X5. Once a forwarder's gate has fired, registering a writer under an id
    and then removing that id is the same as removing the id alone: the
    process is left without any writer under that id (a writer that was
    there before is not restored), and exactly as it was if the id was free. *)
Theorem register_then_remove :
  add_then_remove AddStdoutWriter RemoveStdoutWriter Stdout ∧
  add_then_remove AddStderrWriter RemoveStderrWriter Stderr.
Proof.
  split.
  - exact (addWriter_then_removeWriter Stdout os_Stdout).
  - exact (addWriter_then_removeWriter Stderr os_Stderr).
Qed.

Lemma register_then_remove_witness :
  let σ := (AddStdoutWriter "a" 7%nat (boot 100)).2 in
  once (fwd Stdout σ) = true ∧ is_Some (writers (fwd Stdout σ)) ∧
  RemoveStdoutWriter "b" (AddStdoutWriter "b" 8%nat σ).2 = RemoveStdoutWriter "b" σ.
Proof.
  set (σ := (AddStdoutWriter "a" 7%nat (boot 100)).2).
  assert (once (fwd Stdout σ) = true) as H1 by (vm_compute; reflexivity).
  assert (is_Some (writers (fwd Stdout σ))) as H2.
  { exists (<["a" := 7%nat]> ∅). vm_compute; reflexivity. }
  cbv zeta. split_and!; [exact H1|exact H2|].
  destruct register_then_remove as [Hout _].
  exact (proj1 (Hout "b" 8%nat σ H1 H2)).
Defined.

(** What it means for registrations under two different ids to commute. *)
Definition registrations_commute (add : string → wid → world → outcome * world)
    : Prop :=
  ∀ id1 id2 w1 w2 σ,
    id1 ≠ id2 →
    (add id1 w1 σ).1 = Returned None → (add id2 w2 σ).1 = Returned None →
    add id2 w2 (add id1 w1 σ).2 = add id1 w1 (add id2 w2 σ).2.

Lemma addWriter_commute s (stdof : world → option fd) :
  registrations_commute (λ id w σ, addWriter s (stdof σ) id w σ).
Proof.
  intros id1 id2 w1 w2 σ Hne H1 H2.
  assert (∀ ida wa idb wb, ida ≠ idb →
            (addWriter s (stdof σ) ida wa σ).1 = Returned None →
            ∃ σa m0,
              once_Do s (stdof σ) σ = (None, σa) ∧ writers (fwd s σa) = Some m0 ∧
              addWriter s (stdof (addWriter s (stdof σ) ida wa σ).2) idb wb
                  (addWriter s (stdof σ) ida wa σ).2 =
                (Returned None,
                 set_fwd s (Forwarder (out (fwd s σa))
                              (Some (<[idb := wb]> (<[ida := wa]> m0))) true) σa)) as Hboth.
  { intros ida wa idb wb _ Hret.
    pose proof (addWriter_once s (stdof σ) ida wa σ) as Hon.
    pose proof (addWriter_unfold s (stdof σ) ida wa σ) as Hu. cbv zeta in Hu.
    destruct (once_Do s (stdof σ) σ) as [[e|] σa]; cbn [fst snd] in Hu.
    { by rewrite Hu in Hret. }
    destruct (writers (fwd s σa)) as [m0|] eqn:Hm0; [|by rewrite Hu in Hret].
    exists σa, m0. split_and!; [done|done|]. rewrite Hu in *. cbn [snd] in *.
    rewrite (addWriter_done s _ idb wb _ (<[ida := wa]> m0));
      [|exact Hon|by rewrite fwd_set_fwd_eq].
    by rewrite fwd_set_fwd_eq, set_fwd_set_fwd. }
  destruct (Hboth id1 w1 id2 w2 Hne H1) as (σa & m0 & Ea & Hm & ->).
  destruct (Hboth id2 w2 id1 w1 (not_eq_sym Hne) H2) as (σb & m1 & Eb & Hm' & ->).
  rewrite Ea in Eb. injection Eb as <-. rewrite Hm in Hm'. injection Hm' as <-.
  by rewrite (insert_insert_ne m0 id1 id2).
Qed.

(** X6. Registrations under different ids commute: when each of two
    registrations on a forwarder succeeds from a state, doing both in either
    order gives the same result and the same process state. *)
Theorem registrations_in_either_order :
  registrations_commute AddStdoutWriter ∧ registrations_commute AddStderrWriter.
Proof.
  split.
  - exact (addWriter_commute Stdout os_Stdout).
  - exact (addWriter_commute Stderr os_Stderr).
Qed.

Lemma registrations_in_either_order_witness :
  (AddStdoutWriter "a" 7%nat (boot 100)).1 = Returned None ∧
  (AddStdoutWriter "b" 8%nat (boot 100)).1 = Returned None ∧
  AddStdoutWriter "b" 8%nat (AddStdoutWriter "a" 7%nat (boot 100)).2 =
    AddStdoutWriter "a" 7%nat (AddStdoutWriter "b" 8%nat (boot 100)).2.
Proof.
  assert ((AddStdoutWriter "a" 7%nat (boot 100)).1 = Returned None) as H1
    by (vm_compute; reflexivity).
  assert ((AddStdoutWriter "b" 8%nat (boot 100)).1 = Returned None) as H2
    by (vm_compute; reflexivity).
  split_and!; [exact H1|exact H2|].
  destruct registrations_in_either_order as [Hout _].
  exact (Hout "a" "b" 7%nat 8%nat (boot 100) ltac:(done) H1 H2).
Defined.

(** ** The captured handle *)

Lemma step_keeps_out s o σ σ' :
  once (fwd s σ) = true → step o σ = Some σ' →
  once (fwd s σ') = true ∧ out (fwd s σ') = out (fwd s σ).
Proof.
  intros Hon Hstep.
  assert (∀ dest std id w σ1,
            addWriter dest std id w σ = (Returned None, σ1) ∨
            (∃ e, addWriter dest std id w σ = (Returned (Some e), σ1)) →
            once (fwd s σ1) = true ∧ out (fwd s σ1) = out (fwd s σ)) as Hadd.
  { intros dest std id w σ1 Hr. destruct (decide (dest = s)) as [->|Hne].
    - rewrite addWriter_unfold, once_Do_done in Hr by done. simpl in Hr.
      destruct (writers (fwd s σ)) as [m|]; [|by destruct Hr as [?|[? ?]]].
      destruct Hr as [Hr|[e Hr]]; [|done]. injection Hr as <-.
      by rewrite fwd_set_fwd_eq.
    - apply ne_other in Hne as ->.
      pose proof (addWriter_foreign dest std id w σ) as (F & _).
      destruct Hr as [Hr|[e Hr]]; rewrite Hr in F; simpl in F; by rewrite F. }
  assert (∀ s' id, once (fwd s (removeWriter s' id σ)) = true ∧
                   out (fwd s (removeWriter s' id σ)) = out (fwd s σ)) as Hrm.
  { intros s' id. unfold removeWriter. destruct (decide (s' = s)) as [->|Hne].
    - by rewrite fwd_set_fwd_eq.
    - by rewrite fwd_set_fwd_ne. }
  assert (∀ σ1, stdoutForwarder σ1 = stdoutForwarder σ → stderrForwarder σ1 = stderrForwarder σ →
            once (fwd s σ1) = true ∧ out (fwd s σ1) = out (fwd s σ)) as Hfr.
  { intros σ1 E1 E2. by replace (fwd s σ1) with (fwd s σ) by (by destruct s). }
  destruct o as [id w|id w|id|id|p|p|i k order]; simpl in Hstep.
  - unfold AddStdoutWriter in Hstep.
    destruct (addWriter Stdout (os_Stdout σ) id w σ) as [[[e|]|] σ1] eqn:E; [..|done];
      injection Hstep as <-; eapply Hadd; rewrite E; eauto.
  - unfold AddStderrWriter in Hstep.
    destruct (addWriter Stderr (os_Stderr σ) id w σ) as [[[e|]|] σ1] eqn:E; [..|done];
      injection Hstep as <-; eapply Hadd; rewrite E; eauto.
  - injection Hstep as <-. apply Hrm.
  - injection Hstep as <-. apply Hrm.
  - injection Hstep as <-.
    pose proof (file_Write_frame (os_Stdout σ) p σ) as F. simpl in F. apply Hfr; tauto.
  - injection Hstep as <-.
    pose proof (file_Write_frame (os_Stderr σ) p σ) as F. simpl in F. apply Hfr; tauto.
  - injection Hstep as <-.
    pose proof (copy_step_frame i k order σ) as F. simpl in F. apply Hfr; tauto.
Qed.

Lemma run_keeps_out s os : ∀ σ σ',
  once (fwd s σ) = true → run os σ = Some σ' →
  once (fwd s σ') = true ∧ out (fwd s σ') = out (fwd s σ).
Proof.
  induction os as [|o os IH]; intros σ σ' Hon Hrun; simpl in Hrun.
  - by injection Hrun as <-.
  - destruct (step o σ) as [σ1|] eqn:Hstep; [|done].
    destruct (step_keeps_out s o σ σ1 Hon Hstep) as [Hon1 Ho1].
    destruct (IH σ1 σ' Hon1 Hrun) as [Hon' Ho']. split; [done|]. by rewrite Ho'.
Qed.

(** X7. The regular output of a forwarder is the value the global handle had
    when the forwarder was first registered on ([os.Stdout] for
    [AddStdoutWriter], [os.Stderr] for [AddStderrWriter]), and nothing the
    process does afterwards changes it. *)
Theorem captured_handle_is_immutable (id : string) (w : wid) (os : list op)
    (σ σ' : world) :
  (once (fwd Stdout σ) = false →
   run (CallAddStdoutWriter id w :: os) σ = Some σ' →
   out (stdoutForwarder σ') = os_Stdout σ) ∧
  (once (fwd Stderr σ) = false →
   run (CallAddStderrWriter id w :: os) σ = Some σ' →
   out (stderrForwarder σ') = os_Stderr σ).
Proof.
  assert (∀ s std, once (fwd s σ) = false →
            once (fwd s (addWriter s std id w σ).2) = true ∧
            out (fwd s (addWriter s std id w σ).2) = std) as Hfirst.
  { intros s std Hon. split; [apply addWriter_once|].
    rewrite addWriter_unfold. simpl.
    destruct (decide (2 ≤ fd_left σ)%nat) as [Hfd|Hfd].
    - pose proof (once_Do_first_ok s std σ Hon Hfd) as F. simpl in F.
      destruct F as (F1&F2&_). rewrite F1, F2. simpl. by rewrite fwd_set_fwd_eq.
    - pose proof (once_Do_first_fail s std σ Hon ltac:(lia)) as F. simpl in F.
      destruct F as (F1&F2&_). rewrite F1. simpl. by rewrite F2. }
  split; intros Hon Hrun; simpl in Hrun.
  - unfold AddStdoutWriter in Hrun.
    destruct (Hfirst Stdout (os_Stdout σ) Hon) as [H1 H2].
    destruct (addWriter Stdout (os_Stdout σ) id w σ) as [[e|] σ1]; [|done].
    simpl in *. destruct (run_keeps_out Stdout os σ1 σ' H1 Hrun) as [_ E].
    simpl in E. by rewrite E.
  - unfold AddStderrWriter in Hrun.
    destruct (Hfirst Stderr (os_Stderr σ) Hon) as [H1 H2].
    destruct (addWriter Stderr (os_Stderr σ) id w σ) as [[e|] σ1]; [|done].
    simpl in *. destruct (run_keeps_out Stderr os σ1 σ' H1 Hrun) as [_ E].
    simpl in E. by rewrite E.
Qed.

Lemma captured_handle_is_immutable_witness :
  ∃ σ', run [CallAddStderrWriter "e" 9%nat; CallAddStdoutWriter "a" 7%nat;
             CallRemoveStderrWriter "e"; PrintStderr hello] (boot 100) = Some σ' ∧
        out (stderrForwarder σ') = Some 2%nat.
Proof.
  eexists. split; [vm_compute; reflexivity|].
  refine (proj2 (captured_handle_is_immutable "e" 9%nat
                   [CallAddStdoutWriter "a" 7%nat; CallRemoveStderrWriter "e";
                    PrintStderr hello] (boot 100) _) _ _).
  - reflexivity.
  - vm_compute; reflexivity.
Defined.

(** * testutils: merging coverage files into the Go cover profile

    Shallow embedding of [internal/testutils/coverage.go].  The three
    package-level variables are a record that the functions thread through;
    the file system is a finite map from paths to files; [os.Args] is an
    argument of the function that reads it. *)

Module testutils.

(** [var goCoverProfile string; coveragesToMerge []string; onceCovFile sync.Once]. *)
Record pkg := Pkg {
  goCoverProfile : string;
  coveragesToMerge : list string;
  onceCovFile : bool
}.

Definition zero_pkg : pkg := Pkg "" [] false.

Inductive errno := ENOENT | EACCES | ENOSPC.

Inductive cov_error :=
  | CantOpenPython (e : errno)   (* "can't open python coverage file named: %v" *)
  | CantOpenGolang (e : errno)   (* "can't open golang cover profile file: %v" *)
  | CantWriteGolang (e : errno). (* "can't write to golang cover profile file: %v" *)

(** A file: its content, whether it may be read and written, and how many
    more bytes the device takes ([None]: no limit). *)
Record fsfile := FsFile {
  f_data : bytes;
  f_readable : bool;
  f_writable : bool;
  f_room : option nat
}.

(** [strings.HasPrefix]. *)
Fixpoint HasPrefix (s prefix : string) {struct prefix} : bool :=
  match prefix with
  | EmptyString => true
  | String c prefix' =>
      match s with
      | EmptyString => false
      | String d s' => if decide (c = d) then HasPrefix s' prefix' else false
      end
  end.

Fixpoint string_drop (n : nat) (s : string) : string :=
  match n, s with
  | O, _ => s
  | S _, EmptyString => EmptyString
  | S n', String _ s' => string_drop n' s'
  end.

(** [strings.TrimPrefix]. *)
Definition TrimPrefix (s prefix : string) : string :=
  if HasPrefix s prefix then string_drop (String.length prefix) s else s.

Definition coverprofile_flag : string := "-test.coverprofile=".

(** [func testCoverageFile() string], with [os.Args] as argument. *)
Fixpoint testCoverageFile (args : list string) : string :=
  match args with
  | [] => ""
  | arg :: rest =>
      if negb (HasPrefix arg coverprofile_flag) then testCoverageFile rest
      else TrimPrefix arg coverprofile_flag
  end.

(** [func AddCoverageFile(cov string)]; [args] is [os.Args] at the time of the call. *)
Definition AddCoverageFile (args : list string) (cov : string) (st : pkg) : pkg :=
  let st1 :=
    if onceCovFile st then st
    else Pkg (testCoverageFile args) (coveragesToMerge st) true in
  Pkg (goCoverProfile st1) (coveragesToMerge st1 ++ [cov]) (onceCovFile st1).

(** [os.ReadFile]: the empty path names no file. *)
Definition os_ReadFile (name : string) (fs : gmap string fsfile) : bytes + errno :=
  if decide (name = "") then inr ENOENT
  else match fs !! name with
       | None => inr ENOENT
       | Some f => if f_readable f then inl (f_data f) else inr EACCES
       end.

(** [os.OpenFile(name, os.O_APPEND|os.O_WRONLY, 0600)]: without [O_CREATE] a
    missing file is an error. *)
Definition os_OpenFile_append (name : string) (fs : gmap string fsfile) : option errno :=
  if decide (name = "") then Some ENOENT
  else match fs !! name with
       | None => Some ENOENT
       | Some f => if f_writable f then None else Some EACCES
       end.

(** [f.Write(d)] on a file opened for appending. *)
Definition append_Write (name : string) (d : bytes) (fs : gmap string fsfile)
  : option errno * gmap string fsfile :=
  match fs !! name with
  | None => (Some ENOENT, fs)
  | Some f =>
      match f_room f with
      | None =>
          (None, <[name := FsFile (f_data f ++ d) (f_readable f) (f_writable f) None]> fs)
      | Some k =>
          if decide (length d ≤ k)%nat then
            (None, <[name := FsFile (f_data f ++ d) (f_readable f) (f_writable f)
                                    (Some (k - length d)%nat)]> fs)
          else
            (Some ENOSPC, <[name := FsFile (f_data f ++ take k d) (f_readable f) (f_writable f)
                                           (Some 0%nat)]> fs)
      end
  end.

(** [func appendToFile(main, add string) error]. *)
Definition appendToFile (main add : string) (fs : gmap string fsfile)
  : option cov_error * gmap string fsfile :=
  match os_ReadFile add fs with
  | inr e => (Some (CantOpenPython e), fs)
  | inl d =>
      match os_OpenFile_append main fs with
      | Some e => (Some (CantOpenGolang e), fs)
      | None =>
          match append_Write main d fs with
          | (Some e, fs') => (Some (CantWriteGolang e), fs')
          | (None, fs') => (None, fs')
          end
      end
  end.

(** The loop of [MergeCoverages]; [log.Fatalf] ends the process, so the
    first error is the result. *)
Fixpoint merge_loop (main : string) (covs : list string) (fs : gmap string fsfile)
  : option cov_error * gmap string fsfile :=
  match covs with
  | [] => (None, fs)
  | cov :: rest =>
      match appendToFile main cov fs with
      | (Some e, fs') => (Some e, fs')
      | (None, fs') => merge_loop main rest fs'
      end
  end.

(** [func MergeCoverages()]. *)
Definition MergeCoverages (st : pkg) (fs : gmap string fsfile)
  : option cov_error * gmap string fsfile :=
  merge_loop (goCoverProfile st) (coveragesToMerge st) fs.

(** Successive calls of [AddCoverageFile], each with the [os.Args] of its time. *)
Definition AddCoverageFiles (calls : list (list string * string)) (st : pkg) : pkg :=
  foldl (λ st c, AddCoverageFile c.1 c.2 st) st calls.

(** The content of [name], when it is a file that can be read. *)
Definition readable_data (fs : gmap string fsfile) (name : string) : option bytes :=
  match os_ReadFile name fs with inl d => Some d | inr _ => None end.

Lemma HasPrefix_app p t : HasPrefix (p +:+ t) p = true.
Proof. induction p as [|c p IH]; simpl; [done|]. by rewrite decide_True. Qed.

Lemma string_drop_app p t : string_drop (String.length p) (p +:+ t) = t.
Proof. induction p as [|c p IH]; simpl; [by destruct t|exact IH]. Qed.

Lemma TrimPrefix_app p t : TrimPrefix (p +:+ t) p = t.
Proof. unfold TrimPrefix. by rewrite HasPrefix_app, string_drop_app. Qed.

Lemma HasPrefix_split s p : HasPrefix s p = true → s = p +:+ TrimPrefix s p.
Proof.
  unfold TrimPrefix. intros H. rewrite H. revert s H.
  induction p as [|c p IH]; intros s H; simpl in *; [by destruct s|].
  destruct s as [|d s]; [done|]. case_decide; [|done]. subst.
  change (String d p +:+ ?x) with (String d (p +:+ x)). f_equal. by apply IH.
Qed.

Lemma testCoverageFile_cons a rest :
  testCoverageFile (a :: rest) =
    if HasPrefix a coverprofile_flag then TrimPrefix a coverprofile_flag
    else testCoverageFile rest.
Proof.
  change (testCoverageFile (a :: rest)) with
    (if negb (HasPrefix a coverprofile_flag) then testCoverageFile rest
     else TrimPrefix a coverprofile_flag).
  by destruct (HasPrefix a coverprofile_flag).
Qed.

(** X8. [testCoverageFile] returns what follows ["-test.coverprofile="] in
    the first argument that starts with it, and the empty string when no
    argument does; a non-empty result always comes from such an argument. *)
Theorem testCoverageFile_first_match (pre post : list string) (v : string) :
  Forall (λ a, HasPrefix a coverprofile_flag = false) pre →
  testCoverageFile (pre ++ (coverprofile_flag +:+ v) :: post) = v ∧
  testCoverageFile pre = "" ∧
  (∀ args, testCoverageFile args ≠ "" →
           (coverprofile_flag +:+ testCoverageFile args) ∈ args).
Proof.
  intros Hpre. split_and!.
  - induction Hpre as [|a pre Ha _ IH].
    + rewrite app_nil_l, testCoverageFile_cons, HasPrefix_app. apply TrimPrefix_app.
    + by rewrite <- app_comm_cons, testCoverageFile_cons, Ha.
  - induction Hpre as [|a pre Ha _ IH]; [done|].
    by rewrite testCoverageFile_cons, Ha.
  - intros args. induction args as [|a args IH]; [done|].
    rewrite testCoverageFile_cons.
    destruct (HasPrefix a coverprofile_flag) eqn:Ha.
    + intros _. rewrite <- (HasPrefix_split _ _ Ha). by left.
    + intros Hne. right. by apply IH.
Qed.

Lemma testCoverageFile_first_match_witness :
  testCoverageFile ["adsys.test"; "-test.v"; "-test.coverprofile=/tmp/go.cov";
                    "-test.coverprofile=other"] = "/tmp/go.cov".
Proof.
  refine (proj1 (testCoverageFile_first_match ["adsys.test"; "-test.v"]
                   ["-test.coverprofile=other"] "/tmp/go.cov" _)).
  repeat constructor.
Defined.

(** X9. [AddCoverageFile] records the files in call order, and reads the
    cover profile name from the arguments of the first call only: what
    [os.Args] holds at later calls plays no role. *)
Theorem AddCoverageFiles_in_order (calls : list (list string * string)) (st : pkg) :
  coveragesToMerge (AddCoverageFiles calls st) = coveragesToMerge st ++ calls.*2 ∧
  goCoverProfile (AddCoverageFiles calls st) =
    (if onceCovFile st then goCoverProfile st
     else match calls with
          | [] => goCoverProfile st
          | c :: _ => testCoverageFile c.1
          end) ∧
  onceCovFile (AddCoverageFiles calls st) = onceCovFile st || bool_decide (calls ≠ []).
Proof.
  revert st. unfold AddCoverageFiles.
  induction calls as [|[args cov] calls IH]; intros st.
  - simpl. rewrite app_nil_r, orb_false_r. by destruct (onceCovFile st).
  - cbn [foldl fst snd]. destruct (IH (AddCoverageFile args cov st)) as (E1 & E2 & E3).
    rewrite E1, E2, E3. rewrite (bool_decide_eq_true_2 (_ :: _ ≠ [])) by done.
    rewrite orb_true_r. unfold AddCoverageFile.
    destruct (onceCovFile st) eqn:Ho; simpl; rewrite ?Ho, <- app_assoc; by split_and!.
Qed.

(** The room a device has left after [n] more bytes. *)
Definition shrink (room : option nat) (n : nat) : option nat :=
  (λ k, (k - n)%nat) <$> room.

Definition fits (room : option nat) (n : nat) : Prop :=
  match room with None => True | Some k => (n ≤ k)%nat end.

Lemma readable_data_insert_ne fs main f c :
  c ≠ main → readable_data (<[main := f]> fs) c = readable_data fs c.
Proof.
  intros Hne. unfold readable_data, os_ReadFile. by rewrite lookup_insert_ne.
Qed.

Lemma appendToFile_good main cov fs data rd room d :
  main ≠ "" → fs !! main = Some (FsFile data rd true room) →
  readable_data fs cov = Some d → fits room (length d) →
  appendToFile main cov fs =
    (None, <[main := FsFile (data ++ d) rd true (shrink room (length d))]> fs).
Proof.
  intros Hne Hm Hr Hfit. unfold appendToFile.
  unfold readable_data in Hr. destruct (os_ReadFile cov fs) as [d'|]; [|done].
  injection Hr as ->. unfold os_OpenFile_append. rewrite decide_False by done.
  rewrite Hm. simpl. unfold append_Write. rewrite Hm. simpl.
  destruct room as [k|]; simpl in *; [|done]. by rewrite decide_True.
Qed.

Lemma readable_Forall2_insert fs main f covs ds :
  Forall (λ c, c ≠ main) covs →
  Forall2 (λ c d, readable_data fs c = Some d) covs ds →
  Forall2 (λ c d, readable_data (<[main := f]> fs) c = Some d) covs ds.
Proof.
  intros Hn H. induction H as [|c d covs ds Hc H IH]; [constructor|].
  apply Forall_cons in Hn as [Hcm Hn]. constructor; [|by apply IH].
  by rewrite readable_data_insert_ne.
Qed.

Lemma merge_loop_good main rd covs : ∀ fs ds rest data room,
  main ≠ "" → fs !! main = Some (FsFile data rd true room) →
  Forall (λ c, c ≠ main) covs →
  Forall2 (λ c d, readable_data fs c = Some d) covs ds →
  fits room (length (concat ds)) →
  merge_loop main (covs ++ rest) fs =
    merge_loop main rest
      (<[main := FsFile (data ++ concat ds) rd true (shrink room (length (concat ds)))]> fs).
Proof.
  induction covs as [|c covs IH]; intros fs ds rest data room Hne Hm Hnm Hrd Hfit.
  - apply Forall2_nil_inv_l in Hrd as ->. simpl. rewrite app_nil_r.
    rewrite insert_id; [done|]. rewrite Hm. destruct room; simpl; [|done].
    by rewrite Nat.sub_0_r.
  - apply Forall2_cons_inv_l in Hrd as (d & ds' & Hd & Hrd & ->).
    apply Forall_cons in Hnm as [Hc Hnm].
    simpl in Hfit. rewrite length_app in Hfit.
    assert (fits room (length d)) as Hfd by (destruct room; simpl in *; [lia|done]).
    simpl. rewrite (appendToFile_good main c fs data rd room d) by done.
    rewrite (IH _ ds' rest (data ++ d) (shrink room (length d))); try done.
    + rewrite insert_insert_eq, <- app_assoc, length_app.
      destruct room; simpl; [|done]. do 4 f_equal. lia.
    + apply lookup_insert_eq.
    + by apply readable_Forall2_insert.
    + destruct room; simpl in *; [lia|done].
Qed.

(** X10. When the cover profile exists, is writable and has room, and every
    recorded coverage file is a readable file other than the profile,
    [MergeCoverages] succeeds and its whole effect is to append the contents
    of the recorded files, in the order they were recorded, to the profile. *)
Theorem MergeCoverages_appends_in_order (st : pkg) (fs : gmap string fsfile)
    (data : bytes) (rd : bool) (room : option nat) (ds : list bytes) :
  goCoverProfile st ≠ "" →
  fs !! goCoverProfile st = Some (FsFile data rd true room) →
  Forall (λ c, c ≠ goCoverProfile st) (coveragesToMerge st) →
  Forall2 (λ c d, readable_data fs c = Some d) (coveragesToMerge st) ds →
  fits room (length (concat ds)) →
  MergeCoverages st fs =
    (None,
     <[goCoverProfile st :=
         FsFile (data ++ concat ds) rd true (shrink room (length (concat ds)))]> fs).
Proof.
  intros Hne Hm Hnm Hrd Hfit. unfold MergeCoverages.
  rewrite <- (app_nil_r (coveragesToMerge st)).
  by rewrite (merge_loop_good _ rd _ fs ds [] data room).
Qed.

(** A file system with a Go cover profile and two Python coverage files. *)
Definition cov_fs : gmap string fsfile :=
  {[ "go.cov" := FsFile [Byte.x67] true true None;
     "a.cov" := FsFile [Byte.x61] true false None;
     "b.cov" := FsFile [Byte.x62] true false None ]}.

Definition cov_st : pkg :=
  AddCoverageFiles [(["t"; "-test.coverprofile=go.cov"], "a.cov"); (["t"], "b.cov")] zero_pkg.

Lemma MergeCoverages_appends_in_order_witness :
  (MergeCoverages cov_st cov_fs).1 = None ∧
  f_data <$> ((MergeCoverages cov_st cov_fs).2 !! "go.cov") =
    Some [Byte.x67; Byte.x61; Byte.x62].
Proof.
  assert (goCoverProfile cov_st = "go.cov") as Hp by reflexivity.
  assert (coveragesToMerge cov_st = ["a.cov"; "b.cov"]) as Hc by reflexivity.
  rewrite (MergeCoverages_appends_in_order cov_st cov_fs [Byte.x67] true None
             [[Byte.x61]; [Byte.x62]]).
  - split; [done|]. rewrite Hp. simpl. by rewrite lookup_insert_eq.
  - by rewrite Hp.
  - rewrite Hp. reflexivity.
  - rewrite Hp, Hc. by repeat constructor.
  - rewrite Hc. by repeat constructor.
  - done.
Defined.

Lemma appendToFile_only_appends main add fs :
  (∀ path, path ≠ main → (appendToFile main add fs).2 !! path = fs !! path) ∧
  (fs !! main = None → (appendToFile main add fs).2 !! main = None) ∧
  (∀ fm, fs !! main = Some fm →
     ∃ extra room',
       (appendToFile main add fs).2 !! main =
         Some (FsFile (f_data fm ++ extra) (f_readable fm) (f_writable fm) room')).
Proof.
  assert (∀ fm, fs !! main = Some fm →
            ∃ extra room', fs !! main =
              Some (FsFile (f_data fm ++ extra) (f_readable fm) (f_writable fm) room')) as Hsame.
  { intros [d r w k] ->. exists [], k. simpl. by rewrite app_nil_r. }
  unfold appendToFile. destruct (os_ReadFile add fs) as [d|e]; simpl; [|done].
  destruct (os_OpenFile_append main fs) as [e|]; simpl; [done|].
  unfold append_Write. destruct (fs !! main) as [fm|] eqn:Hm; simpl; [|done].
  destruct (f_room fm) as [k|]; simpl; [case_decide; simpl|].
  all: split_and!;
    [by intros path Hp; rewrite lookup_insert_ne
    |done
    |intros ? [= <-]; rewrite lookup_insert_eq; by eexists _, _].
Qed.

Lemma merge_loop_only_appends main covs : ∀ fs,
  (∀ path, path ≠ main → (merge_loop main covs fs).2 !! path = fs !! path) ∧
  (fs !! main = None → (merge_loop main covs fs).2 !! main = None) ∧
  (∀ fm, fs !! main = Some fm →
     ∃ extra room',
       (merge_loop main covs fs).2 !! main =
         Some (FsFile (f_data fm ++ extra) (f_readable fm) (f_writable fm) room')).
Proof.
  induction covs as [|c covs IH]; intros fs.
  - simpl. split_and!; try done.
    intros [d r w k] ->. exists [], k. simpl. by rewrite app_nil_r.
  - destruct (appendToFile_only_appends main c fs) as (A1 & A2 & A3).
    simpl. destruct (appendToFile main c fs) as [[e|] fs1]; simpl in *; [done|].
    destruct (IH fs1) as (I1 & I2 & I3). split_and!.
    + intros path Hp. by rewrite I1, A1.
    + intros Hn. by apply I2, A2.
    + intros fm Hm. destruct (A3 fm Hm) as (x1 & k1 & E1).
      destruct (I3 _ E1) as (x2 & k2 & E2). simpl in E2.
      exists (x1 ++ x2), k2. by rewrite E2, <- app_assoc.
Qed.

(** X11. Whatever happens, [MergeCoverages] changes no file but the cover
    profile, never creates the profile, and only ever adds bytes at its end. *)
Theorem MergeCoverages_only_appends (st : pkg) (fs : gmap string fsfile) :
  (∀ path, path ≠ goCoverProfile st → (MergeCoverages st fs).2 !! path = fs !! path) ∧
  (fs !! goCoverProfile st = None → (MergeCoverages st fs).2 !! goCoverProfile st = None) ∧
  (∀ fm, fs !! goCoverProfile st = Some fm →
     ∃ extra room',
       (MergeCoverages st fs).2 !! goCoverProfile st =
         Some (FsFile (f_data fm ++ extra) (f_readable fm) (f_writable fm) room')).
Proof. apply merge_loop_only_appends. Qed.

Lemma MergeCoverages_only_appends_witness :
  (MergeCoverages cov_st cov_fs).2 !! "a.cov" = Some (FsFile [Byte.x61] true false None).
Proof.
  destruct (MergeCoverages_only_appends cov_st cov_fs) as (H & _).
  rewrite (H "a.cov"); [reflexivity|done].
Defined.

(** X12. When the cover profile cannot be opened for appending (coverage is
    not enabled, so that its name is empty, or the file is missing or not
    writable), [MergeCoverages] changes nothing, and it ends the process with
    an error unless no coverage file was recorded. *)
Theorem MergeCoverages_without_profile (st : pkg) (fs : gmap string fsfile) :
  os_OpenFile_append (goCoverProfile st) fs ≠ None →
  (MergeCoverages st fs).2 = fs ∧
  ((MergeCoverages st fs).1 = None ↔ coveragesToMerge st = []).
Proof.
  intros Hopen. unfold MergeCoverages.
  destruct (coveragesToMerge st) as [|c covs]; simpl; [done|].
  unfold appendToFile. destruct (os_ReadFile c fs) as [d|e]; simpl; [|done].
  by destruct (os_OpenFile_append (goCoverProfile st) fs).
Qed.

Lemma MergeCoverages_without_profile_witness :
  let st := AddCoverageFiles [(["adsys.test"; "-test.v"], "a.cov")] zero_pkg in
  os_OpenFile_append (goCoverProfile st) cov_fs ≠ None ∧
  (MergeCoverages st cov_fs).2 = cov_fs ∧ (MergeCoverages st cov_fs).1 ≠ None.
Proof.
  set (st := AddCoverageFiles [(["adsys.test"; "-test.v"], "a.cov")] zero_pkg).
  assert (os_OpenFile_append (goCoverProfile st) cov_fs ≠ None) as H by done.
  cbv zeta. split; [exact H|].
  destruct (MergeCoverages_without_profile st cov_fs H) as [E1 E2].
  split; [exact E1|]. intros E. by apply E2 in E.
Defined.

(** X13. [MergeCoverages] stops at the first recorded file it cannot read:
    the files recorded before it have already been appended to the profile,
    and the ones after it are not looked at. *)
Theorem MergeCoverages_stops_at_first_failure (st : pkg) (fs : gmap string fsfile)
    (data : bytes) (rd : bool) (room : option nat)
    (pre post : list string) (bad : string) (ds : list bytes) :
  goCoverProfile st ≠ "" →
  fs !! goCoverProfile st = Some (FsFile data rd true room) →
  coveragesToMerge st = pre ++ bad :: post →
  Forall (λ c, c ≠ goCoverProfile st) pre →
  Forall2 (λ c d, readable_data fs c = Some d) pre ds →
  fits room (length (concat ds)) →
  bad ≠ goCoverProfile st → readable_data fs bad = None →
  ∃ e, MergeCoverages st fs =
         (Some (CantOpenPython e),
          <[goCoverProfile st :=
              FsFile (data ++ concat ds) rd true (shrink room (length (concat ds)))]> fs).
Proof.
  intros Hne Hm Hc Hnm Hrd Hfit Hbad Hun. unfold MergeCoverages. rewrite Hc.
  rewrite (merge_loop_good _ rd pre fs ds (bad :: post) data room) by done.
  simpl. unfold appendToFile.
  rewrite <- (readable_data_insert_ne fs (goCoverProfile st)
                (FsFile (data ++ concat ds) rd true (shrink room (length (concat ds)))) bad)
    in Hun by done.
  unfold readable_data in Hun.
  destruct (os_ReadFile bad _) as [d|e]; [done|]. by exists e.
Qed.

Lemma MergeCoverages_stops_at_first_failure_witness :
  let st := AddCoverageFiles
              [(["t"; "-test.coverprofile=go.cov"], "a.cov"); ([], "missing.cov");
               ([], "b.cov")] zero_pkg in
  ∃ e, MergeCoverages st cov_fs =
         (Some (CantOpenPython e),
          <["go.cov" := FsFile ([Byte.x67] ++ concat [[Byte.x61]]) true true
                          (shrink None (length (concat [[Byte.x61]])))]> cov_fs).
Proof.
  set (st := AddCoverageFiles
               [(["t"; "-test.coverprofile=go.cov"], "a.cov"); ([], "missing.cov");
                ([], "b.cov")] zero_pkg).
  cbv zeta.
  apply (MergeCoverages_stops_at_first_failure st cov_fs [Byte.x67] true None
           ["a.cov"] ["b.cov"] "missing.cov" [[Byte.x61]]); try done.
  - by repeat constructor.
  - by repeat constructor.
Defined.

End testutils.

(** * command: the framework of the end-to-end test commands

    Shallow embedding of [e2e/internal/command/command.go].  The package
    [inventory] and the [flag] library are taken as they are used: the type
    of states with its [Null], the rest of an inventory, what [Parse] makes
    of an argument list, and reading and writing the inventory file are
    variables of the section.  A [cmdFunc] acts on the exported fields of
    the command and on the world outside, or panics; a function value that
    is nil is [None].  Signals, and with them the cancellation of the
    context, are left out, and so is logging other than the change of
    level. *)

Module command.

Section command.

Context {State : Type} `{EqDecision State} (Null : State).
Context {Rest : Type} {W : Type}.

(** [inventory.Inventory]: its [State] field and the others. *)
Record Inventory := MkInventory {
  inv_State : State;
  inv_rest : Rest
}.

Record globalFlags := GlobalFlagsOf {
  InventoryFile : string;
  Debug : bool;
  Help : bool
}.

(** The exported fields of [Command], which a [cmdFunc] can read and write. *)
Record exported := Exported {
  GlobalFlags : globalFlags;
  Inv : Inventory;
  Usage : string
}.

(** [type cmdFunc func(context.Context, *Command) error]: the error, the
    exported fields and the world it leaves, or [None] when it panics. *)
Definition cmdFunc : Type := exported → W → option (option string * exported * W).

(** [validate] and [action] are function values, [None] when nil.  [fSet] is
    the set of flag names defined on the command's [flag.FlagSet]. *)
Record Command := MkCommand {
  pub : exported;
  validate : option cmdFunc;
  action : option cmdFunc;
  fSet : list string;
  fromStates : list State;
  toState : State
}.

Record options := Options {
  o_validate : option cmdFunc;
  o_fromStates : list State;
  o_toState : State
}.

(** [type Option func(o *options) error]. *)
Definition Option : Type := options → option string * options.

(** [func WithStateTransition(states ...inventory.State) func(o *options) error]. *)
Definition WithStateTransition (states : list State) : Option :=
  λ a,
    if decide (length states < 2)%nat then (Some "expected at least two states", a)
    else
      match last states with
      | Some t =>
          (None, Options (o_validate a) (take (length states - 1) states) t)
      | None => (None, a)
      end.

(** [func WithRequiredState(state inventory.State) func(o *options) error]. *)
Definition WithRequiredState (state : State) : Option :=
  λ a, (None, Options (o_validate a) [state] state).

(** [func WithValidateFunc(validate cmdFunc) func(o *options) error]. *)
Definition WithValidateFunc (v : option cmdFunc) : Option :=
  λ a, (None, Options v (o_fromStates a) (o_toState a)).

(** The loop of [New]: [log.Fatalf] on the first option that fails. *)
Fixpoint apply_options (args : list Option) (opts : options) : option options :=
  match args with
  | [] => Some opts
  | f :: rest =>
      match f opts with
      | (Some _, _) => None
      | (None, opts') => apply_options rest opts'
      end
  end.

Variable zero_exported : exported.

(** [func New(action cmdFunc, args ...Option) *Command]; [None] when
    [log.Fatalf] ends the process. *)
Definition New (act : option cmdFunc) (args : list Option) : option Command :=
  match apply_options args (Options None [Null] Null) with
  | None => None
  | Some opts =>
      Some (MkCommand zero_exported (o_validate opts) act []
                      (o_fromStates opts) (o_toState opts))
  end.

(** What [c.fSet.Parse(args)] leaves behind: whether it returned an error,
    the remaining positional arguments, the values of the global flags, and
    whether it called [c.fSet.Usage]. *)
Record parsed := Parsed {
  p_err : bool;
  p_args : list string;
  p_flags : globalFlags;
  p_usage : bool
}.

Variable DefaultPath : string.
Variable flag_Parse : list string → list string → globalFlags → W → parsed * W.
Variable set_debug : W → W.
Variable print_usage : string → W → W.
Variable inventory_Read : string → W → Inventory * option string.
Variable inventory_Write : string → Inventory → W → option string * W.

Definition set_flags (g : globalFlags) (e : exported) : exported :=
  Exported g (Inv e) (Usage e).

Definition set_Inv (i : Inventory) (e : exported) : exported :=
  Exported (GlobalFlags e) i (Usage e).

Definition set_pub (e : exported) (c : Command) : Command :=
  MkCommand e (validate c) (action c) (fSet c) (fromStates c) (toState c).

(** [FlagSet.Var]: defining a name that is already defined panics. *)
Definition define (name : string) (c : Command) : option Command :=
  if decide (name ∈ fSet c) then None
  else Some (MkCommand (pub c) (validate c) (action c) (name :: fSet c)
                       (fromStates c) (toState c)).

(** [func (c *Command) AddStringFlag(param *string, name, value, usage string)]. *)
Definition AddStringFlag (name : string) (c : Command) : option Command := define name c.

(** [func (c *Command) AddBoolFlag(param *bool, name string, value bool, usage string)]. *)
Definition AddBoolFlag (name : string) (c : Command) : option Command := define name c.

(** [func (c *Command) AddIntFlag(param *int, name string, value int, usage string)]. *)
Definition AddIntFlag (name : string) (c : Command) : option Command := define name c.

Definition global_flag_names : list string :=
  ["i"; "inventory-file"; "debug"; "d"; "help"; "h"].

(** [func (c *Command) setGlobalFlags()]. *)
Definition setGlobalFlags (c : Command) : option Command :=
  c1 ← define "i" c;
  c2 ← define "inventory-file" c1;
  c3 ← define "debug" c2;
  c4 ← define "d" c3;
  c5 ← define "help" c4;
  define "h" c5.

Definition usage_error : string := "usage error".

(** [func (c *Command) parseFlags(args []string) (showedUsage bool, err error)].
    The named results are what the [Usage] closure assigned if [Parse]
    called it.  [None] when defining the global flags panics. *)
Definition parseFlags (args : list string) (c : Command) (w : W)
  : option ((bool * option string) * Command * W) :=
  c0 ← setGlobalFlags c;
  let '(r, w1) := flag_Parse (fSet c0) args (GlobalFlagsOf DefaultPath false false) w in
  let c1 := set_pub (set_flags (p_flags r) (pub c0)) c0 in
  let showedUsage := p_usage r in
  let err := if p_usage r then Some usage_error else None in
  if bool_decide (0 < length (p_args r))%nat || p_err r then
    Some ((true, Some usage_error), c1, w1)
  else
    let w2 := if Debug (p_flags r) then set_debug w1 else w1 in
    if Help (p_flags r) then Some ((true, None), c1, print_usage (Usage (pub c1)) w2)
    else Some ((showedUsage, err), c1, w2).

(** [func (c *Command) requireInventory() bool]; indexing an empty slice panics. *)
Definition requireInventory (c : Command) : option bool :=
  match fromStates c with
  | [] => None
  | s :: _ => Some (bool_decide (s ≠ Null))
  end.

(** The end of [Execute], from the call of the action on; [None] when the
    call panics, because [c.action] is nil or because the action does. *)
Definition run_action (c : Command) (w : W) : option (Z * Command * W) :=
  match action c with
  | None => None
  | Some act =>
      match act (pub c) w with
      | None => None
      | Some (Some _, e, w') => Some (1, set_pub e c, w')
      | Some (None, e, w') =>
          let i := MkInventory (toState c) (inv_rest (Inv e)) in
          let c' := set_pub (set_Inv i e) c in
          if decide (toState c ≠ Null) then
            match inventory_Write (InventoryFile (GlobalFlags e)) i w' with
            | (Some _, w'') => Some (1, c', w'')
            | (None, w'') => Some (0, c', w'')
            end
          else Some (0, c', w')
      end
  end.

(** The middle of [Execute]: the validation function, when there is one;
    [None] when it panics. *)
Definition run_validate (c : Command) (w : W) : option (Z * Command * W) :=
  match validate c with
  | None => run_action c w
  | Some v =>
      match v (pub c) w with
      | None => None
      | Some (Some _, e, w') => Some (1, set_pub e c, w')
      | Some (None, e, w') => run_action (set_pub e c) w'
      end
  end.

(** [func (c *Command) Execute(ctx context.Context) int], on the arguments
    [os.Args[1:]]; [None] when it panics. *)
Definition Execute (args : list string) (c : Command) (w : W)
  : option (Z * Command * W) :=
  match parseFlags args c w with
  | None => None
  | Some ((showedUsage, err), c1, w1) =>
      if (showedUsage : bool) then
        Some (if err is Some _ then 2 else 0, c1, w1)
      else if err is Some _ then Some (1, c1, w1)
      else
        match requireInventory c1 with
        | None => None
        | Some false => run_validate c1 w1
        | Some true =>
            let '(i, rerr) := inventory_Read (InventoryFile (GlobalFlags (pub c1))) w1 in
            let c2 := set_pub (set_Inv i (pub c1)) c1 in
            if rerr is Some _ then Some (1, c2, w1)
            else if bool_decide (inv_State i ∈ fromStates c2) then run_validate c2 w1
            else Some (1, c2, w1)
        end
  end.

(** An option made by one of the three constructors of the package. *)
Definition is_With (f : Option) : Prop :=
  (∃ states, f = WithStateTransition states) ∨
  (∃ state, f = WithRequiredState state) ∨
  (∃ v, f = WithValidateFunc v).

Lemma WithStateTransition_spec (states : list State) (a : options) :
  ((length states < 2)%nat →
   WithStateTransition states a = (Some "expected at least two states", a)) ∧
  ((2 ≤ length states)%nat →
   ∃ a', WithStateTransition states a = (None, a') ∧
         o_fromStates a' ++ [o_toState a'] = states ∧
         o_fromStates a' ≠ [] ∧ o_validate a' = o_validate a).
Proof.
  unfold WithStateTransition. split; intros Hlen.
  - by rewrite decide_True.
  - rewrite decide_False by lia.
    destruct (last states) as [t|] eqn:Hl.
    + apply last_Some in Hl as [l' ->]. rewrite length_app in *. simpl in *.
      replace (length l' + 1 - 1)%nat with (length l') by lia.
      rewrite take_app_length. eexists. split_and!; try done.
      destruct l'; [simpl in Hlen; lia|done].
    + apply last_None in Hl as ->. simpl in Hlen. lia.
Qed.

(** X14. [WithStateTransition] refuses fewer than two states and leaves the
    options as they were; given at least two, it splits them into a
    non-empty list of initial states and the final state, in order, and
    leaves the validation function alone. *)
Theorem WithStateTransition_splits (states : list State) (a : options) :
  ((length states < 2)%nat →
   WithStateTransition states a = (Some "expected at least two states", a)) ∧
  ((2 ≤ length states)%nat →
   ∃ a', WithStateTransition states a = (None, a') ∧
         o_fromStates a' ++ [o_toState a'] = states ∧
         o_fromStates a' ≠ [] ∧ o_validate a' = o_validate a).
Proof. apply WithStateTransition_spec. Qed.

Lemma is_With_keeps_nonempty (f : Option) (a a' : options) :
  is_With f → f a = (None, a') → o_fromStates a ≠ [] → o_fromStates a' ≠ [].
Proof.
  intros [[states ->]|[[state ->]|[v ->]]] Hf Hne.
  - destruct (decide (length states < 2)%nat) as [Hlt|Hge].
    + destruct (WithStateTransition_spec states a) as [H1 _].
      rewrite H1 in Hf by done. done.
    + destruct (WithStateTransition_spec states a) as [_ H2].
      destruct (H2 ltac:(lia)) as (a2 & E & _ & Hn & _). rewrite E in Hf.
      by injection Hf as <-.
  - unfold WithRequiredState in Hf. by injection Hf as <-.
  - unfold WithValidateFunc in Hf. by injection Hf as <-.
Qed.

Lemma apply_options_nonempty (args : list Option) : ∀ a a',
  Forall is_With args → apply_options args a = Some a' →
  o_fromStates a ≠ [] → o_fromStates a' ≠ [].
Proof.
  induction args as [|f args IH]; intros a a' Hall Happ Hne; simpl in Happ.
  - by injection Happ as <-.
  - apply Forall_cons in Hall as [Hf Hall].
    destruct (f a) as [[e|] a1] eqn:Hfa; [done|].
    apply (IH a1 a' Hall Happ). by apply (is_With_keeps_nonempty f a a1).
Qed.

(** X15. A command that [New] builds from options made by the package's three
    constructors has at least one initial state and no flag defined, so that
    [requireInventory] cannot index out of range; with no option at all the
    command goes from [Null] to [Null] and requires no inventory. *)
Theorem New_has_initial_state (act : option cmdFunc) (args : list Option) (c : Command) :
  Forall is_With args → New act args = Some c →
  fromStates c ≠ [] ∧ is_Some (requireInventory c) ∧ fSet c = [] ∧
  (args = [] → fromStates c = [Null] ∧ toState c = Null ∧
               requireInventory c = Some false).
Proof.
  intros Hall Hnew. unfold New in Hnew.
  destruct (apply_options args (Options None [Null] Null)) as [opts|] eqn:Happ; [|done].
  injection Hnew as <-. simpl.
  assert (o_fromStates opts ≠ []) as Hne
    by (by apply (apply_options_nonempty args _ _ Hall Happ)).
  split_and!; try done.
  - unfold requireInventory. simpl. destruct (o_fromStates opts); [done|by eexists].
  - intros ->. simpl in Happ. injection Happ as <-. unfold requireInventory. simpl.
    split_and!; try done. by rewrite bool_decide_eq_false_2 by (intros ?; done).
Qed.

Lemma define_fSet (name : string) (c c' : Command) :
  define name c = Some c' →
  (name ∉ fSet c) ∧ fSet c' = name :: fSet c ∧ pub c' = pub c ∧ validate c' = validate c ∧
  action c' = action c ∧ fromStates c' = fromStates c ∧ toState c' = toState c.
Proof. unfold define. case_decide; [done|]. by intros [= <-]. Qed.

Lemma setGlobalFlags_Some (c c' : Command) :
  setGlobalFlags c = Some c' →
  fSet c' = reverse global_flag_names ++ fSet c ∧ pub c' = pub c ∧
  validate c' = validate c ∧ action c' = action c ∧
  fromStates c' = fromStates c ∧ toState c' = toState c.
Proof.
  unfold setGlobalFlags. intros H.
  destruct (define "i" c) as [c1|] eqn:E1; [|done]. simpl in H.
  destruct (define "inventory-file" c1) as [c2|] eqn:E2; [|done]. simpl in H.
  destruct (define "debug" c2) as [c3|] eqn:E3; [|done]. simpl in H.
  destruct (define "d" c3) as [c4|] eqn:E4; [|done]. simpl in H.
  destruct (define "help" c4) as [c5|] eqn:E5; [|done]. simpl in H.
  apply define_fSet in E1 as (_&F1&P1&V1&A1&S1&T1).
  apply define_fSet in E2 as (_&F2&P2&V2&A2&S2&T2).
  apply define_fSet in E3 as (_&F3&P3&V3&A3&S3&T3).
  apply define_fSet in E4 as (_&F4&P4&V4&A4&S4&T4).
  apply define_fSet in E5 as (_&F5&P5&V5&A5&S5&T5).
  apply define_fSet in H as (_&F6&P6&V6&A6&S6&T6).
  split_and!; try congruence.
  rewrite F6, F5, F4, F3, F2, F1. done.
Qed.


Lemma setGlobalFlags_again (c c' : Command) :
  setGlobalFlags c = Some c' → setGlobalFlags c' = None.
Proof.
  intros H. apply setGlobalFlags_Some in H as (F & _).
  unfold setGlobalFlags, define. rewrite decide_True; [done|].
  rewrite F. apply elem_of_app. left. vm_compute. by repeat constructor.
Qed.

(** The arguments were parsed without complaint and help was not asked for:
    [c1] is the command and [w2] the world in which [Execute] goes on. *)
Definition parsed_ok (args : list string) (c : Command) (w : W)
    (c1 : Command) (w2 : W) : Prop :=
  ∃ c0 r w1,
    setGlobalFlags c = Some c0 ∧
    flag_Parse (fSet c0) args (GlobalFlagsOf DefaultPath false false) w = (r, w1) ∧
    p_args r = [] ∧ p_err r = false ∧ p_usage r = false ∧ Help (p_flags r) = false ∧
    c1 = set_pub (set_flags (p_flags r) (pub c0)) c0 ∧
    w2 = (if Debug (p_flags r) then set_debug w1 else w1).

(** The inventory requirement is met: none is required, or the file was
    read and is in one of the initial states; [e0] is what the validation
    function and the action then see. *)
Definition admitted (c c1 : Command) (w2 : W) (e0 : exported) : Prop :=
  (∃ l, fromStates c = Null :: l ∧ e0 = pub c1) ∨
  (∃ s l i, fromStates c = s :: l ∧ s ≠ Null ∧
            inventory_Read (InventoryFile (GlobalFlags (pub c1))) w2 = (i, None) ∧
            inv_State i ∈ fromStates c ∧ e0 = set_Inv i (pub c1)).

(** The validation function, if any, returned nil. *)
Definition validated (c : Command) (e0 : exported) (w0 : W) (e1 : exported) (w1 : W)
    : Prop :=
  match validate c with
  | None => e1 = e0 ∧ w1 = w0
  | Some v => v e0 w0 = Some (None, e1, w1)
  end.

Lemma parsed_ok_fields args c w c1 w2 :
  parsed_ok args c w c1 w2 →
  parseFlags args c w = Some ((false, None), c1, w2) ∧
  validate c1 = validate c ∧ action c1 = action c ∧
  fromStates c1 = fromStates c ∧ toState c1 = toState c ∧
  fSet c1 = reverse global_flag_names ++ fSet c.
Proof.
  intros (c0 & r & w1 & Hg & Hp & Ha & He & Hu & Hh & -> & ->).
  unfold parseFlags. rewrite Hg. simpl. rewrite Hp, Ha, He, Hu, Hh. simpl.
  apply setGlobalFlags_Some in Hg as (F&P&V&A&S&T). by split_and!.
Qed.

(** X16. When [Parse] fails or leaves positional arguments, [Execute] returns
    2; when help is asked for it prints the usage and returns 0.  In both
    cases it stops there: the inventory is not read, and neither the
    validation function nor the action is called. *)
Theorem Execute_usage_and_help (args : list string) (c c0 : Command) (w w1 : W)
    (r : parsed) :
  setGlobalFlags c = Some c0 →
  flag_Parse (fSet c0) args (GlobalFlagsOf DefaultPath false false) w = (r, w1) →
  let c1 := set_pub (set_flags (p_flags r) (pub c0)) c0 in
  (p_args r ≠ [] ∨ p_err r = true → Execute args c w = Some (2, c1, w1)) ∧
  (p_args r = [] → p_err r = false → Help (p_flags r) = true →
   Execute args c w =
     Some (0, c1, print_usage (Usage (pub c))
                    (if Debug (p_flags r) then set_debug w1 else w1))).
Proof.
  intros Hg Hp. simpl. unfold Execute, parseFlags. rewrite Hg. simpl. rewrite Hp.
  apply setGlobalFlags_Some in Hg as (_&P&_). split.
  - intros [Ha|He].
    + destruct (p_args r); [done|]. simpl. done.
    + rewrite He, orb_true_r. done.
  - intros -> -> ->. simpl. by rewrite P.
Qed.

(** X17. A command that requires an inventory returns 1 without calling the
    validation function or the action, and without writing anything, when
    the inventory file cannot be read or is in none of the initial states. *)
Theorem Execute_checks_state (args : list string) (c c1 : Command) (w w2 : W)
    (s : State) (l : list State) (i : Inventory) (rerr : option string) :
  parsed_ok args c w c1 w2 →
  fromStates c = s :: l → s ≠ Null →
  inventory_Read (InventoryFile (GlobalFlags (pub c1))) w2 = (i, rerr) →
  is_Some rerr ∨ inv_State i ∉ fromStates c →
  Execute args c w = Some (1, set_pub (set_Inv i (pub c1)) c1, w2).
Proof.
  intros Hok Hs Hne Hr Hbad.
  destruct (parsed_ok_fields _ _ _ _ _ Hok) as (Hp&_&_&S&_).
  unfold Execute. rewrite Hp. unfold requireInventory. rewrite S, Hs.
  rewrite bool_decide_eq_true_2 by done. rewrite Hr.
  destruct rerr as [e|]; [done|]. destruct Hbad as [[? [=]]|Hnot].
  simpl. rewrite S, Hs. by rewrite bool_decide_eq_false_2 by (by rewrite <- Hs).
Qed.

(** X18. When the inventory requirement is met and the validation function
    and the action return nil, [Execute] sets the state of the inventory to
    the final state of the command.  If that state is [Null] nothing is
    written and the result is 0; otherwise the inventory is written, with
    the final state, to the inventory file as the action left its name, and
    the result is 0 or 1 as the write succeeds or fails. *)
Theorem Execute_records_final_state (args : list string) (c c1 : Command)
    (w w2 w3 w4 : W) (e0 e1 e2 : exported) (act : cmdFunc) :
  parsed_ok args c w c1 w2 → admitted c c1 w2 e0 →
  validated c e0 w2 e1 w3 → action c = Some act → act e1 w3 = Some (None, e2, w4) →
  let i := MkInventory (toState c) (inv_rest (Inv e2)) in
  let c' := set_pub (set_Inv i e2) c1 in
  (toState c = Null → Execute args c w = Some (0, c', w4)) ∧
  (toState c ≠ Null →
   ∀ werr w5, inventory_Write (InventoryFile (GlobalFlags e2)) i w4 = (werr, w5) →
              Execute args c w = Some (if werr is Some _ then 1 else 0, c', w5)).
Proof.
  intros Hok Hadm Hval Hsome Hact. simpl.
  destruct (parsed_ok_fields _ _ _ _ _ Hok) as (Hp&V&A&S&T&_).
  assert (Execute args c w = run_validate (set_pub e0 c1) w2) as ->.
  { unfold Execute. rewrite Hp. unfold requireInventory. rewrite S.
    destruct Hadm as [(l & Hs & ->)|(s & l & i & Hs & Hne & Hr & Hin & ->)].
    - rewrite Hs. rewrite bool_decide_eq_false_2 by (intros ?; done).
      by destruct c1 as [[]].
    - rewrite Hs. rewrite bool_decide_eq_true_2 by done. rewrite Hr. simpl.
      rewrite S. by rewrite bool_decide_eq_true_2. }
  assert (run_validate (set_pub e0 c1) w2 = run_action (set_pub e1 c1) w3) as ->.
  { unfold run_validate, validated in *. simpl. rewrite V.
    destruct (validate c) as [v|].
    - by rewrite Hval.
    - by destruct Hval as [-> ->]. }
  unfold run_action. simpl. rewrite A, Hsome, Hact, T. split.
  - intros HT. by rewrite decide_False by (intros ?; done).
  - intros HT werr w5 Hw. rewrite decide_True by done. rewrite Hw. by destruct werr.
Qed.

Lemma run_action_result (c : Command) (w : W) (code : Z) (c' : Command) (w' : W) :
  run_action c w = Some (code, c', w') →
  fSet c' = fSet c ∧ (code = 0 ∨ code = 1) ∧
  (code = 0 → ∃ act e w1, action c = Some act ∧ act (pub c) w = Some (None, e, w1) ∧
                          Inv (pub c') = MkInventory (toState c) (inv_rest (Inv e))).
Proof.
  unfold run_action. intros H.
  destruct (action c) as [act|]; [|done].
  destruct (act (pub c) w) as [[[[e|] ex] w1]|] eqn:Ha; [| |done].
  - injection H as <- <- <-. split_and!; [done|by right|done].
  - destruct (decide (toState c ≠ Null)).
    + destruct (inventory_Write _ _ w1) as [[e|] w2]; injection H as <- <- <-.
      * split_and!; [done|by right|done].
      * split_and!; [done|by left|]. intros _. by eexists _, _, _.
    + injection H as <- <- <-. split_and!; [done|by left|]. intros _. by eexists _, _, _.
Qed.

Lemma run_validate_result (c : Command) (w : W) (code : Z) (c' : Command) (w' : W) :
  run_validate c w = Some (code, c', w') →
  fSet c' = fSet c ∧ (code = 0 ∨ code = 1) ∧
  (code = 0 → ∃ act e0 w0 e w1, action c = Some act ∧ act e0 w0 = Some (None, e, w1) ∧
                                Inv (pub c') = MkInventory (toState c) (inv_rest (Inv e))).
Proof.
  unfold run_validate. intros H. destruct (validate c) as [v|].
  - destruct (v (pub c) w) as [[[[e|] ex] w1]|]; [| |done].
    + injection H as <- <- <-. split_and!; [done|by right|done].
    + apply run_action_result in H as (F & C & Z0). simpl in *.
      split_and!; [done|done|]. intros Hc. destruct (Z0 Hc) as (act & e & w2 & Hs & Ha & Hi).
      by eexists _, _, _, _, _.
  - apply run_action_result in H as (F & C & Z0).
    split_and!; [done|done|]. intros Hc. destruct (Z0 Hc) as (act & e & w2 & Hs & Ha & Hi).
    by eexists _, _, _, _, _.
Qed.

Lemma Execute_result (args : list string) (c c' : Command) (w w' : W) (code : Z) :
  Execute args c w = Some (code, c', w') →
  (code = 0 ∨ code = 1 ∨ code = 2) ∧
  fSet c' = reverse global_flag_names ++ fSet c ∧
  (code = 0 →
   (∃ c1 w1, parseFlags args c w = Some ((true, None), c1, w1)) ∨
   (∃ act e0 w0 e w1, action c = Some act ∧ act e0 w0 = Some (None, e, w1) ∧
                      Inv (pub c') = MkInventory (toState c) (inv_rest (Inv e)))) ∧
  (code = 2 → ∃ e c1 w1, parseFlags args c w = Some ((true, Some e), c1, w1)).
Proof.
  unfold Execute. intros H.
  remember (parseFlags args c w) as pf eqn:Hp in H. symmetry in Hp.
  destruct pf as [[[[sh err] c1] w1]|]; [|done].
  assert (fSet c1 = reverse global_flag_names ++ fSet c ∧ action c1 = action c ∧
          toState c1 = toState c) as (F1 & A1 & T1).
  { pose proof Hp as Hq. unfold parseFlags in Hq.
    destruct (setGlobalFlags c) as [c0|] eqn:Hg; [|done].
    simpl in Hq. apply setGlobalFlags_Some in Hg as (F&_&_&A&_&T).
    destruct (flag_Parse _ _ _ w) as [r wp].
    destruct (_ || _); [by injection Hq as _ _ <- _|].
    destruct (Help _); by injection Hq as _ _ <- _. }
  destruct sh.
  { destruct err as [e|]; injection H as <- <- <-.
    - split_and!; [by right; right|done|done|]. intros _. by eexists _, _, _.
    - split_and!; [by left|done| |done]. intros _. left. by eexists _, _. }
  destruct err as [e|].
  { injection H as <- <- <-. split_and!; [by right; left|done|done|done]. }
  assert (∀ c2, fSet c2 = fSet c1 → action c2 = action c1 → toState c2 = toState c1 →
            run_validate c2 w1 = Some (code, c', w') →
            (code = 0 ∨ code = 1 ∨ code = 2) ∧
            fSet c' = reverse global_flag_names ++ fSet c ∧
            (code = 0 →
             (∃ c1 w1, parseFlags args c w = Some ((true, None), c1, w1)) ∨
             (∃ act e0 w0 e w1, action c = Some act ∧ act e0 w0 = Some (None, e, w1) ∧
                                Inv (pub c') = MkInventory (toState c) (inv_rest (Inv e)))) ∧
            (code = 2 → ∃ e c1 w1,
               parseFlags args c w = Some ((true, Some e), c1, w1))) as Hrv.
  { intros c2 F2 A2 T2 Hr. apply run_validate_result in Hr as (F & C & Z0).
    split_and!.
    - destruct C; auto.
    - by rewrite F, F2.
    - intros Hc. right. destruct (Z0 Hc) as (act & e0 & w0 & e & w2 & Hs & Ha & Hi).
      exists act, e0, w0, e, w2. by rewrite <- A1, <- A2, <- T1, <- T2.
    - intros ->. by destruct C. }
  destruct (requireInventory c1) as [[]|]; [| |done].
  - destruct (inventory_Read _ w1) as [i [e|]].
    + injection H as <- <- <-. split_and!; [by right; left|done|done|done].
    + destruct (bool_decide _).
      * by apply (Hrv (set_pub (set_Inv i (pub c1)) c1) eq_refl eq_refl eq_refl) in H.
      * injection H as <- <- <-. split_and!; [by right; left|done|done|done].
  - by apply (Hrv c1 eq_refl eq_refl eq_refl) in H.
Qed.

(** X19. [Execute] returns 0, 1 or 2.  It returns 0 only if [parseFlags]
    showed the usage without error (help was asked for), or if the action
    was called and returned nil, in which case the inventory of the command
    is in the final state.  It returns 2 only if [parseFlags] reported a
    usage error.  Whatever it returns, it has defined the global flags on
    the command. *)
Theorem Execute_exit_code (args : list string) (c c' : Command) (w w' : W) (code : Z) :
  Execute args c w = Some (code, c', w') →
  (code = 0 ∨ code = 1 ∨ code = 2) ∧
  fSet c' = reverse global_flag_names ++ fSet c ∧
  (code = 0 →
   (∃ c1 w1, parseFlags args c w = Some ((true, None), c1, w1)) ∨
   (∃ act e0 w0 e w1, action c = Some act ∧ act e0 w0 = Some (None, e, w1) ∧
                      Inv (pub c') = MkInventory (toState c) (inv_rest (Inv e)))) ∧
  (code = 2 → ∃ e c1 w1, parseFlags args c w = Some ((true, Some e), c1, w1)).
Proof. apply Execute_result. Qed.

(** X20. [Execute] cannot be run twice on one command: the first run defines
    the global flags on the command's flag set, and defining them again
    panics. *)
Theorem Execute_twice_panics (args args' : list string) (c c' : Command) (w w' w'' : W)
    (code : Z) :
  Execute args c w = Some (code, c', w') → Execute args' c' w'' = None.
Proof.
  intros H. apply Execute_result in H as (_ & F & _).
  unfold Execute, parseFlags, setGlobalFlags, define.
  rewrite decide_True; [done|]. rewrite F. apply elem_of_app. left.
  vm_compute. by repeat constructor.
Qed.





(** X23. [Execute] panics when it comes to call an action that is nil, as in
    a command made by [New(nil)], or when the action it calls panics: the
    arguments are parsed, the inventory is read and checked and the
    validation function is called first, and no exit code is returned. *)
Theorem Execute_nil_action_panics (args : list string) (c c1 : Command)
    (w w2 w3 : W) (e0 e1 : exported) :
  parsed_ok args c w c1 w2 → admitted c c1 w2 e0 → validated c e0 w2 e1 w3 →
  action c = None ∨ (∃ act, action c = Some act ∧ act e1 w3 = None) →
  Execute args c w = None.
Proof.
  intros Hok Hadm Hval Hact.
  destruct (parsed_ok_fields _ _ _ _ _ Hok) as (Hp&V&A&S&T&_).
  assert (Execute args c w = run_validate (set_pub e0 c1) w2) as ->.
  { unfold Execute. rewrite Hp. unfold requireInventory. rewrite S.
    destruct Hadm as [(l & Hs & ->)|(s & l & i & Hs & Hne & Hr & Hin & ->)].
    - rewrite Hs. rewrite bool_decide_eq_false_2 by (intros ?; done).
      by destruct c1 as [[]].
    - rewrite Hs. rewrite bool_decide_eq_true_2 by done. rewrite Hr. simpl.
      rewrite S. by rewrite bool_decide_eq_true_2. }
  assert (run_validate (set_pub e0 c1) w2 = run_action (set_pub e1 c1) w3) as ->.
  { unfold run_validate, validated in *. simpl. rewrite V.
    destruct (validate c) as [v|].
    - by rewrite Hval.
    - by destruct Hval as [-> ->]. }
  unfold run_action. simpl. rewrite A.
  destruct Hact as [->|(act & -> & ->)]; done.
Qed.


Variable homedir_Expand : string → string + string.
Variable os_Stat : string → option string.

Inductive path_error :=
  | ExpandFailed (e : string)               (* "failed to expand path: %w" *)
  | DoesNotExist (path : string) (e : string). (* "path %q does not exist: %w" *)

(** [func ValidateAndExpandPath(path, def string) (string, error)]. *)
Definition ValidateAndExpandPath (path def : string) : string * option path_error :=
  let path := if decide (path = "") then def else path in
  match homedir_Expand path with
  | inr e => ("", Some (ExpandFailed e))
  | inl expandedPath =>
      match os_Stat expandedPath with
      | Some e => ("", Some (DoesNotExist expandedPath e))
      | None => (expandedPath, None)
      end
  end.

(** X22. [ValidateAndExpandPath] uses the default only in place of an empty
    path; a path it returns is the expansion of the one it used and exists;
    a non-empty path whose expansion does not exist is an error, whether or
    not the default exists. *)
Theorem ValidateAndExpandPath_default (def : string) :
  ValidateAndExpandPath "" def = ValidateAndExpandPath def def ∧
  (∀ path p, ValidateAndExpandPath path def = (p, None) →
     homedir_Expand (if decide (path = "") then def else path) = inl p ∧
     os_Stat p = None) ∧
  (∀ path p e, path ≠ "" → homedir_Expand path = inl p → os_Stat p = Some e →
     ValidateAndExpandPath path def = ("", Some (DoesNotExist p e))).
Proof.
  unfold ValidateAndExpandPath. split_and!.
  - rewrite decide_True by done. by destruct (decide (def = "")) as [->|].
  - intros path p H.
    destruct (homedir_Expand _) as [x|e]; [|done].
    destruct (os_Stat x) as [e|] eqn:Hs; [done|]. by injection H as <-.
  - intros path p e Hne Hx Hs. rewrite decide_False by done. by rewrite Hx, Hs.
Qed.

End command.


(** ** A small instance

    States are numbers with [Null = 0], an inventory has nothing but its
    state, and the world is the list of what has happened. *)

Definition toy_zero : @exported nat unit :=
  Exported (GlobalFlagsOf "" false false) (MkInventory 0%nat tt) "toy".

Definition toy_Parse (names args : list string) (g : globalFlags) (w : list string)
  : parsed * list string :=
  match args with
  | [] => (Parsed false [] g false, w)
  | ["-h"] => (Parsed false [] (GlobalFlagsOf (InventoryFile g) (Debug g) true) false, w)
  | _ => (Parsed true [] g true, w ++ ["usage"])
  end.

Definition toy_Read (st : nat) (file : string) (w : list string)
  : @Inventory nat unit * option string :=
  (MkInventory st tt, None).

Definition toy_Write (file : string) (i : @Inventory nat unit) (w : list string)
  : option string * list string :=
  (None, w ++ ["write"]).

Definition toy_action : @cmdFunc nat unit (list string) :=
  λ e w, Some (None, e, w ++ ["action"]).

Definition toy_Execute (st : nat) :=
  Execute 0%nat "inventory.yaml" toy_Parse (λ w, w ++ ["debug"])
          (λ u w, w ++ ["help"]) (toy_Read st) toy_Write.

(** A command that takes the inventory from state 1 or 2 to state 3. *)
Definition toy_command : @Command nat unit (list string) :=
  MkCommand toy_zero None (Some toy_action) [] [1%nat; 2%nat] 3%nat.

(** The options [New] starts from. *)
Definition toy_options : @options nat unit (list string) := Options None [0%nat] 0%nat.

Lemma WithStateTransition_splits_witness :
  ∃ a', WithStateTransition [1%nat; 2%nat; 3%nat] toy_options = (None, a') ∧
        o_fromStates a' ++ [o_toState a'] = [1%nat; 2%nat; 3%nat].
Proof.
  destruct (WithStateTransition_splits [1%nat; 2%nat; 3%nat] toy_options) as [_ H].
  destruct (H ltac:(simpl; lia)) as (a' & E & Hs & _). by exists a'.
Defined.

Lemma New_has_initial_state_witness :
  ∃ c, New 0%nat toy_zero (Some toy_action)
         [WithValidateFunc (Some toy_action);
          WithStateTransition [1%nat; 2%nat; 3%nat]] = Some c ∧
       fromStates c ≠ [].
Proof.
  eexists. split; [reflexivity|].
  refine (proj1 (New_has_initial_state 0%nat toy_zero (Some toy_action)
                   [WithValidateFunc (Some toy_action);
                    WithStateTransition [1%nat; 2%nat; 3%nat]]
                   _ _ eq_refl)).
  apply Forall_cons. split; [right; right; by eexists|].
  apply Forall_cons. split; [left; by eexists|]. constructor.
Defined.

Definition exit_code_of {C V : Type} (r : option (Z * C * V)) : option Z :=
  (λ x, x.1.1) <$> r.

Definition world_of {C V : Type} (r : option (Z * C * V)) : option V :=
  (λ x, x.2) <$> r.

(** [toy_command] with the global flags defined. *)
Definition toy_defined : @Command nat unit (list string) :=
  MkCommand toy_zero None (Some toy_action) (reverse global_flag_names) [1%nat; 2%nat] 3%nat.

Lemma toy_setGlobalFlags : setGlobalFlags toy_command = Some toy_defined.
Proof. vm_compute. reflexivity. Qed.

Lemma Execute_usage_and_help_witness :
  exit_code_of (toy_Execute 1 ["bogus"] toy_command []) = Some 2 ∧
  exit_code_of (toy_Execute 1 ["-h"] toy_command []) = Some 0 ∧
  world_of (toy_Execute 1 ["-h"] toy_command []) = Some ["help"].
Proof.
  destruct (Execute_usage_and_help 0%nat "inventory.yaml" toy_Parse (λ w, w ++ ["debug"])
              (λ u w, w ++ ["help"]) (toy_Read 1) toy_Write ["bogus"] toy_command
              toy_defined [] (["usage"])
              (Parsed true [] (GlobalFlagsOf "inventory.yaml" false false) true)
              toy_setGlobalFlags eq_refl) as [H2 _].
  destruct (Execute_usage_and_help 0%nat "inventory.yaml" toy_Parse (λ w, w ++ ["debug"])
              (λ u w, w ++ ["help"]) (toy_Read 1) toy_Write ["-h"] toy_command
              toy_defined [] []
              (Parsed false [] (GlobalFlagsOf "inventory.yaml" false true) false)
              toy_setGlobalFlags eq_refl) as [_ H0].
  unfold toy_Execute. rewrite H2 by (by right). rewrite H0 by done. done.
Defined.

(** [toy_command] once its arguments, none, have been parsed. *)
Definition toy_parsed : @Command nat unit (list string) :=
  MkCommand (Exported (GlobalFlagsOf "inventory.yaml" false false) (MkInventory 0%nat tt) "toy")
            None (Some toy_action) (reverse global_flag_names) [1%nat; 2%nat] 3%nat.

Lemma toy_parsed_ok :
  parsed_ok "inventory.yaml" toy_Parse (λ w, w ++ ["debug"]) [] toy_command [] toy_parsed [].
Proof.
  exists toy_defined, (Parsed false [] (GlobalFlagsOf "inventory.yaml" false false) false), [].
  split_and!; [apply toy_setGlobalFlags|reflexivity..].
Qed.

Lemma Execute_checks_state_witness :
  exit_code_of (toy_Execute 5 [] toy_command []) = Some 1 ∧
  world_of (toy_Execute 5 [] toy_command []) = Some [].
Proof.
  unfold toy_Execute.
  rewrite (Execute_checks_state 0%nat "inventory.yaml" toy_Parse (λ w, w ++ ["debug"])
             (λ u w, w ++ ["help"]) (toy_Read 5) toy_Write [] toy_command toy_parsed [] []
             1%nat [2%nat] (MkInventory 5%nat tt) None toy_parsed_ok eq_refl).
  - done.
  - done.
  - reflexivity.
  - right. simpl. rewrite !elem_of_cons, elem_of_nil. intros [?|[?|?]]; done.
Defined.

Lemma Execute_records_final_state_witness :
  exit_code_of (toy_Execute 1 [] toy_command []) = Some 0 ∧
  world_of (toy_Execute 1 [] toy_command []) = Some ["action"; "write"].
Proof.
  unfold toy_Execute.
  destruct (Execute_records_final_state 0%nat "inventory.yaml" toy_Parse
              (λ w, w ++ ["debug"]) (λ u w, w ++ ["help"]) (toy_Read 1) toy_Write []
              toy_command toy_parsed [] [] [] ["action"]
              (set_Inv (MkInventory 1%nat tt) (pub toy_parsed))
              (set_Inv (MkInventory 1%nat tt) (pub toy_parsed))
              (set_Inv (MkInventory 1%nat tt) (pub toy_parsed)) toy_action
              toy_parsed_ok) as [_ H].
  - right. exists 1%nat, [2%nat], (MkInventory 1%nat tt).
    split_and!; try reflexivity; [done|]. simpl. by left.
  - by split.
  - reflexivity.
  - reflexivity.
  - rewrite (H ltac:(done) None ["action"; "write"] eq_refl). done.
Defined.

Lemma Execute_exit_code_witness :
  ∃ c' w', toy_Execute 1 [] toy_command [] = Some (0, c', w') ∧
           fSet c' = reverse global_flag_names ++ [].
Proof.
  unfold toy_Execute.
  destruct (Execute 0%nat "inventory.yaml" toy_Parse (λ w, w ++ ["debug"])
              (λ u w, w ++ ["help"]) (toy_Read 1) toy_Write [] toy_command [])
    as [[[code c'] w']|] eqn:E.
  - assert (code = 0) as ->.
    { pose proof E as E'. vm_compute in E'. by injection E' as <- _ _. }
    exists c', w'. split; [reflexivity|].
    exact (proj1 (proj2 (Execute_exit_code 0%nat "inventory.yaml" toy_Parse
                           (λ w, w ++ ["debug"]) (λ u w, w ++ ["help"]) (toy_Read 1)
                           toy_Write [] toy_command c' [] w' 0 E))).
  - exfalso. vm_compute in E. discriminate E.
Defined.

Lemma Execute_twice_panics_witness :
  ∃ c' w', toy_Execute 1 [] toy_command [] = Some (0, c', w') ∧
           toy_Execute 1 [] c' w' = None.
Proof.
  unfold toy_Execute.
  destruct (Execute 0%nat "inventory.yaml" toy_Parse (λ w, w ++ ["debug"])
              (λ u w, w ++ ["help"]) (toy_Read 1) toy_Write [] toy_command [])
    as [[[code c'] w']|] eqn:E.
  - assert (code = 0) as ->.
    { pose proof E as E'. vm_compute in E'. by injection E' as <- _ _. }
    exists c', w'. split; [reflexivity|].
    exact (Execute_twice_panics 0%nat "inventory.yaml" toy_Parse
             (λ w, w ++ ["debug"]) (λ u w, w ++ ["help"]) (toy_Read 1)
             toy_Write [] [] toy_command c' [] w' w' 0 E).
  - exfalso. vm_compute in E. discriminate E.
Defined.



(** The command [New(nil)] makes, and the same once its arguments, none,
    have been parsed. *)
Definition toy_nil : @Command nat unit (list string) :=
  MkCommand toy_zero None None [] [0%nat] 0%nat.

Definition toy_nil_parsed : @Command nat unit (list string) :=
  MkCommand (Exported (GlobalFlagsOf "inventory.yaml" false false) (MkInventory 0%nat tt) "toy")
            None None (reverse global_flag_names) [0%nat] 0%nat.

Lemma toy_nil_parsed_ok :
  parsed_ok "inventory.yaml" toy_Parse (λ w, w ++ ["debug"]) [] toy_nil [] toy_nil_parsed [].
Proof.
  exists (MkCommand toy_zero None None (reverse global_flag_names) [0%nat] 0%nat),
         (Parsed false [] (GlobalFlagsOf "inventory.yaml" false false) false), [].
  split_and!; [vm_compute|..]; reflexivity.
Qed.

Lemma Execute_nil_action_panics_witness :
  New 0%nat toy_zero None [] = Some toy_nil ∧ toy_Execute 1 [] toy_nil [] = None.
Proof.
  split; [reflexivity|]. unfold toy_Execute.
  apply (Execute_nil_action_panics 0%nat "inventory.yaml" toy_Parse
           (λ w, w ++ ["debug"]) (λ u w, w ++ ["help"]) (toy_Read 1) toy_Write []
           toy_nil toy_nil_parsed [] [] [] (pub toy_nil_parsed) (pub toy_nil_parsed)
           toy_nil_parsed_ok).
  - left. by exists [].
  - by split.
  - by left.
Defined.

Lemma ValidateAndExpandPath_default_witness :
  ValidateAndExpandPath (λ p, inl p)
      (λ p, if decide (p = "/etc/key") then None else Some "no such file")
      "/missing" "/etc/key"
    = ("", Some (DoesNotExist "/missing" "no such file")).
Proof.
  refine (proj2 (proj2 (ValidateAndExpandPath_default (λ p, inl p)
            (λ p, if decide (p = "/etc/key") then None else Some "no such file")
            "/etc/key")) "/missing" "/missing" "no such file" _ eq_refl eq_refl).
  done.
Defined.

End command.
